(** * hyrox-sim: the race-progress simulation engine

    A shallow embedding of [spline-utils.js] (station model and
    Catmull-Rom spline geometry) and of the [CourseTracker] class of
    [course-tracker.js] (playback state machine, station crossing
    detection, ghost gap, particle trails); both are part of [js/auth.js].

    Numbers.  JavaScript numbers are IEEE-754 doubles.  They are idealised
    here as exact rationals ([Q], compared with [==]); rounding, overflow,
    [NaN] and the infinities are not represented, except where the source
    itself relies on them (a division by a zero total length, see
    [computeArcLengths]).  Loop counters and array indices are [nat] or [Z].
    The two path functions are embedded a second time over binary64 numbers
    ([SplineIEEE]), to run them as JavaScript does.

    Further down: what the tracker hands to the canvas ([Canvas]), the
    time formats of the shared helpers ([Shared]), the route, markers and
    dash animation of [VenueRealMap] ([VenueMap]) and the station list,
    frame loop and flythrough of [Venue3DScene] of [venue-3d.js]
    ([Scene3D]). *)

From Stdlib Require Import String Ascii DecimalString Bool ZArith QArith Qround Qminmax Lia Lqa
  List Sorted.
From Stdlib Require Floats Uint63.
Import ListNotations.
Open Scope Q_scope.

(* ================================================================== *)
(** * Spline geometry ([spline-utils.js]) *)
(* ================================================================== *)

Module Spline.

(** A 2D position in percent of the viewport: the [{x, y}] objects of the
    source. *)
Record Point : Type := mkPoint { px : Q; py : Q }.

(** Two positions with the same coordinates. *)
Definition pt_eq (a b : Point) : Prop := px a == px b /\ py a == py b.

Definition QofNat (n : nat) : Q := inject_Z (Z.of_nat n).

(** The comparison [a < b] of two numbers. *)
Definition Qlt_bool (a b : Q) : bool := negb (Qle_bool b a).

(** [points[i]] for an index the source has already clamped into range.
    The default stands for [undefined]; every use below is shown to stay
    inside the array. *)
Definition at_ (points : list Point) (i : Z) : Point :=
  nth (Z.to_nat i) points (mkPoint 0 0).

(** [catmullRomPoint(t, p0, p1, p2, p3)]. *)
Definition catmullRomPoint (t : Q) (p0 p1 p2 p3 : Point) : Point :=
  let t2 := t * t in
  let t3 := t2 * t in
  {| px := (1#2) * ((2 * px p1) +
                    (- px p0 + px p2) * t +
                    (2 * px p0 - 5 * px p1 + 4 * px p2 - px p3) * t2 +
                    (- px p0 + 3 * px p1 - 3 * px p2 + px p3) * t3);
     py := (1#2) * ((2 * py p1) +
                    (- py p0 + py p2) * t +
                    (2 * py p0 - 5 * py p1 + 4 * py p2 - py p3) * t2 +
                    (- py p0 + 3 * py p1 - 3 * py p2 + py p3) * t3) |}.

(** The straight-line sample [i] of the two-point branch. *)
Definition linearSample (a b : Point) (segments i : nat) : Point :=
  let t := QofNat i / QofNat segments in
  {| px := px a + (px b - px a) * t;
     py := py a + (py b - py a) * t |}.

(** The [segments] samples of spline segment [i] (from [points[i]] towards
    [points[i+1]], the end point excluded). *)
Definition splineSegment (points : list Point) (segments : nat) (i : nat) : list Point :=
  let n := Z.of_nat (length points) in
  let p0 := at_ points (Z.max 0 (Z.of_nat i - 1)) in
  let p1 := at_ points (Z.of_nat i) in
  let p2 := at_ points (Z.of_nat i + 1) in
  let p3 := at_ points (Z.min (n - 1) (Z.of_nat i + 2)) in
  map (fun s => catmullRomPoint (QofNat s / QofNat segments) p0 p1 p2 p3)
      (seq 0 segments).

(** [generateSplinePath(points, segments)]. *)
Definition generateSplinePath (points : list Point) (segments : nat) : list Point :=
  match points with
  | [] | [_] => map (fun p => mkPoint (px p) (py p)) points
  | [a; b] => map (linearSample a b segments) (seq 0 (S segments))
  | _ =>
      let n := length points in
      flat_map (splineSegment points segments) (seq 0 (n - 1))
      ++ [mkPoint (px (at_ points (Z.of_nat n - 1))) (py (at_ points (Z.of_nat n - 1)))]
  end.

(** [getPositionAtProgress(splinePath, progress)]. *)
Definition getPositionAtProgress (splinePath : list Point) (progress : Q) : Point :=
  match splinePath with
  | [] => mkPoint 50 50
  | _ =>
      let len := Z.of_nat (length splinePath) in
      let clamped := Qmax 0 (Qmin 1 progress) in
      let idx := clamped * inject_Z (len - 1) in
      let lower := Qfloor idx in
      let upper := Z.min (lower + 1) (len - 1) in
      let frac := idx - inject_Z lower in
      let lo := at_ splinePath lower in
      let up := at_ splinePath upper in
      {| px := px lo + (px up - px lo) * frac;
         py := py lo + (py up - py lo) * frac |}
  end.

(** A JavaScript quotient: [None] stands for the result of a division by
    zero, which is no rational.  The one division by zero the source can
    make is [0 / 0] in [computeArcLengths], on a path of total length 0,
    and gives [NaN]. *)
Definition jsDiv (a b : Q) : option Q :=
  if Qeq_bool b 0 then None else Some (a / b).

Section ArcLength.

(** [Math.sqrt], a builtin of the host.  The definitions take any function;
    the facts about them assume it non-negative, and positive on positive
    arguments. *)
Variable sqrt : Q -> Q.

(** The running sums of [computeArcLengths]'s loop: [prev] is
    [splinePath[i-1]], [total] the length so far. *)
Fixpoint cumulative (prev : Point) (total : Q) (rest : list Point) : list Q :=
  match rest with
  | [] => []
  | p :: rest' =>
      let dx := px p - px prev in
      let dy := py p - py prev in
      let total' := total + sqrt (dx * dx + dy * dy) in
      total' :: cumulative p total' rest'
  end.

(** [computeArcLengths(splinePath)]: the cumulative distances divided by the
    total ([None] where the source produces [NaN], on a path of length 0). *)
Definition computeArcLengths (splinePath : list Point) : list (option Q) :=
  match splinePath with
  | [] | [_] => [Some 0]
  | p0 :: rest =>
      let lengths := 0 :: cumulative p0 0 rest in
      let total := last lengths 0 in
      map (fun l => jsDiv l total) lengths
  end.

(** [stationToProgress(stationIndex, totalStations, arcLengths, segmentsPerStation)].
    [v || 0] replaces a missing entry, [NaN] and [0] by [0]. *)
Definition stationToProgress (stationIndex totalStations : nat)
    (arcLengths : list (option Q)) (segmentsPerStation : nat) : Q :=
  if (totalStations <=? 1)%nat then 0
  else
    let splineIdx := Z.of_nat (stationIndex * segmentsPerStation) in
    let clamped := Z.min splineIdx (Z.of_nat (length arcLengths) - 1) in
    match (if (clamped <? 0)%Z then None else nth_error arcLengths (Z.to_nat clamped)) with
    | Some (Some v) => if Qeq_bool v 0 then 0 else v
    | _ => 0
    end.

(** The station progress map the tracker's constructor builds:
    [stationPoints.map((_, i) => stationToProgress(i, n, arcLengths, segs))]. *)
Definition stationProgressMap (points : list Point) (segments : nat) : list Q :=
  let arcLengths := computeArcLengths (generateSplinePath points segments) in
  map (fun i => stationToProgress i (length points) arcLengths segments)
      (seq 0 (length points)).

End ArcLength.

End Spline.

(* ================================================================== *)
(** * The path functions over binary64 numbers *)
(* ================================================================== *)

(** [generateSplinePath] and [getPositionAtProgress] once more, with the
    arithmetic of JavaScript: every [+], [-], [*] and [/] is the IEEE-754
    binary64 operation, in the order the source writes them. *)
Module SplineIEEE.
Import Floats.
Local Open Scope float_scope.

Record Point : Type := mkPoint { px : float; py : float }.

(** An integer as a number. *)
Definition ofZ (z : Z) : float := PrimFloat.of_uint63 (Uint63.of_Z z).

Definition ofNat (n : nat) : float := ofZ (Z.of_nat n).

(** [Math.floor] of a finite number, as an integer. *)
Definition floorZ (f : float) : Z :=
  match Prim2SF f with
  | S754_finite s m e =>
      let v := if s then Z.neg m else Z.pos m in
      if (0 <=? e)%Z then (v * 2 ^ e)%Z else (v / 2 ^ (- e))%Z
  | _ => 0%Z
  end.

(** [Math.min] and [Math.max] of two numbers. *)
Definition jsMin (a b : float) : float :=
  if is_nan a || is_nan b then nan else if b <? a then b else a.

Definition jsMax (a b : float) : float :=
  if is_nan a || is_nan b then nan else if a <? b then b else a.

Definition at_ (points : list Point) (i : Z) : Point :=
  nth (Z.to_nat i) points (mkPoint 0 0).

(** [catmullRomPoint(t, p0, p1, p2, p3)]. *)
Definition catmullRomPoint (t : float) (p0 p1 p2 p3 : Point) : Point :=
  let t2 := t * t in
  let t3 := t2 * t in
  {| px := 0.5 * ((2 * px p1) +
                  (- px p0 + px p2) * t +
                  (2 * px p0 - 5 * px p1 + 4 * px p2 - px p3) * t2 +
                  (- px p0 + 3 * px p1 - 3 * px p2 + px p3) * t3);
     py := 0.5 * ((2 * py p1) +
                  (- py p0 + py p2) * t +
                  (2 * py p0 - 5 * py p1 + 4 * py p2 - py p3) * t2 +
                  (- py p0 + 3 * py p1 - 3 * py p2 + py p3) * t3) |}.

(** Sample [i] of the two-point branch. *)
Definition linearSample (a b : Point) (segments i : nat) : Point :=
  let t := ofNat i / ofNat segments in
  {| px := px a + (px b - px a) * t;
     py := py a + (py b - py a) * t |}.

Definition splineSegment (points : list Point) (segments : nat) (i : nat) : list Point :=
  let n := Z.of_nat (length points) in
  let p0 := at_ points (Z.max 0 (Z.of_nat i - 1)) in
  let p1 := at_ points (Z.of_nat i) in
  let p2 := at_ points (Z.of_nat i + 1) in
  let p3 := at_ points (Z.min (n - 1) (Z.of_nat i + 2)) in
  map (fun s => catmullRomPoint (ofNat s / ofNat segments) p0 p1 p2 p3)
      (seq 0 segments).

(** [generateSplinePath(points, segments)]. *)
Definition generateSplinePath (points : list Point) (segments : nat) : list Point :=
  match points with
  | [] | [_] => map (fun p => mkPoint (px p) (py p)) points
  | [a; b] => map (linearSample a b segments) (seq 0 (S segments))
  | _ =>
      let n := length points in
      flat_map (splineSegment points segments) (seq 0 (n - 1))
      ++ [mkPoint (px (at_ points (Z.of_nat n - 1))) (py (at_ points (Z.of_nat n - 1)))]
  end.

(** [getPositionAtProgress(splinePath, progress)]. *)
Definition getPositionAtProgress (splinePath : list Point) (progress : float) : Point :=
  match splinePath with
  | [] => mkPoint 50 50
  | _ =>
      let len := Z.of_nat (length splinePath) in
      let clamped := jsMax 0 (jsMin 1 progress) in
      let idx := clamped * ofZ (len - 1) in
      let lower := floorZ idx in
      let upper := Z.min (lower + 1) (len - 1) in
      let frac := idx - ofZ lower in
      let lo := at_ splinePath lower in
      let up := at_ splinePath upper in
      {| px := px lo + (px up - px lo) * frac;
         py := py lo + (py up - py lo) * frac |}
  end.

(** [a === b] on both coordinates. *)
Definition samePoint (a b : Point) : bool :=
  PrimFloat.eqb (px a) (px b) && PrimFloat.eqb (py a) (py b).

(** The progress values 0 and 1. *)
Definition atStart : float := 0.

Definition atEnd : float := 1.

(** Three stations of a course, in percent of the viewport. *)
#[warnings="-inexact-float"]
Definition stationA : Point := mkPoint 1.1 50.

#[warnings="-inexact-float"]
Definition stationB : Point := mkPoint 6.3 50.

Definition stationC : Point := mkPoint 50 80.

End SplineIEEE.

(* ================================================================== *)
(** * Station model ([buildStationPoints] of [spline-utils.js]) *)
(* ================================================================== *)

Module StationModel.

(** The JavaScript values [station_coordinates] can hold: what [JSON.parse]
    produces, plus [undefined].  An object is its property list in insertion
    order. *)
#[warnings="-register-all"]
Inductive JsValue : Type :=
| JUndefined
| JNull
| JBool (b : bool)
| JNum (q : Q)
| JStr (s : string)
| JArr (items : list JsValue)
| JObj (props : list (string * JsValue)).

Inductive JsError : Type := TypeError | SyntaxError.

(** The outcome of a call that may throw. *)
Inductive Result (A : Type) : Type :=
| Ok (a : A)
| Throw (e : JsError).
Arguments Ok {A} a.
Arguments Throw {A} e.

Definition bind {A B : Type} (r : Result A) (k : A -> Result B) : Result B :=
  match r with
  | Ok a => k a
  | Throw e => Throw e
  end.

Notation "x <- r ;; k" := (bind r (fun x => k))
  (at level 61, r at next level, right associativity).

(** JavaScript truthiness, as tested by [if (s)] and [a && b]. *)
Definition truthy (v : JsValue) : bool :=
  match v with
  | JUndefined | JNull => false
  | JBool b => b
  | JNum q => negb (Qeq_bool q 0)
  | JStr s => negb (s =? "")%string
  | JArr _ | JObj _ => true
  end.

(** The own property [k] of a property list; of two entries with the same
    key the later one counts, as in [JSON.parse]. *)
Fixpoint propLookup (k : string) (props : list (string * JsValue)) : option JsValue :=
  match props with
  | [] => None
  | (k', v) :: rest =>
      match propLookup k rest with
      | Some w => Some w
      | None => if (k =? k')%string then Some v else None
      end
  end.

(** [v.k] and [v[k]], for the property names this file reads
    ([start_finish], [station_1] .. [station_8], [roxzone], [x], [y],
    [name]): a [TypeError] on [undefined] and [null], the own property of an
    object, [undefined] on everything else. *)
Definition getProp (v : JsValue) (k : string) : Result JsValue :=
  match v with
  | JUndefined | JNull => Throw TypeError
  | JObj props =>
      match propLookup k props with
      | Some w => Ok w
      | None => Ok JUndefined
      end
  | _ => Ok JUndefined
  end.

(** An element of [buildStationPoints]'s result, [{x, y, key, name, num}];
    [x], [y] and [name] are whatever the input holds. *)
Record StationPoint : Type := mkStationPoint {
  sp_x : JsValue;
  sp_y : JsValue;
  sp_key : string;
  sp_name : JsValue;
  sp_num : Z
}.

(** The template string [`station_${i}`] for a single-digit [i]. *)
Definition stationKey (i : nat) : string :=
  ("station_" ++ String (ascii_of_nat (48 + i)) "")%string.

(** [points.splice(mid, 0, item)]. *)
Definition spliceIn {A : Type} (mid : nat) (item : A) (points : list A) : list A :=
  firstn mid points ++ item :: skipn mid points.

Section Build.

(** [JSON.parse], a builtin of the host. *)
Variable JSON_parse : string -> Result JsValue.

(** One round of the loop [for (let i = 1; i <= 8; i++)]. *)
Definition pushStation (parsed : JsValue) (points : list StationPoint) (i : nat)
  : Result (list StationPoint) :=
  s <- getProp parsed (stationKey i) ;;
  if truthy s then
    x <- getProp s "x" ;;
    y <- getProp s "y" ;;
    name <- getProp s "name" ;;
    Ok (points ++ [mkStationPoint x y (stationKey i) name (Z.of_nat i)])
  else Ok points.

Fixpoint pushStations (parsed : JsValue) (points : list StationPoint) (indices : list nat)
  : Result (list StationPoint) :=
  match indices with
  | [] => Ok points
  | i :: indices' =>
      points' <- pushStation parsed points i ;;
      pushStations parsed points' indices'
  end.

(** [buildStationPoints(coords, includeSpecial = false)]. *)
Definition buildStationPoints (coords : JsValue) (includeSpecial : bool)
  : Result (list StationPoint) :=
  parsed <- match coords with
            | JStr text => JSON_parse text
            | _ => Ok coords
            end ;;
  points0 <- (if includeSpecial then
                sf <- getProp parsed "start_finish" ;;
                if truthy sf then
                  x <- getProp sf "x" ;;
                  y <- getProp sf "y" ;;
                  Ok [mkStationPoint x y "start_finish" (JStr "Start/Finish") 0]
                else Ok []
              else Ok []) ;;
  points1 <- pushStations parsed points0 (seq 1 8) ;;
  if includeSpecial then
    rz <- getProp parsed "roxzone" ;;
    if truthy rz then
      let mid := (length points1 / 2)%nat in
      x <- getProp rz "x" ;;
      y <- getProp rz "y" ;;
      Ok (spliceIn mid (mkStationPoint x y "roxzone" (JStr "ROXZONE") (-1)) points1)
    else Ok points1
  else Ok points1.

End Build.

(** ** A reader for JSON text

    [JSON.parse] for the grammar of RFC 8259: white space, [null], [true],
    [false], numbers, strings with the two-character escapes and [\uXXXX]
    (written out in UTF-8), arrays and objects.  Anything else is a
    [SyntaxError]. *)

Definition isWs (c : ascii) : bool :=
  let n := nat_of_ascii c in
  ((n =? 32) || (n =? 9) || (n =? 10) || (n =? 13))%nat.

Fixpoint skipWs (cs : list ascii) : list ascii :=
  match cs with
  | c :: rest => if isWs c then skipWs rest else cs
  | [] => []
  end.

Definition digitVal (c : ascii) : option Z :=
  let n := nat_of_ascii c in
  if ((48 <=? n) && (n <=? 57))%nat then Some (Z.of_nat (n - 48)) else None.

Definition hexVal (c : ascii) : option nat :=
  let n := nat_of_ascii c in
  if ((48 <=? n) && (n <=? 57))%nat then Some (n - 48)%nat
  else if ((97 <=? n) && (n <=? 102))%nat then Some (n - 87)%nat
  else if ((65 <=? n) && (n <=? 70))%nat then Some (n - 55)%nat
  else None.

(** Reads a maximal run of digits: the number read after [acc], how many
    digits there were, and the rest. *)
Fixpoint readDigits (acc : Z) (count : nat) (cs : list ascii) : Z * nat * list ascii :=
  match cs with
  | c :: rest =>
      match digitVal c with
      | Some d => readDigits (10 * acc + d)%Z (S count) rest
      | None => (acc, count, cs)
      end
  | [] => (acc, count, cs)
  end.

(** The UTF-8 bytes of a code point below 0x10000. *)
Definition utf8 (cp : nat) : list ascii :=
  if (cp <? 128)%nat then [ascii_of_nat cp]
  else if (cp <? 2048)%nat then
    [ascii_of_nat (192 + cp / 64); ascii_of_nat (128 + cp mod 64)]
  else
    [ascii_of_nat (224 + cp / 4096); ascii_of_nat (128 + (cp / 64) mod 64);
     ascii_of_nat (128 + cp mod 64)].

(** The characters of a string literal after its opening quote. *)
Fixpoint readString (fuel : nat) (acc : list ascii) (cs : list ascii)
  : option (string * list ascii) :=
  match fuel with
  | O => None
  | S fuel' =>
      match cs with
      | [] => None
      | c :: rest =>
          let n := nat_of_ascii c in
          if (n =? 34)%nat then Some (string_of_list_ascii acc, rest)
          else if (n <? 32)%nat then None
          else if (n =? 92)%nat then
            match rest with
            | e :: rest' =>
                let m := nat_of_ascii e in
                let esc (k : nat) := readString fuel' (acc ++ [ascii_of_nat k]) rest' in
                if (m =? 34)%nat then esc 34%nat
                else if (m =? 92)%nat then esc 92%nat
                else if (m =? 47)%nat then esc 47%nat
                else if (m =? 98)%nat then esc 8%nat
                else if (m =? 102)%nat then esc 12%nat
                else if (m =? 110)%nat then esc 10%nat
                else if (m =? 114)%nat then esc 13%nat
                else if (m =? 116)%nat then esc 9%nat
                else if (m =? 117)%nat then
                  match rest' with
                  | h1 :: h2 :: h3 :: h4 :: rest'' =>
                      match hexVal h1, hexVal h2, hexVal h3, hexVal h4 with
                      | Some a, Some b, Some c', Some d =>
                          readString fuel'
                            (acc ++ utf8 (((a * 16 + b) * 16 + c') * 16 + d)) rest''
                      | _, _, _, _ => None
                      end
                  | _ => None
                  end
                else None
            | [] => None
            end
          else readString fuel' (acc ++ [c]) rest
      end
  end.

(** A number literal: [-? int frac? exp?]. *)
Definition readNumber (cs : list ascii) : option (Q * list ascii) :=
  let (neg, cs1) :=
    match cs with
    | c :: rest => if (nat_of_ascii c =? 45)%nat then (true, rest) else (false, cs)
    | [] => (false, cs)
    end in
  let '(ip, icount, cs2) := readDigits 0 0 cs1 in
  let leadingZero :=
    match cs1 with
    | c :: _ => (nat_of_ascii c =? 48)%nat
    | [] => false
    end in
  if (icount =? 0)%nat || (leadingZero && (1 <? icount)%nat) then None
  else
    let fracPart :=
      match cs2 with
      | c :: rest =>
          if (nat_of_ascii c =? 46)%nat then
            let '(fp, fcount, cs3) := readDigits ip 0 rest in
            if (fcount =? 0)%nat then None else Some (fp, fcount, cs3)
          else Some (ip, 0%nat, cs2)
      | [] => Some (ip, 0%nat, cs2)
      end in
    match fracPart with
    | None => None
    | Some (mant, fcount, cs3) =>
        let m : Q := inject_Z mant / inject_Z (10 ^ Z.of_nat fcount) in
        let expPart :=
          match cs3 with
          | c :: rest =>
              if ((nat_of_ascii c =? 101) || (nat_of_ascii c =? 69))%nat then
                let (eneg, rest1) :=
                  match rest with
                  | s :: rest' =>
                      if (nat_of_ascii s =? 45)%nat then (true, rest')
                      else if (nat_of_ascii s =? 43)%nat then (false, rest')
                      else (false, rest)
                  | [] => (false, rest)
                  end in
                let '(ev, ecount, cs4) := readDigits 0 0 rest1 in
                if (ecount =? 0)%nat then None
                else Some (if eneg then (- ev)%Z else ev, cs4)
              else Some (0%Z, cs3)
          | [] => Some (0%Z, cs3)
          end in
        match expPart with
        | None => None
        | Some (e, cs4) =>
            let scaled :=
              if (e <? 0)%Z then m / inject_Z (10 ^ (- e)) else m * inject_Z (10 ^ e) in
            Some (Qred (if neg then - scaled else scaled), cs4)
        end
    end.

(** Values, array elements and object members; [fuel] bounds the nesting. *)
Fixpoint readValue (fuel : nat) (cs : list ascii) {struct fuel}
  : option (JsValue * list ascii) :=
  match fuel with
  | O => None
  | S fuel' =>
      match skipWs cs with
      | [] => None
      | c :: rest =>
          let n := nat_of_ascii c in
          if (n =? 110)%nat then
            match rest with
            | "u"%char :: "l"%char :: "l"%char :: r => Some (JNull, r)
            | _ => None
            end
          else if (n =? 116)%nat then
            match rest with
            | "r"%char :: "u"%char :: "e"%char :: r => Some (JBool true, r)
            | _ => None
            end
          else if (n =? 102)%nat then
            match rest with
            | "a"%char :: "l"%char :: "s"%char :: "e"%char :: r => Some (JBool false, r)
            | _ => None
            end
          else if (n =? 34)%nat then
            match readString (S (length rest)) [] rest with
            | Some (s, r) => Some (JStr s, r)
            | None => None
            end
          else if (n =? 91)%nat then
            match skipWs rest with
            | "]"%char :: r => Some (JArr [], r)
            | _ => readElements fuel' [] rest
            end
          else if (n =? 123)%nat then
            match skipWs rest with
            | "}"%char :: r => Some (JObj [], r)
            | _ => readMembers fuel' [] rest
            end
          else
            match readNumber (c :: rest) with
            | Some (q, r) => Some (JNum q, r)
            | None => None
            end
      end
  end
with readElements (fuel : nat) (acc : list JsValue) (cs : list ascii) {struct fuel}
  : option (JsValue * list ascii) :=
  match fuel with
  | O => None
  | S fuel' =>
      match readValue fuel' cs with
      | Some (v, r) =>
          match skipWs r with
          | ","%char :: r' => readElements fuel' (acc ++ [v]) r'
          | "]"%char :: r' => Some (JArr (acc ++ [v]), r')
          | _ => None
          end
      | None => None
      end
  end
with readMembers (fuel : nat) (acc : list (string * JsValue)) (cs : list ascii) {struct fuel}
  : option (JsValue * list ascii) :=
  match fuel with
  | O => None
  | S fuel' =>
      match skipWs cs with
      | quote :: r0 =>
          if (nat_of_ascii quote =? 34)%nat then
            match readString (S (length r0)) [] r0 with
            | Some (k, r1) =>
                match skipWs r1 with
                | ":"%char :: r2 =>
                    match readValue fuel' r2 with
                    | Some (v, r3) =>
                        match skipWs r3 with
                        | ","%char :: r4 => readMembers fuel' (acc ++ [(k, v)]) r4
                        | "}"%char :: r4 => Some (JObj (acc ++ [(k, v)]), r4)
                        | _ => None
                        end
                    | None => None
                    end
                | _ => None
                end
            | None => None
            end
          else None
      | [] => None
      end
  end.

(** [JSON.parse(text)]. *)
Definition JSON_parse (text : string) : Result JsValue :=
  let cs := list_ascii_of_string text in
  match readValue (2 * length cs + 2) cs with
  | Some (v, rest) =>
      match skipWs rest with
      | [] => Ok v
      | _ => Throw SyntaxError
      end
  | None => Throw SyntaxError
  end.

End StationModel.

(* ================================================================== *)
(** * The playback engine ([CourseTracker] of [course-tracker.js]) *)
(* ================================================================== *)

Module Tracker.
Import Spline.

(** A station with numeric coordinates, as the geometry reads it. *)
Record Station : Type := mkStation {
  x : Q;
  y : Q;
  key : string;
  name : string;
  num : Z
}.

Definition pos (s : Station) : Point := mkPoint (x s) (y s).

(** [{stationNum, timeMs, name}]. *)
Record Split : Type := mkSplit {
  stationNum : Z;
  timeMs : Q;
  splitName : string
}.

(** A trail particle [{x, y, life, size, vx, vy}]. *)
Record Particle : Type := mkParticle {
  p_x : Q;
  p_y : Q;
  life : Q;
  size : Q;
  vx : Q;
  vy : Q
}.

(** The split popup [{text, opacity, x, y}]. *)
Record ActiveSplit : Type := mkActiveSplit {
  text : string;
  opacity : Q;
  a_x : Q;
  a_y : Q
}.

(** The calls the engine makes to its two callbacks, oldest first:
    [onStationReached(station.num, splitTime)], made at loop index [index]
    of [_checkStations], and [onComplete()].  The callbacks are taken to
    return without calling back into the tracker. *)
Inductive Event : Type :=
| StationReached (index : nat) (stationNumber : Z) (splitTime : option Split)
| Complete.

(** What a queued animation-frame request will run. *)
Inductive Callback : Type := RunDraw | RunTick.

(** The host around the engine: the animation-frame requests not yet run
    or cancelled and the next request id, the number of [Math.random()]
    calls made so far, and the callback calls made so far. *)
Record Host : Type := mkHost {
  rafQueue : list (nat * Callback);
  rafNext : nat;
  randomCalls : nat;
  events : list Event
}.

(** The fields the constructor derives from its options and never
    reassigns. *)
Record Course : Type := mkCourse {
  stationPoints : list Station;
  splinePath : list Point;
  arcLengths : list (option Q);
  stationProgresses : list Q;
  splits : list Split;
  totalTimeMs : Q;
  splitCumulative : list Q
}.

(** The ghost racer's fields ([setGhostSplits] and [toggleGhost] write
    them). *)
Record Ghost : Type := mkGhost {
  ghostSplits : list Split;
  ghostLabel : string;
  ghostTotalMs : Q;
  ghostCumulative : list Q;
  showGhost : bool
}.

Record CourseTracker : Type := mkTracker {
  course : Course;
  ghost : Ghost;
  isPlaying : bool;
  progress : Q;
  elapsedMs : Q;
  speed : Q;
  lastTimestamp : option Q;
  animFrameId : option nat;
  particles : list Particle;
  ghostParticles : list Particle;
  activeSplit : option ActiveSplit;
  lastStationIndex : Z;
  host : Host
}.

(** ** Timelines *)

(** The loop [for (const s of splits) { cum += s.timeMs; push(cum) }]: the
    pushed values and the final [cum]. *)
Fixpoint accumulate (cum : Q) (ss : list Split) : list Q * Q :=
  match ss with
  | [] => ([], cum)
  | s :: rest =>
      let cum' := cum + timeMs s in
      let (pushed, total) := accumulate cum' rest in
      (cum' :: pushed, total)
  end.

(** The cumulative array and the total of a split sequence ([[]] and [0]
    when there is none). *)
Definition buildTimeline (ss : list Split) : list Q * Q :=
  match ss with
  | [] => ([], 0)
  | _ => accumulate 0 ss
  end.

(** ** Host calls *)

(** [requestAnimationFrame(cb)]: queues [cb] and returns a fresh id. *)
Definition requestAnimationFrame (cb : Callback) (h : Host) : nat * Host :=
  (rafNext h,
   {| rafQueue := rafQueue h ++ [(rafNext h, cb)];
      rafNext := S (rafNext h);
      randomCalls := randomCalls h;
      events := events h |}).

(** [cancelAnimationFrame(id)]. *)
Definition cancelAnimationFrame (id : nat) (h : Host) : Host :=
  {| rafQueue := filter (fun r => negb (fst r =? id)%nat) (rafQueue h);
     rafNext := rafNext h;
     randomCalls := randomCalls h;
     events := events h |}.

(** A callback call is recorded. *)
Definition emit (e : Event) (h : Host) : Host :=
  {| rafQueue := rafQueue h;
     rafNext := rafNext h;
     randomCalls := randomCalls h;
     events := events h ++ [e] |}.

(** [n] more calls of [Math.random()] have been made. *)
Definition drawn (n : nat) (h : Host) : Host :=
  {| rafQueue := rafQueue h;
     rafNext := rafNext h;
     randomCalls := (randomCalls h + n)%nat;
     events := events h |}.

(** ** Formatting *)

(** [n.toString().padStart(2, '0')] for an integer [n]. *)
Definition pad2 (n : Z) : string :=
  let s := NilEmpty.string_of_int (Z.to_int n) in
  match String.length s with
  | O => "00"
  | S O => String "0" s
  | _ => s
  end%string.

(** [_formatTime(ms)]. *)
Definition _formatTime (ms : Q) : string :=
  let totalSec := Qfloor (ms / 1000) in
  let m := (totalSec / 60)%Z in
  let s := Z.rem totalSec 60 in
  (pad2 m ++ ":" ++ pad2 s)%string.

(** ** Public operations that do not tick

    [_draw()] only reads the tracker and paints the canvas; it leaves no
    trace in this model. *)

(** [pause()]. *)
Definition pause (t : CourseTracker) : CourseTracker :=
  let cancels :=
    match animFrameId t with
    | Some id => negb (id =? 0)%nat
    | None => false
    end in
  {| course := course t;
     ghost := ghost t;
     isPlaying := false;
     progress := progress t;
     elapsedMs := elapsedMs t;
     speed := speed t;
     lastTimestamp := lastTimestamp t;
     animFrameId := if cancels then None else animFrameId t;
     particles := particles t;
     ghostParticles := ghostParticles t;
     activeSplit := activeSplit t;
     lastStationIndex := lastStationIndex t;
     host := match animFrameId t with
             | Some id => if cancels then cancelAnimationFrame id (host t) else host t
             | None => host t
             end |}.

(** [restart()]. *)
Definition restart (t : CourseTracker) : CourseTracker :=
  let t1 := pause t in
  {| course := course t1;
     ghost := ghost t1;
     isPlaying := isPlaying t1;
     progress := 0;
     elapsedMs := 0;
     speed := speed t1;
     lastTimestamp := lastTimestamp t1;
     animFrameId := animFrameId t1;
     particles := [];
     ghostParticles := [];
     activeSplit := None;
     lastStationIndex := -1;
     host := host t1 |}.

(** [seekTo(progress)]. *)
Definition seekTo (target : Q) (t : CourseTracker) : CourseTracker :=
  let progress' := Qmax 0 (Qmin 1 target) in
  {| course := course t;
     ghost := ghost t;
     isPlaying := isPlaying t;
     progress := progress';
     elapsedMs := progress' * totalTimeMs (course t);
     speed := speed t;
     lastTimestamp := lastTimestamp t;
     animFrameId := animFrameId t;
     particles := [];
     ghostParticles := [];
     activeSplit := activeSplit t;
     lastStationIndex := lastStationIndex t;
     host := host t |}.

(** [setSpeed(multiplier)]. *)
Definition setSpeed (multiplier : Q) (t : CourseTracker) : CourseTracker :=
  {| course := course t;
     ghost := ghost t;
     isPlaying := isPlaying t;
     progress := progress t;
     elapsedMs := elapsedMs t;
     speed := multiplier;
     lastTimestamp := lastTimestamp t;
     animFrameId := animFrameId t;
     particles := particles t;
     ghostParticles := ghostParticles t;
     activeSplit := activeSplit t;
     lastStationIndex := lastStationIndex t;
     host := host t |}.

(** The tracker with another ghost record. *)
Definition withGhost (g : Ghost) (t : CourseTracker) : CourseTracker :=
  {| course := course t;
     ghost := g;
     isPlaying := isPlaying t;
     progress := progress t;
     elapsedMs := elapsedMs t;
     speed := speed t;
     lastTimestamp := lastTimestamp t;
     animFrameId := animFrameId t;
     particles := particles t;
     ghostParticles := ghostParticles t;
     activeSplit := activeSplit t;
     lastStationIndex := lastStationIndex t;
     host := host t |}.

(** [label || 'PRO']. *)
Definition labelOr (label : option string) : string :=
  match label with
  | Some l => if (l =? "")%string then "PRO"%string else l
  | None => "PRO"%string
  end.

(** [setGhostSplits(splits, label)]; [None] is a missing argument. *)
Definition setGhostSplits (ss : option (list Split)) (label : option string)
    (t : CourseTracker) : CourseTracker :=
  let ss' := match ss with Some l => l | None => [] end in
  let (cumulative, total) := buildTimeline ss' in
  withGhost {| ghostSplits := ss';
               ghostLabel := labelOr label;
               ghostTotalMs := total;
               ghostCumulative := cumulative;
               showGhost := negb (length ss' =? 0)%nat |} t.

(** [toggleGhost()]. *)
Definition toggleGhost (t : CourseTracker) : CourseTracker :=
  withGhost {| ghostSplits := ghostSplits (ghost t);
               ghostLabel := ghostLabel (ghost t);
               ghostTotalMs := ghostTotalMs (ghost t);
               ghostCumulative := ghostCumulative (ghost t);
               showGhost := negb (showGhost (ghost t)) |} t.

(** [destroy()]. *)
Definition destroy (t : CourseTracker) : CourseTracker := pause t.

(** The tracker with another host record. *)
Definition withHost (h : Host) (t : CourseTracker) : CourseTracker :=
  {| course := course t;
     ghost := ghost t;
     isPlaying := isPlaying t;
     progress := progress t;
     elapsedMs := elapsedMs t;
     speed := speed t;
     lastTimestamp := lastTimestamp t;
     animFrameId := animFrameId t;
     particles := particles t;
     ghostParticles := ghostParticles t;
     activeSplit := activeSplit t;
     lastStationIndex := lastStationIndex t;
     host := h |}.

(** ** Crossing detection *)

(** Stands for [stationPoints[i]] past the end of the array; the
    constructor makes [stationProgresses] as long as [stationPoints], so
    the loop below never reads it. *)
Definition noStation : Station := mkStation 0 0 "" "" 0.

(** The body of [_checkStations]'s loop at index [i]. *)
Definition checkStation (t : CourseTracker) (i : nat) : CourseTracker :=
  let c := course t in
  let threshold := nth i (stationProgresses c) 0 in
  if Qle_bool threshold (progress t) && (lastStationIndex t <? Z.of_nat i)%Z then
    let station := nth i (stationPoints c) noStation in
    let splitTime := nth_error (splits c) i in
    {| course := course t;
       ghost := ghost t;
       isPlaying := isPlaying t;
       progress := progress t;
       elapsedMs := elapsedMs t;
       speed := speed t;
       lastTimestamp := lastTimestamp t;
       animFrameId := animFrameId t;
       particles := particles t;
       ghostParticles := ghostParticles t;
       activeSplit :=
         match splitTime with
         | Some st =>
             let at_station := getPositionAtProgress (splinePath c) threshold in
             Some {| text := (name station ++ ": " ++ _formatTime (timeMs st))%string;
                     opacity := 1;
                     a_x := px at_station;
                     a_y := py at_station |}
         | None => activeSplit t
         end;
       lastStationIndex := Z.of_nat i;
       host := emit (StationReached i (num station) splitTime) (host t) |}
  else t.

(** [_checkStations()]: the loop over [i = 0 .. stationProgresses.length - 1]. *)
Definition _checkStations (t : CourseTracker) : CourseTracker :=
  fold_left checkStation (seq 0 (length (stationProgresses (course t)))) t.

(** ** Particles *)

(** The three updates of one particle in the cull loop. *)
Definition decay (dt window : Q) (p : Particle) : Particle :=
  {| p_x := p_x p + vx p;
     p_y := p_y p + vy p;
     life := life p - dt / window;
     size := size p;
     vx := vx p;
     vy := vy p |}.

(** [ps[i] = v] and [ps.splice(i, 1)]. *)
Definition setAt (i : nat) (v : Particle) (ps : list Particle) : list Particle :=
  firstn i ps ++ v :: skipn (S i) ps.

Definition removeAt (i : nat) (ps : list Particle) : list Particle :=
  firstn i ps ++ skipn (S i) ps.

(** The loop [for (let i = ps.length - 1; i >= 0; i--)], entered with
    [n = i + 1]: the particle at [i] is updated in place and spliced out when
    its life is used up.  The index is always inside the array; the [None]
    branch is never taken. *)
Fixpoint updateAndCull (n : nat) (dt window : Q) (ps : list Particle) : list Particle :=
  match n with
  | O => ps
  | S i =>
      match nth_error ps i with
      | Some p =>
          let p' := decay dt window p in
          updateAndCull i dt window
            (if Qle_bool (life p') 0 then removeAt i ps else setAt i p' ps)
      | None => ps
      end
  end.

(** [while (ps.length > cap) ps.shift()]. *)
Fixpoint shiftWhileOver (cap : nat) (ps : list Particle) : list Particle :=
  match ps with
  | [] => []
  | _ :: rest => if (cap <? length ps)%nat then shiftWhileOver cap rest else ps
  end.

(** One pool's share of [_updateParticles]: push, update and cull, cap. *)
Definition updatePool (spawned : Particle) (dt window : Q) (cap : nat)
    (pool : list Particle) : list Particle :=
  let pushed := pool ++ [spawned] in
  shiftWhileOver cap (updateAndCull (length pushed) dt window pushed).

Section Engine.

(** [Math.random()]: the value of its [k]-th call. *)
Variable random : nat -> Q.

(** The particle spawned for the athlete, from call [r] of [Math.random()]
    on. *)
Definition athleteParticle (at_ : Point) (r : nat) : Particle :=
  {| p_x := px at_;
     p_y := py at_;
     life := 1;
     size := 3 + random r * 2;
     vx := (random (r + 1) - (1#2)) * (3#10);
     vy := (random (r + 2) - (1#2)) * (3#10) |}.

(** The particle spawned for the ghost. *)
Definition ghostParticle (at_ : Point) (r : nat) : Particle :=
  {| p_x := px at_;
     p_y := py at_;
     life := 1;
     size := 2 + random r * (3#2);
     vx := (random (r + 1) - (1#2)) * (2#10);
     vy := (random (r + 2) - (1#2)) * (2#10) |}.

(** The guard of the ghost half of [_updateParticles] (and of the ghost
    drawing in [_draw]). *)
Definition ghostActive (t : CourseTracker) : bool :=
  showGhost (ghost t) && Qlt_bool 0 (ghostTotalMs (ghost t)).

(** The particle [_updateParticles] pushes for the athlete, at
    [getPositionAtProgress(this.splinePath, this.progress)]. *)
Definition spawnedAthlete (t : CourseTracker) : Particle :=
  let r := randomCalls (host t) in
  let at_athlete := getPositionAtProgress (splinePath (course t)) (progress t) in
  athleteParticle at_athlete r.

(** The particle it pushes for the ghost, at the ghost's own progress;
    three [Math.random()] calls have gone to the athlete's particle. *)
Definition spawnedGhost (t : CourseTracker) : Particle :=
  let r := randomCalls (host t) in
  let ghostProgress := Qmin 1 (elapsedMs t / ghostTotalMs (ghost t)) in
  let at_ghost := getPositionAtProgress (splinePath (course t)) ghostProgress in
  ghostParticle at_ghost (r + 3).

(** [_updateParticles(dt)]. *)
Definition _updateParticles (dt : Q) (t : CourseTracker) : CourseTracker :=
  {| course := course t;
     ghost := ghost t;
     isPlaying := isPlaying t;
     progress := progress t;
     elapsedMs := elapsedMs t;
     speed := speed t;
     lastTimestamp := lastTimestamp t;
     animFrameId := animFrameId t;
     particles := updatePool (spawnedAthlete t) dt 800 30 (particles t);
     ghostParticles :=
       if ghostActive t
       then updatePool (spawnedGhost t) dt 600 20 (ghostParticles t)
       else ghostParticles t;
     activeSplit := activeSplit t;
     lastStationIndex := lastStationIndex t;
     host := drawn (if ghostActive t then 6 else 3) (host t) |}.

(** ** The frame loop *)

(** [now - (this.lastTimestamp || now)]: a [null] or zero time stamp gives
    a delta of 0. *)
Definition tickDelta (now : Q) (t : CourseTracker) : Q :=
  now - match lastTimestamp t with
        | Some ts => if Qeq_bool ts 0 then now else ts
        | None => now
        end.

(** The first part of [_tick]: the time stamp, the elapsed time and the
    progress. *)
Definition advance (now : Q) (t : CourseTracker) : CourseTracker :=
  let dt := tickDelta now t in
  let elapsedMs' := elapsedMs t + dt * speed t in
  {| course := course t;
     ghost := ghost t;
     isPlaying := isPlaying t;
     progress := if Qlt_bool 0 (totalTimeMs (course t))
                 then Qmin 1 (elapsedMs' / totalTimeMs (course t))
                 else progress t;
     elapsedMs := elapsedMs';
     speed := speed t;
     lastTimestamp := Some now;
     animFrameId := animFrameId t;
     particles := particles t;
     ghostParticles := ghostParticles t;
     activeSplit := activeSplit t;
     lastStationIndex := lastStationIndex t;
     host := host t |}.

(** The split popup fades over 1.5 s. *)
Definition fadeSplit (dt : Q) (t : CourseTracker) : CourseTracker :=
  {| course := course t;
     ghost := ghost t;
     isPlaying := isPlaying t;
     progress := progress t;
     elapsedMs := elapsedMs t;
     speed := speed t;
     lastTimestamp := lastTimestamp t;
     animFrameId := animFrameId t;
     particles := particles t;
     ghostParticles := ghostParticles t;
     activeSplit :=
       match activeSplit t with
       | Some a =>
           let opacity' := opacity a - dt / 1500 in
           if Qle_bool opacity' 0 then None
           else Some {| text := text a; opacity := opacity'; a_x := a_x a; a_y := a_y a |}
       | None => None
       end;
     lastStationIndex := lastStationIndex t;
     host := host t |}.

(** The end of [_tick]: completion, or the request for the next frame. *)
Definition completeOrSchedule (t : CourseTracker) : CourseTracker :=
  let (id, scheduled) := requestAnimationFrame RunTick (host t) in
  let completed := Qle_bool 1 (progress t) in
  {| course := course t;
     ghost := ghost t;
     isPlaying := if completed then false else isPlaying t;
     progress := progress t;
     elapsedMs := elapsedMs t;
     speed := speed t;
     lastTimestamp := lastTimestamp t;
     animFrameId := if completed then animFrameId t else Some id;
     particles := particles t;
     ghostParticles := ghostParticles t;
     activeSplit := activeSplit t;
     lastStationIndex := lastStationIndex t;
     host := if completed then emit Complete (host t) else scheduled |}.

(** [_tick()], with [now] the value of its [performance.now()]. *)
Definition _tick (now : Q) (t : CourseTracker) : CourseTracker :=
  if negb (isPlaying t) then t
  else
    let dt := tickDelta now t in
    completeOrSchedule
      (fadeSplit dt (_updateParticles dt (_checkStations (advance now t)))).

(** The two assignments of [play()] before its call of [_tick()]. *)
Definition start (now : Q) (t : CourseTracker) : CourseTracker :=
  {| course := course t;
     ghost := ghost t;
     isPlaying := true;
     progress := progress t;
     elapsedMs := elapsedMs t;
     speed := speed t;
     lastTimestamp := Some now;
     animFrameId := animFrameId t;
     particles := particles t;
     ghostParticles := ghostParticles t;
     activeSplit := activeSplit t;
     lastStationIndex := lastStationIndex t;
     host := host t |}.

(** [play()]; [now] is the value of its own [performance.now()], [now']
    that of the [_tick()] it calls. *)
Definition play (now now' : Q) (t : CourseTracker) : CourseTracker :=
  if isPlaying t then t
  else
    let t1 := if Qle_bool 1 (progress t) then restart t else t in
    _tick now' (start now t1).

(** The browser runs the oldest queued animation-frame request at time
    [now]. *)
Definition frame (now : Q) (t : CourseTracker) : CourseTracker :=
  match rafQueue (host t) with
  | [] => t
  | (_, cb) :: rest =>
      let t' := withHost {| rafQueue := rest;
                            rafNext := rafNext (host t);
                            randomCalls := randomCalls (host t);
                            events := events (host t) |} t in
      match cb with
      | RunDraw => t'
      | RunTick => _tick now t'
      end
  end.

End Engine.

(** ** The gap label *)

(** What [_drawGapTime] paints: the label and its colour. *)
Record GapPill : Type := mkGapPill {
  pillText : string;
  pillColor : string
}.

Definition NEON : string := "#c8ff00".
Definition ACCENT : string := "#ff3c00".

(** [Math.round(v)]: the nearest integer, halves upwards. *)
Definition round (v : Q) : Z := Qfloor (v + (1#2)).

(** The [gapMs] of [_drawGapTime]. *)
Definition gapMs (t : CourseTracker) : Q :=
  let ghostElapsed := progress t * ghostTotalMs (ghost t) in
  elapsedMs t - ghostElapsed.

(** The [gapSec] of [_drawGapTime]. *)
Definition gapSec (t : CourseTracker) : Z := round (gapMs t / 1000).

(** [_drawGapTime(ctx, W, H)]: [None] when it returns without painting. *)
Definition _drawGapTime (t : CourseTracker) : option GapPill :=
  if Qle_bool (ghostTotalMs (ghost t)) 0 || Qle_bool (totalTimeMs (course t)) 0
  then None
  else
    let shown := NilEmpty.string_of_int (Z.to_int (gapSec t)) in
    Some
      (if (0 <? gapSec t)%Z then
         {| pillText := ("+" ++ shown ++ "s behind " ++ ghostLabel (ghost t))%string;
            pillColor := ACCENT |}
       else if (gapSec t <? 0)%Z then
         {| pillText := (shown ++ "s ahead!")%string;
            pillColor := NEON |}
       else
         {| pillText := ("Even with " ++ ghostLabel (ghost t))%string;
            pillColor := "#fff" |}).

(** The gap label as [_draw] shows it: only with a visible ghost and while
    playing. *)
Definition drawnGap (t : CourseTracker) : option GapPill :=
  if showGhost (ghost t) && Qlt_bool 0 (ghostTotalMs (ghost t)) && isPlaying t
  then _drawGapTime t
  else None.

(** ** The constructor *)

Section Construct.

Variable sqrt : Q -> Q.

(** [new CourseTracker(canvas, options)], from the station list
    [buildStationPoints(options.coordinates)] and [options.splits],
    [options.ghostSplits], [options.ghostLabel]. *)
Definition construct (stations : list Station) (ss gs : list Split)
    (label : option string) : CourseTracker :=
  let path := generateSplinePath (map pos stations) 30 in
  let arcs := computeArcLengths sqrt path in
  let (cumulative, total) := buildTimeline ss in
  let (gcumulative, gtotal) := buildTimeline gs in
  {| course := {| stationPoints := stations;
                  splinePath := path;
                  arcLengths := arcs;
                  stationProgresses :=
                    map (fun i => stationToProgress i (length stations) arcs 30)
                        (seq 0 (length stations));
                  splits := ss;
                  totalTimeMs := total;
                  splitCumulative := cumulative |};
     ghost := {| ghostSplits := gs;
                 ghostLabel := labelOr label;
                 ghostTotalMs := gtotal;
                 ghostCumulative := gcumulative;
                 showGhost := negb (length gs =? 0)%nat |};
     isPlaying := false;
     progress := 0;
     elapsedMs := 0;
     speed := 10;
     lastTimestamp := None;
     animFrameId := None;
     particles := [];
     ghostParticles := [];
     activeSplit := None;
     lastStationIndex := -1;
     host := snd (requestAnimationFrame RunDraw
                    {| rafQueue := []; rafNext := 1; randomCalls := 0; events := [] |}) |}.

End Construct.

(** ** Sessions

    What a page does with a tracker: it calls the public operations, and
    the browser runs the queued animation frames. *)

Inductive Op : Type :=
| OpPlay (now now' : Q)
| OpPause
| OpRestart
| OpSeekTo (target : Q)
| OpSetSpeed (multiplier : Q)
| OpSetGhostSplits (ss : option (list Split)) (label : option string)
| OpToggleGhost
| OpDestroy
| OpFrame (now : Q).

Section Session.

Variable random : nat -> Q.

Definition step (t : CourseTracker) (op : Op) : CourseTracker :=
  match op with
  | OpPlay now now' => play random now now' t
  | OpPause => pause t
  | OpRestart => restart t
  | OpSeekTo target => seekTo target t
  | OpSetSpeed multiplier => setSpeed multiplier t
  | OpSetGhostSplits ss label => setGhostSplits ss label t
  | OpToggleGhost => toggleGhost t
  | OpDestroy => destroy t
  | OpFrame now => frame random now t
  end.

Definition run (ops : list Op) (t : CourseTracker) : CourseTracker :=
  fold_left step ops t.

(** Consecutive calls of [_tick()] at the times [nows]. *)
Definition ticks (nows : list Q) (t : CourseTracker) : CourseTracker :=
  fold_left (fun t' now => _tick random now t') nows t.

(** Does [op] run [restart()] on [t]?  [play()] does when the playback is
    complete. *)
Definition restarts (op : Op) (t : CourseTracker) : bool :=
  match op with
  | OpRestart => true
  | OpPlay _ _ => negb (isPlaying t) && Qle_bool 1 (progress t)
  | _ => false
  end.

(** A play cycle: a session in which no [restart()] runs. *)
Fixpoint sameCycle (ops : list Op) (t : CourseTracker) : bool :=
  match ops with
  | [] => true
  | op :: rest => negb (restarts op t) && sameCycle rest (step t op)
  end.

End Session.

(** The loop indices of the station crossings among some callback calls. *)
Fixpoint crossings (es : list Event) : list nat :=
  match es with
  | [] => []
  | StationReached i _ _ :: rest => i :: crossings rest
  | Complete :: rest => crossings rest
  end.

End Tracker.

(** * A rational [Math.sqrt] for the examples

    The square root rounded down to a multiple of [1 / Qden v]; exact on
    the squares the examples use. *)
Definition sqrtQ (v : Q) : Q :=
  Z.sqrt (Qnum v * Zpos (Qden v)) # Qden v.

(* ================================================================== *)
(** * Notions the statements below use *)
(* ================================================================== *)

Module Notions.
Import Spline Tracker.

(** [p] clamped to the interval from 0 to 1, by cases. *)
Definition clampUnit (p : Q) : Q :=
  if Qlt_bool p 0 then 0 else if Qlt_bool 1 p then 1 else p.

(** A particle with life left. *)
Definition alive (p : Particle) : bool := negb (Qle_bool (life p) 0).

(** The particles of [pool] after one decay step, the used-up ones
    dropped, in their order. *)
Definition survivors (dt window : Q) (pool : list Particle) : list Particle :=
  filter alive (map (decay dt window) pool).

(** The [cap] newest entries of a pool (the pool itself when it has no
    more): pushes go to the end, so the oldest entries are in front. *)
Definition newest (cap : nat) (pool : list Particle) : list Particle :=
  skipn (length pool - cap) pool.

(** The crossing test of [_checkStations] for index [i], against the
    state [t] the loop starts in. *)
Definition crossedNow (t : CourseTracker) (i : nat) : bool :=
  Qle_bool (nth i (stationProgresses (course t)) 0) (progress t)
  && (lastStationIndex t <? Z.of_nat i)%Z.

(** The call [onStationReached(station.num, splitTime)] for index [i]. *)
Definition stationEvent (c : Course) (i : nat) : Event :=
  StationReached i (num (nth i (stationPoints c) noStation)) (nth_error (splits c) i).

(** The indices [_checkStations] fires on [t], in loop order. *)
Definition firedNow (t : CourseTracker) : list nat :=
  filter (crossedNow t) (seq 0 (length (stationProgresses (course t)))).

(** Station thresholds that do not decrease in station order. *)
Definition nondecreasing (thresholds : list Q) : Prop :=
  forall i j, (i <= j < length thresholds)%nat ->
              nth i thresholds 0 <= nth j thresholds 0.

(** Every crossing index in [new] lies in the interval from [lo]
    (excluded) to [hi] (included). *)
Definition crossingsWithin (lo hi : Z) (new : list Event) : Prop :=
  Forall (fun i => (lo < Z.of_nat i <= hi)%Z) (crossings new).

(** A session without [seekTo]. *)
Definition neverSeeks (ops : list Op) : bool :=
  forallb (fun op => match op with OpSeekTo _ => false | _ => true end) ops.

(** Both pools within their capacities. *)
Definition poolsBounded (t : CourseTracker) : Prop :=
  (length (particles t) <= 30)%nat /\ (length (ghostParticles t) <= 20)%nat.

(** [new] holds only decayed particles of [old] with life left, and no
    particle of [old] whose life is used up by this step. *)
Definition decayedPool (dt window : Q) (old new : list Particle) : Prop :=
  (forall q, In q new ->
     0 < life q /\ exists p, In p old /\ q = decay dt window p) /\
  (forall p, In p old -> life p - dt / window <= 0 ->
     ~ In (decay dt window p) new).

(** How many [onComplete()] calls there are among some callback calls. *)
Fixpoint completions (es : list Event) : nat :=
  match es with
  | [] => 0
  | Complete :: rest => S (completions rest)
  | StationReached _ _ _ :: rest => completions rest
  end.

(** One or several operations later, inside one play cycle: the callback
    calls made in between are [new]; their crossings come in strictly
    ascending index order, all past the last index crossed before and none
    past the last index crossed after. *)
Definition laterInCycle (t t' : CourseTracker) : Prop :=
  exists new,
    events (host t') = events (host t) ++ new /\
    StronglySorted lt (crossings new) /\
    crossingsWithin (lastStationIndex t) (lastStationIndex t') new /\
    (lastStationIndex t <= lastStationIndex t')%Z.

End Notions.

Module StationNotions.
Import StationModel.

(** Does the mapping [props] hold a usable (truthy) entry for station
    [i]? *)
Definition present (props : list (string * JsValue)) (i : nat) : bool :=
  match propLookup (stationKey i) props with
  | Some w => truthy w
  | None => false
  end.

End StationNotions.

(* ================================================================== *)
(** * Sessions used as examples *)
(* ================================================================== *)

Module Examples.
Import Spline Tracker.

(** A [Math.random()] that always returns 0.5: particles without jitter. *)
Definition half (k : nat) : Q := 1#2.

Definition twoStations : list Station :=
  [mkStation 0 0 "station_1" "SkiErg" 1; mkStation 100 0 "station_2" "Sled Push" 2].

Definition oneSplit (ms : Q) : list Split := [mkSplit 1 ms "SkiErg"].

(** A tracker with a ghost, played for one 16 ms frame at speed 10, whose
    ghost is then hidden with [toggleGhost()]. *)
Definition hiddenGhost : CourseTracker :=
  run half [OpPlay 1000 1000; OpFrame 1000; OpFrame 1016; OpToggleGhost]
      (construct sqrtQ twoStations (oneSplit 100000) (oneSplit 200000) None).

(** A 4000 ms course against a 3000 ms ghost, one second into the
    playback at speed 1. *)
Definition slightlyBehind : CourseTracker :=
  run half [OpSetSpeed 1; OpPlay 500 500; OpFrame 500; OpFrame 1500]
      (construct sqrtQ twoStations (oneSplit 4000) (oneSplit 3000) None).

(** A 3000 ms course against a 4000 ms ghost, two seconds into the
    playback at speed 1. *)
Definition clearlyAhead : CourseTracker :=
  run half [OpSetSpeed 1; OpPlay 500 500; OpFrame 500; OpFrame 2500]
      (construct sqrtQ twoStations (oneSplit 3000) (oneSplit 4000) None).

(** [n] animation frames 10 ms apart, from time 1000 on. *)
Definition tenMsFrames (n : nat) : list Op :=
  map (fun k => OpFrame (1000 + 10 * QofNat k)) (seq 0 n).

(** A tracker with a ghost after sixty such frames at speed 1. *)
Definition sixtyFrames : CourseTracker :=
  run half (OpSetSpeed 1 :: OpPlay 1000 1000 :: tenMsFrames 60)
      (construct sqrtQ twoStations (oneSplit 100000) (oneSplit 200000) None).

(** A course of three stations with thresholds at 0, 1/2 and 1, about to
    be played. *)
Definition threeThresholds : CourseTracker :=
  {| course := {| stationPoints :=
                    [mkStation 0 0 "station_1" "SkiErg" 1;
                     mkStation 100 0 "station_2" "Sled Push" 2;
                     mkStation 100 100 "station_3" "Sled Pull" 3];
                  splinePath := [mkPoint 0 0; mkPoint 100 0; mkPoint 100 100];
                  arcLengths := [Some 0; Some (1#2); Some 1];
                  stationProgresses := [0; 1#2; 1];
                  splits := [mkSplit 1 1000 "SkiErg"; mkSplit 2 2000 "Sled Push"];
                  totalTimeMs := 3000;
                  splitCumulative := [1000; 3000] |};
     ghost := {| ghostSplits := [];
                 ghostLabel := "PRO";
                 ghostTotalMs := 0;
                 ghostCumulative := [];
                 showGhost := false |};
     isPlaying := true;
     progress := 0;
     elapsedMs := 0;
     speed := 10;
     lastTimestamp := Some 1000;
     animFrameId := Some 2%nat;
     particles := [];
     ghostParticles := [];
     activeSplit := None;
     lastStationIndex := -1;
     host := {| rafQueue := [(2%nat, RunTick)];
                rafNext := 3;
                randomCalls := 0;
                events := [] |} |}.

End Examples.

(* ================================================================== *)
(** * Notions about whole sessions *)
(* ================================================================== *)

Module SessionNotions.
Import Spline Tracker Notions.

(** The ids of the queued animation-frame requests that will run [_tick],
    oldest first. *)
Definition tickRequests (h : Host) : list nat :=
  map fst
    (filter (fun r => match snd r with RunTick => true | RunDraw => false end)
            (rafQueue h)).

(** One frame loop at most: while playing, exactly one [_tick] is queued,
    under the id [pause()] would cancel; otherwise none is. *)
Definition oneLoop (t : CourseTracker) : Prop :=
  if isPlaying t
  then exists id, tickRequests (host t) = [id] /\ animFrameId t = Some id /\ id <> 0%nat
  else tickRequests (host t) = [].

(** The loop invariant: moreover, request ids start at 1. *)
Definition loopInv (t : CourseTracker) : Prop :=
  (1 <= rafNext (host t))%nat /\ oneLoop t.

(** The progress is the elapsed share of the total time, capped at 1. *)
Definition clockConsistent (t : CourseTracker) : Prop :=
  progress t <= 1 /\
  (0 < totalTimeMs (course t) ->
   progress t == Qmin 1 (elapsedMs t / totalTimeMs (course t))).

(** A particle with life left and a size between [lo] and [hi]. *)
Definition drawable (lo hi : Q) (p : Particle) : Prop :=
  0 < life p /\ lo <= size p <= hi.

(** A callback call that matches the course: a crossing names a station
    of the course, with that station's number and split. *)
Definition wellFormedEvent (c : Course) (e : Event) : Prop :=
  match e with
  | StationReached i n s =>
      (i < length (stationPoints c))%nat /\
      n = num (nth i (stationPoints c) noStation) /\
      s = nth_error (splits c) i
  | Complete => True
  end.

(** Both pools hold drawable particles only, in the size ranges of their
    spawn formulas. *)
Definition poolsDrawable (t : CourseTracker) : Prop :=
  Forall (drawable 3 5) (particles t) /\ Forall (drawable 2 (7#2)) (ghostParticles t).

(** The last station index is -1 or the index of a station. *)
Definition indexInRange (t : CourseTracker) : Prop :=
  (-1 <= lastStationIndex t < Z.of_nat (length (stationPoints (course t))))%Z.

(** The station invariant of a session: one threshold per station, the
    last station index in range, and only well-formed callback calls. *)
Definition stationsInv (t : CourseTracker) : Prop :=
  length (stationProgresses (course t)) = length (stationPoints (course t)) /\
  indexInRange t /\
  Forall (wellFormedEvent (course t)) (events (host t)).

(** Two states that differ in the pending animation-frame requests at
    most. *)
Definition samePlayback (t t' : CourseTracker) : Prop :=
  course t' = course t /\ ghost t' = ghost t /\ isPlaying t' = isPlaying t /\
  progress t' = progress t /\ elapsedMs t' = elapsedMs t /\ speed t' = speed t /\
  lastTimestamp t' = lastTimestamp t /\ animFrameId t' = animFrameId t /\
  particles t' = particles t /\ ghostParticles t' = ghostParticles t /\
  activeSplit t' = activeSplit t /\ lastStationIndex t' = lastStationIndex t /\
  rafNext (host t') = rafNext (host t) /\
  randomCalls (host t') = randomCalls (host t) /\
  events (host t') = events (host t).

(** What a session shows of the athlete: every field but the ghost's, the
    particle pools and the count of [Math.random()] calls. *)
Definition athleteView (t : CourseTracker) :=
  (course t, isPlaying t, progress t, elapsedMs t, speed t, lastTimestamp t,
   animFrameId t, activeSplit t, lastStationIndex t,
   rafQueue (host t), rafNext (host t), events (host t)).

(** A session without its [setGhostSplits] and [toggleGhost] calls. *)
Definition withoutGhostOps (ops : list Op) : list Op :=
  filter (fun op => match op with
                    | OpSetGhostSplits _ _ | OpToggleGhost => false
                    | _ => true
                    end) ops.

(** The sum of the split times of [ss]. *)
Definition sumTimes (ss : list Split) : Q :=
  fold_right (fun s acc => timeMs s + acc) 0 ss.

(** The ghost's cumulative array and total are those of its splits. *)
Definition ghostInv (t : CourseTracker) : Prop :=
  (ghostCumulative (ghost t), ghostTotalMs (ghost t)) = buildTimeline (ghostSplits (ghost t)).

(** The stations announced so far are the stations up to the last station
    index, each once, in order. *)
Definition announcedInOrder (t : CourseTracker) : Prop :=
  (-1 <= lastStationIndex t)%Z /\
  crossings (events (host t)) = seq 0 (Z.to_nat (lastStationIndex t + 1)).

(** The invariant of a play cycle: thresholds in station order and at
    most 1, the stations announced in order, the last station index below
    the number of stations, and every station announced once [onComplete]
    has been called. *)
Definition cycleInv (t : CourseTracker) : Prop :=
  nondecreasing (stationProgresses (course t)) /\
  (forall i, (i < length (stationProgresses (course t)))%nat ->
             nth i (stationProgresses (course t)) 0 <= 1) /\
  announcedInOrder t /\
  (lastStationIndex t < Z.of_nat (length (stationProgresses (course t))))%Z /\
  ((1 <= completions (events (host t)))%nat ->
   lastStationIndex t = (Z.of_nat (length (stationProgresses (course t))) - 1)%Z).

(** The invariant of a play cycle without [seekTo]: [onComplete] has been
    called once at most, and then the playback is over. *)
Definition completesOnce (t : CourseTracker) : Prop :=
  (completions (events (host t)) <= 1)%nat /\
  (completions (events (host t)) = 1%nat -> 1 <= progress t /\ isPlaying t = false).

(** Only animation frames. *)
Definition framesOnly (nows : list Q) : list Op := map OpFrame nows.

End SessionNotions.

(* ================================================================== *)
(** * What the tracker paints ([_draw] and its helpers)

    The canvas calls are not modelled; each definition gives the values
    the source computes and hands to them. *)
(* ================================================================== *)

Module Canvas.
Import Spline Tracker.

(** [_toPixel(percentX, percentY, W, H)]. *)
Definition _toPixel (percentX percentY W H : Q) : Point :=
  mkPoint ((percentX / 100) * W) ((percentY / 100) * H).

(** A filled circle [ctx.arc(x, y, radius, 0, 2 * Math.PI)] under
    [ctx.globalAlpha = alpha]. *)
Record Arc : Type := mkArc {
  cx : Q;
  cy : Q;
  radius : Q;
  alpha : Q
}.

(** The loop [for (const particle of pool)] of [_drawAthleteDot] and
    [_drawGhostRacer]: one circle per particle, of radius
    [particle.size * particle.life] and opacity [particle.life * fade]. *)
Definition trail (fade W H : Q) (pool : list Particle) : list Arc :=
  map (fun particle =>
         let pp := _toPixel (p_x particle) (p_y particle) W H in
         {| cx := px pp;
            cy := py pp;
            radius := size particle * life particle;
            alpha := life particle * fade |})
      pool.

(** The athlete's trail in [_drawAthleteDot]. *)
Definition athleteTrail (W H : Q) (t : CourseTracker) : list Arc :=
  trail (6#10) W H (particles t).

(** The ghost's trail in [_drawGhostRacer]. *)
Definition ghostTrail (W H : Q) (t : CourseTracker) : list Arc :=
  trail (4#10) W H (ghostParticles t).

(** The loop [for (let i = 1; i < traversedCount && i < path.length; i++)]
    of [_drawCoursePath], entered at [i] with [fuel] rounds to go: the
    samples it draws a line to. *)
Fixpoint lineTos (path : list Point) (traversedCount : Z) (i fuel : nat) : list Point :=
  match fuel with
  | O => []
  | S fuel' =>
      if (Z.of_nat i <? traversedCount)%Z && (i <? length path)%nat
      then at_ path (Z.of_nat i) :: lineTos path traversedCount (S i) fuel'
      else []
  end.

(** The highlighted ("already traversed") stroke of [_drawCoursePath]: the
    samples it moves and draws to, in percent coordinates; [[]] when it
    strokes nothing. *)
Definition highlighted (t : CourseTracker) : list Point :=
  let path := splinePath (course t) in
  if (length path <? 2)%nat then []
  else if Qlt_bool 0 (progress t) then
    let traversedCount :=
      (Qfloor (progress t * inject_Z (Z.of_nat (length path) - 1)) + 1)%Z in
    at_ path 0 :: lineTos path traversedCount 1 (length path)
  else [].

(** One station marker of [_drawStations]. *)
Record StationMarker : Type := mkStationMarker {
  markerAt : Point;
  isReached : bool;
  isActive : bool;
  markerRadius : Q;
  markerNumber : Z
}.

(** [_drawStations(ctx, W, H)]: the markers in station order. *)
Definition _drawStations (W H : Q) (t : CourseTracker) : list StationMarker :=
  map (fun i =>
         let station := nth i (stationPoints (course t)) noStation in
         let reached := (Z.of_nat i <=? lastStationIndex t)%Z in
         let active := (Z.of_nat i =? lastStationIndex t)%Z && isPlaying t in
         {| markerAt := _toPixel (x station) (y station) W H;
            isReached := reached;
            isActive := active;
            markerRadius := if active then 16 else if reached then 13 else 11;
            markerNumber := num station |})
      (seq 0 (length (stationPoints (course t)))).

(** What [_drawProgressBar] paints: the track, the filled width and the
    station dots (their x coordinate and whether they are lit). *)
Record ProgressBar : Type := mkProgressBar {
  barX : Q;
  barY : Q;
  barW : Q;
  barH : Q;
  filledW : Q;
  dots : list (Q * bool)
}.

(** [_drawProgressBar(ctx, W, H)]. *)
Definition _drawProgressBar (W H : Q) (t : CourseTracker) : ProgressBar :=
  let barY := H - 20 in
  let barH := 4 in
  let barX := 16 in
  let barW := W - 32 in
  {| barX := barX;
     barY := barY;
     barW := barW;
     barH := barH;
     filledW := barW * progress t;
     dots := map (fun i =>
                    let sx := barX + barW * nth i (stationProgresses (course t)) 0 in
                    let reached := (Z.of_nat i <=? lastStationIndex t)%Z in
                    (sx, reached))
                 (seq 0 (length (stationProgresses (course t)))) |}.

End Canvas.

(* ================================================================== *)
(** * Shared helpers ([formatTimeMs] and [formatTimeSec]) *)
(* ================================================================== *)

Module Shared.
Import Tracker.

(** [Math.trunc]: rounding towards zero. *)
Definition Qtrunc (v : Q) : Z :=
  if Qle_bool 0 v then Qfloor v else Qceiling v.

(** The remainder [a % b] of two numbers: [a - b * trunc(a / b)], with the
    sign of [a]. *)
Definition jsRem (a b : Q) : Q := a - b * inject_Z (Qtrunc (a / b)).

(** [formatTimeMs(ms)]: the minutes, seconds and hundredths it prints. *)
Definition msParts (ms : Q) : Z * Z * Z :=
  let mins := Qfloor (ms / 60000) in
  let secs := Qfloor (jsRem ms 60000 / 1000) in
  let cs := Qfloor (jsRem ms 1000 / 10) in
  (mins, secs, cs).

Definition formatTimeMs (ms : Q) : string :=
  let '(mins, secs, cs) := msParts ms in
  (pad2 mins ++ ":" ++ pad2 secs ++ "." ++ pad2 cs)%string.

(** [formatTimeSec(totalSeconds)] for a whole number of seconds: the
    hours, minutes and seconds it prints. *)
Definition secParts (totalSeconds : Z) : Z * Z * Z :=
  let hrs := (totalSeconds / 3600)%Z in
  let mins := (Z.rem totalSeconds 3600 / 60)%Z in
  let secs := Z.rem totalSeconds 60 in
  (hrs, mins, secs).

Definition formatTimeSec (totalSeconds : Z) : string :=
  let '(hrs, mins, secs) := secParts totalSeconds in
  if (0 <? hrs)%Z
  then (NilEmpty.string_of_int (Z.to_int hrs) ++ ":" ++ pad2 mins ++ ":" ++ pad2 secs)%string
  else (NilEmpty.string_of_int (Z.to_int mins) ++ ":" ++ pad2 secs)%string.

End Shared.

(* ================================================================== *)
(** * The satellite map ([VenueRealMap] of [venue-real-map.js])

    The Mapbox calls are not modelled; the definitions give the
    coordinates, the route and the dash patterns handed to them. *)
(* ================================================================== *)

Module VenueMap.
Import Spline StationModel.

Section Geo.

(** [Math.cos] and [Math.PI], builtins of the host. *)
Variable cos : Q -> Q.
Variable PI : Q.


End Geo.

(** The [ROUTE_ORDER] of the route line. *)
Definition ROUTE_ORDER : list string :=
  ["start_finish";
   "station_1"; "roxzone";
   "station_2"; "roxzone";
   "station_3"; "roxzone";
   "station_4"; "roxzone";
   "station_5"; "roxzone";
   "station_6"; "roxzone";
   "station_7"; "roxzone";
   "station_8";
   "start_finish"]%string.

(** The [order] array of the fallback's comparator. *)
Definition fallbackOrder : list string :=
  ["start_finish"; "station_1"; "station_2"; "station_3"; "station_4";
   "station_5"; "station_6"; "station_7"; "station_8"; "roxzone"]%string.

(** [order.indexOf(k)]: -1 for a key that is not listed. *)
Fixpoint indexOf (k : string) (order : list string) (i : Z) : Z :=
  match order with
  | [] => -1
  | k' :: rest => if (k =? k')%string then i else indexOf k rest (i + 1)
  end.

(** [coords[key]] on an object: [undefined] for a key it does not hold. *)
Definition entryOf (props : list (string * JsValue)) (k : string) : JsValue :=
  match propLookup k props with
  | Some w => w
  | None => JUndefined
  end.

(** [Object.keys(coords)] for keys that are no array indices: each key
    once, in the order of its first insertion. *)
Fixpoint ownKeys (props : list (string * JsValue)) (seen : list string) : list string :=
  match props with
  | [] => []
  | (k, _) :: rest =>
      if existsb (fun k' => (k =? k')%string) seen then ownKeys rest seen
      else k :: ownKeys rest (k :: seen)
  end.

(** A stable sort by the comparator [(a, b) => rank(a) - rank(b)]:
    insertion after the last element that does not rank higher. *)
Fixpoint insertByRank (rank : string -> Z) (k : string) (sorted : list string) : list string :=
  match sorted with
  | [] => [k]
  | k' :: rest =>
      if (rank k <? rank k')%Z then k :: sorted else k' :: insertByRank rank k rest
  end.

Definition sortByRank (rank : string -> Z) (keys : list string) : list string :=
  fold_left (fun sorted k => insertByRank rank k sorted) keys [].

(** The loop [for (const key of keys) { if (coords[key]) push(...) }]: the
    entries pushed, in order. *)
Definition pushPresent (props : list (string * JsValue)) (keys : list string) : list JsValue :=
  filter truthy (map (entryOf props) keys).

(** The [routeCoords] of [_addRouteLine] on the object [coords], before
    each entry [e] is turned into
    [percentToLngLat(e.x, e.y, this.lat, this.lng)]; [None] when the method
    returns without drawing a route. *)
Definition routeStops (props : list (string * JsValue)) : option (list JsValue) :=
  let routeCoords := pushPresent props ROUTE_ORDER in
  let routeCoords' :=
    if (length routeCoords <? 2)%nat then
      let orderedKeys := sortByRank (fun k => indexOf k fallbackOrder 0) (ownKeys props []) in
      routeCoords ++ pushPresent props orderedKeys
    else routeCoords in
  if (length routeCoords' <? 2)%nat then None else Some routeCoords'.

(** [Object.entries(coords)] read by [_addMarkers]: for the key [k], the
    arguments [val.x], [val.y] and [val.name] of its marker; reading them
    throws on a [null] entry. *)
Definition markerOf (props : list (string * JsValue)) (k : string)
  : Result (string * JsValue * JsValue * JsValue) :=
  let val := entryOf props k in
  x <- getProp val "x" ;;
  y <- getProp val "y" ;;
  name <- getProp val "name" ;;
  Ok (k, x, y, name).

Fixpoint forEachKey (props : list (string * JsValue)) (keys : list string)
  : Result (list (string * JsValue * JsValue * JsValue)) :=
  match keys with
  | [] => Ok []
  | k :: rest =>
      m <- markerOf props k ;;
      ms <- forEachKey props rest ;;
      Ok (m :: ms)
  end.

(** [_addMarkers()] on the object [coords]: the markers it places. *)
Definition _addMarkers (props : list (string * JsValue))
  : Result (list (string * JsValue * JsValue * JsValue)) :=
  forEachKey props (ownKeys props []).

(** One frame of [_startDashAnimation]: the new [step] and the
    [line-dasharray] it sets. *)
Definition dashFrame (step : Q) : Q * list Q :=
  let dashLength := 2 in
  let gapLength := 4 in
  let totalLength := dashLength + gapLength in
  let step' := Shared.jsRem (step + (15#100)) totalLength in
  let dashPhase := step' in
  let d1 := Qmax 0 (dashLength - dashPhase) in
  let g1 := gapLength in
  let d2 := Qmin dashPhase dashLength in
  (step',
   if Qlt_bool 0 d1 && Qlt_bool 0 d2 then [d1; g1; d2; 0]
   else if Qlt_bool 0 d1 then [d1; g1]
   else [0; gapLength - (dashPhase - dashLength); dashLength; 0]).

(** The dash arrays of the first [n] frames, from [step]. *)
Fixpoint dashFrames (n : nat) (step : Q) : list (list Q) :=
  match n with
  | O => []
  | S n' => let (step', dashes) := dashFrame step in dashes :: dashFrames n' step'
  end.

(** A dash array Mapbox can draw and that shows dashes of total length 2:
    one of the three shapes [animate] builds. *)
Definition validDashes (dashes : list Q) : Prop :=
  (exists d1 d2, dashes = [d1; 4; d2; 0] /\ 0 < d1 /\ 0 < d2 /\ d1 + d2 == 2) \/
  (exists d1, dashes = [d1; 4] /\ d1 == 2) \/
  (exists g, dashes = [0; g; 2; 0] /\ 0 < g <= 4).

End VenueMap.

(* ================================================================== *)
(** * The 3D scene ([Venue3DScene] of [venue-3d.js])

    The Three.js objects are not modelled: the scene is its station list,
    its flags, its flythrough clock and its animation-frame requests. *)
(* ================================================================== *)

Module Scene3D.
Import Spline StationModel.

(** The easing of the flythrough: ease-in-out cubic. *)
Definition easeInOutCubic (t : Q) : Q :=
  if Qlt_bool t (1#2) then 4 * t * t * t
  else 1 - ((-2 * t + 2) * (-2 * t + 2) * (-2 * t + 2)) / 2.

Record Scene : Type := mkScene {
  stationPoints : list StationPoint;
  courseCurve : bool;
  _destroyed : bool;
  _paused : bool;
  _rafId : option nat;
  _flythrough : bool;
  _flythroughElapsed : Q;
  cameraAt : option Q;
  rendered : nat;
  pending : list nat;
  nextId : nat
}.

Section Scene.

Variable JSON_parse : string -> Result JsValue.
Variables cos sin : Q -> Q.
Variable PI : Q.

(** The station pushed by round [i] of the constructor's fallback loop. *)
Definition fallbackStation (i : nat) : StationPoint :=
  let angle := (QofNat i / 8) * PI * 2 in
  {| sp_x := JNum (50 + 35 * cos angle);
     sp_y := JNum (50 + 25 * sin angle);
     sp_key := stationKey (i + 1);
     sp_name := JStr ("Station " ++ String (ascii_of_nat (48 + (i + 1))) "");
     sp_num := Z.of_nat (i + 1) |}.

(** The [stationPoints] of a new scene. *)
Definition sceneStations (coordinates : JsValue) : Result (list StationPoint) :=
  points <- buildStationPoints JSON_parse coordinates true ;;
  Ok (if (length points =? 0)%nat
      then points ++ map fallbackStation (seq 0 8)
      else points).

(** [new Venue3DScene(canvas, {coordinates})]. *)
Definition construct (coordinates : JsValue) : Result Scene :=
  points <- sceneStations coordinates ;;
  Ok {| stationPoints := points;
        courseCurve := (2 <=? length points)%nat;
        _destroyed := false;
        _paused := false;
        _rafId := Some 1%nat;
        _flythrough := true;
        _flythroughElapsed := 0;
        cameraAt := None;
        rendered := 0;
        pending := [1%nat];
        nextId := 2 |}.

End Scene.

(** Is [this._rafId] truthy? *)
Definition hasRaf (s : Scene) : bool :=
  match _rafId s with
  | Some id => negb (id =? 0)%nat
  | None => false
  end.

(** [play()]. *)
Definition play (s : Scene) : Scene :=
  let starts := negb (hasRaf s) && negb (_destroyed s) in
  {| stationPoints := stationPoints s;
     courseCurve := courseCurve s;
     _destroyed := _destroyed s;
     _paused := false;
     _rafId := if starts then Some (nextId s) else _rafId s;
     _flythrough := _flythrough s;
     _flythroughElapsed := _flythroughElapsed s;
     cameraAt := cameraAt s;
     rendered := rendered s;
     pending := if starts then pending s ++ [nextId s] else pending s;
     nextId := if starts then S (nextId s) else nextId s |}.

(** [pause()]. *)
Definition pause (s : Scene) : Scene :=
  {| stationPoints := stationPoints s;
     courseCurve := courseCurve s;
     _destroyed := _destroyed s;
     _paused := true;
     _rafId := _rafId s;
     _flythrough := _flythrough s;
     _flythroughElapsed := _flythroughElapsed s;
     cameraAt := cameraAt s;
     rendered := rendered s;
     pending := pending s;
     nextId := nextId s |}.

(** [destroy()]. *)
Definition destroy (s : Scene) : Scene :=
  {| stationPoints := stationPoints s;
     courseCurve := courseCurve s;
     _destroyed := true;
     _paused := _paused s;
     _rafId := if hasRaf s then None else _rafId s;
     _flythrough := _flythrough s;
     _flythroughElapsed := _flythroughElapsed s;
     cameraAt := cameraAt s;
     rendered := rendered s;
     pending := match _rafId s with
                | Some id => if hasRaf s
                             then filter (fun k => negb (k =? id)%nat) (pending s)
                             else pending s
                | None => pending s
                end;
     nextId := nextId s |}.

(** [_animate()], with [dt] the value of its [this._clock.getDelta()]. *)
Definition _animate (dt : Q) (s : Scene) : Scene :=
  if _destroyed s then s
  else
    let id := nextId s in
    let flying := _flythrough s && courseCurve s in
    let elapsed' := _flythroughElapsed s + dt in
    let t := Qmin (elapsed' / 5) 1 in
    if _paused s then
      {| stationPoints := stationPoints s;
         courseCurve := courseCurve s;
         _destroyed := _destroyed s;
         _paused := _paused s;
         _rafId := Some id;
         _flythrough := _flythrough s;
         _flythroughElapsed := _flythroughElapsed s;
         cameraAt := cameraAt s;
         rendered := rendered s;
         pending := pending s ++ [id];
         nextId := S id |}
    else
      {| stationPoints := stationPoints s;
         courseCurve := courseCurve s;
         _destroyed := _destroyed s;
         _paused := _paused s;
         _rafId := Some id;
         _flythrough := if flying then negb (Qle_bool 1 t) else _flythrough s;
         _flythroughElapsed := if flying then elapsed' else _flythroughElapsed s;
         cameraAt := if flying then Some (easeInOutCubic t) else cameraAt s;
         rendered := S (rendered s);
         pending := pending s ++ [id];
         nextId := S id |}.

(** The browser runs the oldest pending request. *)
Definition frame (dt : Q) (s : Scene) : Scene :=
  match pending s with
  | [] => s
  | _ :: rest =>
      _animate dt
        {| stationPoints := stationPoints s;
           courseCurve := courseCurve s;
           _destroyed := _destroyed s;
           _paused := _paused s;
           _rafId := _rafId s;
           _flythrough := _flythrough s;
           _flythroughElapsed := _flythroughElapsed s;
           cameraAt := cameraAt s;
           rendered := rendered s;
           pending := rest;
           nextId := nextId s |}
  end.

Inductive SceneOp : Type :=
| ScPlay
| ScPause
| ScDestroy
| ScFrame (dt : Q).

Definition sceneStep (s : Scene) (op : SceneOp) : Scene :=
  match op with
  | ScPlay => play s
  | ScPause => pause s
  | ScDestroy => destroy s
  | ScFrame dt => frame dt s
  end.

Definition sceneRun (ops : list SceneOp) (s : Scene) : Scene :=
  fold_left sceneStep ops s.

(** The loop invariant of a scene: one pending request until it is
    destroyed, none after. *)
Definition sceneLoop (s : Scene) : Prop :=
  (1 <= nextId s)%nat /\
  if _destroyed s
  then pending s = [] /\ _rafId s = None
  else exists id, pending s = [id] /\ _rafId s = Some id /\ id <> 0%nat.



(** A fallback station inside the oval of the constructor. *)
Definition inOval (s : StationPoint) : Prop :=
  exists x y, sp_x s = JNum x /\ sp_y s = JNum y /\ 15 <= x <= 85 /\ 25 <= y <= 75.

End Scene3D.

(* ================================================================== *)
(** * More examples *)
(* ================================================================== *)

Module MoreExamples.
Import Spline StationModel Tracker Examples.

(** A waypoint entry [{x, y, name}]. *)
Definition entry (x y : Q) (name : string) : JsValue :=
  JObj [("x"%string, JNum x); ("y"%string, JNum y); ("name"%string, JStr name)].

(** A venue with its start, its transition zone and two stations. *)
Definition smallVenue : list (string * JsValue) :=
  [("station_1"%string, entry 20 30 "SkiErg");
   ("station_2"%string, entry 70 30 "Sled Push");
   ("roxzone"%string, entry 50 50 "Roxzone");
   ("start_finish"%string, entry 50 90 "Start")].

(** A venue with one station and an entry that is [null]. *)
Definition venueWithNull : list (string * JsValue) :=
  [("station_1"%string, entry 20 30 "SkiErg"); ("station_2"%string, JNull)].

(** A cosine and a sine for the examples: those of the angle 0. *)
Definition cosOfZero (angle : Q) : Q := 1.
Definition sinOfZero (angle : Q) : Q := 0.

(** The scene of a venue without waypoints, as its constructor leaves
    it. *)
Definition ovalScene : Scene3D.Scene :=
  {| Scene3D.stationPoints :=
       map (Scene3D.fallbackStation cosOfZero sinOfZero 3) (seq 0 8);
     Scene3D.courseCurve := true;
     Scene3D._destroyed := false;
     Scene3D._paused := false;
     Scene3D._rafId := Some 1%nat;
     Scene3D._flythrough := true;
     Scene3D._flythroughElapsed := 0;
     Scene3D.cameraAt := None;
     Scene3D.rendered := 0;
     Scene3D.pending := [1%nat];
     Scene3D.nextId := 2 |}.

(** A new tracker of two stations and a 100 s course, and the same tracker
    after [play()] and one frame. *)
Definition freshTracker : CourseTracker :=
  construct sqrtQ twoStations (oneSplit 100000) [] None.

Definition startedSession : list Op := [OpPlay 1000 1000; OpFrame 1016].

(** [play()], the draw frame the constructor requested, and a frame 200 ms
    after the start. *)
Definition playedToTheEnd : list Op := [OpPlay 1000 1000; OpFrame 1100; OpFrame 1200].

End MoreExamples.

(* ================================================================== *)
(** * Lists and rationals *)
(* ================================================================== *)

Section Basics.
Import Spline.

Lemma nth_length_cons {A : Type} (l : list A) (a d e : A) :
  nth (length l) (a :: l) d = last (a :: l) e.
Proof.
  revert a. induction l as [| b l IH]; intros a.
  - reflexivity.
  - change (nth (length l) (b :: l) d = last (b :: l) e). apply IH.
Qed.

Lemma nth_last_index {A : Type} (l : list A) (d e : A) :
  l <> [] -> nth (length l - 1) l d = last l e.
Proof.
  destruct l as [| a l]; [congruence |]. intros _.
  replace (length (a :: l) - 1)%nat with (length l) by (cbn [length]; lia).
  apply nth_length_cons.
Qed.

Lemma flat_map_length_const {A B : Type} (f : A -> list B) (k : nat) (l : list A) :
  (forall a, length (f a) = k) -> length (flat_map f l) = (length l * k)%nat.
Proof.
  intros Hf. induction l as [| a l IH]; [reflexivity |].
  cbn [flat_map length]. rewrite length_app, Hf, IH. lia.
Qed.

Lemma map_seq_last {B : Type} (f : nat -> B) (n : nat) (d : B) :
  last (map f (seq 0 (S n))) d = f n.
Proof.
  rewrite seq_S, map_app. cbn [map]. apply last_last.
Qed.

Lemma Qfloor_zero_mul (q : Q) : Qfloor (0 * q) = 0%Z.
Proof. destruct q as [n d]. reflexivity. Qed.

Lemma Qfloor_one_mul (k : Z) : Qfloor (1 * inject_Z k) = k.
Proof.
  unfold Qfloor, Qmult, inject_Z. cbn [Qnum Qden].
  rewrite Z.mul_1_l. apply Z.div_1_r.
Qed.

Lemma last_cons_default {A : Type} (a d : A) (l : list A) :
  last (a :: l) d = last l a.
Proof.
  destruct l as [| b l]; [reflexivity |].
  change (last (b :: l) d = last (b :: l) a).
  revert b. induction l as [| c l IH]; intros b; [reflexivity |].
  change (last (c :: l) d = last (c :: l) a). apply IH.
Qed.

Lemma nth_map_seq {B : Type} (f : nat -> B) (n i : nat) (d : B) :
  (i < n)%nat -> nth i (map f (seq 0 n)) d = f i.
Proof.
  intros Hi. rewrite (nth_indep _ d (f 0%nat)) by (rewrite length_map, length_seq; lia).
  rewrite map_nth, seq_nth by lia. reflexivity.
Qed.

Lemma sorted_nth_le (l : list Q) (i j : nat) (d : Q) :
  StronglySorted Qle l -> (i <= j < length l)%nat -> nth i l d <= nth j l d.
Proof.
  intros Hs. revert i j. induction Hs as [| a l Hs IH Hall]; intros i j Hij.
  - cbn [length] in Hij. lia.
  - destruct i as [| i], j as [| j]; cbn [nth length] in *.
    + lra.
    + rewrite Forall_forall in Hall. apply Hall, nth_In. lia.
    + lia.
    + apply IH. lia.
Qed.

Lemma square_pos (v : Q) : ~ v == 0 -> 0 < v * v.
Proof.
  intros Hv. destruct (Q_dec v 0) as [[H | H] | H]; [nra | nra | contradiction].
Qed.

Lemma square_nonneg (v : Q) : 0 <= v * v.
Proof. nra. Qed.

Lemma Qdiv_le_compat (a b t : Q) : 0 < t -> a <= b -> a / t <= b / t.
Proof.
  intros Ht Hab. unfold Qdiv. apply Qmult_le_compat_r; [exact Hab |].
  apply Qlt_le_weak, Qinv_lt_0_compat, Ht.
Qed.

Lemma fold_left_proj {A B C : Type} (f : A -> B -> A) (g : A -> C) :
  (forall a b, g (f a b) = g a) -> forall l a, g (fold_left f l a) = g a.
Proof.
  intros Hf l. induction l as [| b l IH]; intros a; [reflexivity |].
  cbn [fold_left]. rewrite IH. apply Hf.
Qed.

Lemma Qlt_bool_iff (a b : Q) : Qlt_bool a b = true <-> a < b.
Proof.
  unfold Qlt_bool. rewrite negb_true_iff. split.
  - intros H. apply Qnot_le_lt. intros Hle. apply Qle_bool_iff in Hle. congruence.
  - intros H. destruct (Qle_bool b a) eqn:E; [| reflexivity].
    apply Qle_bool_iff in E. lra.
Qed.

Lemma Qlt_bool_false (a b : Q) : b <= a -> Qlt_bool a b = false.
Proof.
  intros H. destruct (Qlt_bool a b) eqn:E; [| reflexivity].
  apply Qlt_bool_iff in E. lra.
Qed.

Lemma Qle_bool_false (a b : Q) : b < a -> Qle_bool a b = false.
Proof.
  intros H. destruct (Qle_bool a b) eqn:E; [| reflexivity].
  apply Qle_bool_iff in E. lra.
Qed.

Lemma seq_sorted (n a : nat) : StronglySorted lt (seq a n).
Proof.
  revert a. induction n as [| n IH]; intros a; cbn [seq]; constructor.
  - apply IH.
  - apply Forall_forall. intros j Hj. apply in_seq in Hj. lia.
Qed.

Lemma filter_sorted (f : nat -> bool) (l : list nat) :
  StronglySorted lt l -> StronglySorted lt (filter f l).
Proof.
  induction 1 as [| a l Hs IH Hall]; cbn [filter]; [constructor |].
  destruct (f a); [| exact IH].
  constructor; [exact IH |].
  apply Forall_forall. intros j Hj. apply filter_In in Hj.
  rewrite Forall_forall in Hall. apply Hall. tauto.
Qed.

Lemma sorted_last_max (l : list nat) (d : nat) :
  StronglySorted lt l -> Forall (fun i => (i <= last l d)%nat) l.
Proof.
  induction 1 as [| a l Hs IH Hall]; [constructor |].
  destruct l as [| b l'].
  - constructor; [cbn; lia | constructor].
  - change (last (a :: b :: l') d) with (last (b :: l') d).
    constructor; [| exact IH].
    inversion IH; subst. inversion Hall; subst. lia.
Qed.

Lemma last_map_of_nat (l : list nat) (dz : Z) (dn : nat) :
  l <> [] -> last (map Z.of_nat l) dz = Z.of_nat (last l dn).
Proof.
  induction l as [| a l IH]; [congruence |]. intros _.
  destruct l as [| b l]; [reflexivity |].
  change (last (map Z.of_nat (b :: l)) dz = Z.of_nat (last (b :: l) dn)).
  apply IH. discriminate.
Qed.

Lemma last_In (l : list nat) (d : nat) : l <> [] -> In (last l d) l.
Proof.
  induction l as [| a l IH]; [congruence |]. intros _.
  destruct l as [| b l]; [left; reflexivity |].
  right. change (In (last (b :: l) d) (b :: l)). apply IH. discriminate.
Qed.

Lemma sorted_app (l1 l2 : list nat) :
  StronglySorted lt l1 -> StronglySorted lt l2 ->
  (forall a b, In a l1 -> In b l2 -> (a < b)%nat) ->
  StronglySorted lt (l1 ++ l2).
Proof.
  induction 1 as [| a l1 Hs IH Hall]; intros H2 Hlt; [exact H2 |].
  cbn [app]. constructor.
  - apply IH; [exact H2 |]. intros x y Hx Hy. apply Hlt; [right; exact Hx | exact Hy].
  - apply Forall_app. split; [exact Hall |].
    apply Forall_forall. intros y Hy. apply Hlt; [left; reflexivity | exact Hy].
Qed.

Lemma sorted_NoDup (l : list nat) : StronglySorted lt l -> NoDup l.
Proof.
  induction 1 as [| a l Hs IH Hall]; constructor; [| exact IH].
  intros Hin. rewrite Forall_forall in Hall. specialize (Hall a Hin). lia.
Qed.

End Basics.

(* ================================================================== *)
(** * Facts about the spline geometry *)
(* ================================================================== *)

Section SplineFacts.
Import Spline.

Lemma pt_eq_refl (a : Point) : pt_eq a a.
Proof. split; reflexivity. Qed.

Lemma pt_eq_sym (a b : Point) : pt_eq a b -> pt_eq b a.
Proof. intros [H1 H2]; split; symmetry; assumption. Qed.

Lemma pt_eq_trans (a b c : Point) : pt_eq a b -> pt_eq b c -> pt_eq a c.
Proof. intros [H1 H2] [H3 H4]; split; etransitivity; eassumption. Qed.

Lemma pt_eq_dec (a b : Point) : {pt_eq a b} + {~ pt_eq a b}.
Proof.
  destruct (Qeq_dec (px a) (px b)) as [Hx | Hx].
  - destruct (Qeq_dec (py a) (py b)) as [Hy | Hy].
    + left; split; assumption.
    + right; intros [_ H]; contradiction.
  - right; intros [H _]; contradiction.
Qed.

Lemma QofNat_pos (n : nat) : (1 <= n)%nat -> 0 < QofNat n.
Proof.
  intros H. unfold QofNat, Qlt. simpl. lia.
Qed.

Lemma at_zero (l : list Point) (d : Point) : l <> [] -> at_ l 0 = hd d l.
Proof. destruct l; [congruence | reflexivity]. Qed.

Lemma at_last (l : list Point) (d : Point) :
  l <> [] -> at_ l (Z.of_nat (length l) - 1) = last l d.
Proof.
  intros H. unfold at_.
  replace (Z.to_nat (Z.of_nat (length l) - 1)) with (length l - 1)%nat by lia.
  apply nth_last_index; assumption.
Qed.

(** At progress 0 the position is the first sample of the path. *)
Lemma getPositionAtProgress_start (path : list Point) (d : Point) :
  path <> [] -> pt_eq (getPositionAtProgress path 0) (hd d path).
Proof.
  intros Hne. unfold getPositionAtProgress.
  destruct path as [| q rest]; [congruence |].
  cbv zeta.
  change (Qmax 0 (Qmin 1 0)) with 0.
  rewrite Qfloor_zero_mul.
  rewrite (at_zero _ d) by discriminate.
  set (k := inject_Z (Z.of_nat (length (q :: rest)) - 1)).
  set (up := at_ (q :: rest) _).
  cbn [hd]. split; cbn [px py]; change (inject_Z 0) with 0; ring.
Qed.

(** At progress 1 the position is the last sample of the path. *)
Lemma getPositionAtProgress_end (path : list Point) (d : Point) :
  path <> [] -> pt_eq (getPositionAtProgress path 1) (last path d).
Proof.
  intros Hne. unfold getPositionAtProgress.
  destruct path as [| q rest]; [congruence |].
  cbv zeta.
  change (Qmax 0 (Qmin 1 1)) with 1.
  rewrite Qfloor_one_mul.
  rewrite (at_last _ d) by discriminate.
  set (k := (Z.of_nat (length (q :: rest)) - 1)%Z).
  set (up := at_ (q :: rest) _).
  set (lo := last (q :: rest) d).
  split; cbn [px py]; ring.
Qed.

(** The index [getPositionAtProgress] reads is inside the path. *)
Lemma getPositionAtProgress_in_range (path : list Point) (progress : Q) :
  path <> [] ->
  let len := Z.of_nat (length path) in
  let lower := Qfloor (Qmax 0 (Qmin 1 progress) * inject_Z (len - 1)) in
  (0 <= lower <= len - 1)%Z /\ (0 <= Z.min (lower + 1) (len - 1) <= len - 1)%Z.
Proof.
  intros Hne len lower.
  assert (Hlen : (1 <= len)%Z).
  { subst len. destruct path; [congruence | cbn [length]; lia]. }
  set (c := Qmax 0 (Qmin 1 progress)) in *.
  assert (Hc : 0 <= c <= 1).
  { subst c. split.
    - apply Q.le_max_l.
    - apply Q.max_lub; [lra | apply Q.le_min_l]. }
  assert (Hk : 0 <= inject_Z (len - 1)).
  { change 0 with (inject_Z 0). rewrite <- Zle_Qle. lia. }
  assert (H0 : (0 <= lower)%Z).
  { subst lower. change 0%Z with (Qfloor 0). apply Qfloor_resp_le.
    apply Qmult_le_0_compat; tauto. }
  assert (H1 : (lower <= len - 1)%Z).
  { subst lower. apply Z.le_trans with (Qfloor (inject_Z (len - 1))).
    - apply Qfloor_resp_le. destruct Hc as [Hc0 Hc1].
      generalize dependent (inject_Z (len - 1)). intros k Hk. nra.
    - rewrite Qfloor_Z. lia. }
  lia.
Qed.

Lemma catmullRomPoint_zero (t : Q) (p0 p1 p2 p3 : Point) :
  t == 0 -> pt_eq (catmullRomPoint t p0 p1 p2 p3) p1.
Proof.
  intros Ht. unfold catmullRomPoint, pt_eq. cbn [px py].
  split; rewrite Ht; ring.
Qed.

Lemma linearSample_first (a b : Point) (segments : nat) :
  pt_eq (linearSample a b segments 0) a.
Proof.
  unfold linearSample, pt_eq. cbn [px py].
  assert (H : QofNat 0 / QofNat segments == 0).
  { unfold Qdiv. change (QofNat 0) with 0. ring. }
  split; rewrite H; ring.
Qed.

Lemma linearSample_last (a b : Point) (segments : nat) :
  (1 <= segments)%nat -> pt_eq (linearSample a b segments segments) b.
Proof.
  intros Hs. unfold linearSample, pt_eq. cbn [px py].
  assert (H : QofNat segments / QofNat segments == 1).
  { field. pose proof (QofNat_pos segments Hs). lra. }
  split; rewrite H; ring.
Qed.

Lemma splineSegment_length (points : list Point) (segments i : nat) :
  length (splineSegment points segments i) = segments.
Proof. unfold splineSegment. rewrite length_map, length_seq. reflexivity. Qed.

(** The four control points of segment [i] are read inside [points]. *)
Lemma splineSegment_indices_in_range (points : list Point) (i : nat) :
  (i < length points - 1)%nat ->
  let n := Z.of_nat (length points) in
  (0 <= Z.max 0 (Z.of_nat i - 1) < n)%Z /\
  (0 <= Z.of_nat i < n)%Z /\
  (0 <= Z.of_nat i + 1 < n)%Z /\
  (0 <= Z.min (n - 1) (Z.of_nat i + 2) < n)%Z.
Proof. intros Hi n. subst n. lia. Qed.

Lemma splineSegment_first (points : list Point) (segments i : nat) (d : Point) :
  (1 <= segments)%nat ->
  exists tl first,
    splineSegment points segments i = first :: tl /\
    pt_eq first (at_ points (Z.of_nat i)).
Proof.
  intros Hs. unfold splineSegment.
  destruct segments as [| s]; [lia |].
  cbn [seq map]. eexists _, _. split; [reflexivity |].
  apply catmullRomPoint_zero.
  unfold Qdiv. change (QofNat 0) with 0. ring.
Qed.

(** The number of samples of a path through two or more points. *)
Lemma generateSplinePath_length (points : list Point) (segments : nat) :
  (2 <= length points)%nat ->
  length (generateSplinePath points segments)
  = ((length points - 1) * segments + 1)%nat.
Proof.
  intros Hn. destruct points as [| a [| b [| c rest]]]; cbn [length] in Hn; try lia.
  - unfold generateSplinePath. rewrite length_map, length_seq.
    cbn [length]. lia.
  - unfold generateSplinePath.
    rewrite length_app.
    rewrite (flat_map_length_const _ segments)
      by (intros i; apply splineSegment_length).
    rewrite length_seq. cbn [length]. lia.
Qed.

(** The path starts at the first point and ends at the last one. *)
Lemma generateSplinePath_endpoints (p : Point) (rest : list Point) (segments : nat) :
  (1 <= segments)%nat ->
  exists first tl,
    generateSplinePath (p :: rest) segments = first :: tl /\
    pt_eq first p /\
    pt_eq (last (first :: tl) p) (last (p :: rest) p).
Proof.
  intros Hs. destruct rest as [| b [| c rest]].
  - exists (mkPoint (px p) (py p)), []. repeat split; reflexivity.
  - unfold generateSplinePath.
    exists (linearSample p b segments 0),
           (map (linearSample p b segments) (seq 1 segments)).
    split; [reflexivity |]. split; [apply linearSample_first |].
    change (linearSample p b segments 0 :: map (linearSample p b segments) (seq 1 segments))
      with (map (linearSample p b segments) (seq 0 (S segments))).
    rewrite map_seq_last. cbn [last]. apply linearSample_last; assumption.
  - set (points := p :: b :: c :: rest).
    destruct (splineSegment_first points segments 0 p Hs) as (tl0 & first & Hseg & Hfirst).
    assert (Hpath : generateSplinePath points segments
                    = flat_map (splineSegment points segments) (seq 0 (length points - 1))
                      ++ [mkPoint (px (at_ points (Z.of_nat (length points) - 1)))
                                  (py (at_ points (Z.of_nat (length points) - 1)))])
      by reflexivity.
    replace (length points - 1)%nat with (S (S (length rest))) in Hpath
      by (subst points; cbn [length]; lia).
    cbn [seq flat_map] in Hpath. rewrite Hseg in Hpath.
    rewrite <- app_comm_cons in Hpath.
    eexists first, _. split; [exact Hpath |]. split; [exact Hfirst |].
    rewrite app_comm_cons, last_last.
    rewrite (at_last points p) by (subst points; discriminate).
    split; reflexivity.
Qed.

(** Every point the path is built from lies on it. *)
Lemma generateSplinePath_through (points : list Point) (segments : nat) (p : Point) :
  (1 <= segments)%nat -> In p points ->
  exists q, In q (generateSplinePath points segments) /\ pt_eq q p.
Proof.
  intros Hs Hin. destruct points as [| a [| b [| c rest]]].
  - contradiction.
  - destruct Hin as [<- | []]. exists (mkPoint (px a) (py a)).
    split; [left; reflexivity | split; reflexivity].
  - unfold generateSplinePath. destruct Hin as [<- | [<- | []]].
    + exists (linearSample a b segments 0). split.
      * apply in_map, in_seq. lia.
      * apply linearSample_first.
    + exists (linearSample a b segments segments). split.
      * apply in_map, in_seq. lia.
      * apply linearSample_last; assumption.
  - set (points := a :: b :: c :: rest) in *.
    destruct (In_nth _ _ (mkPoint 0 0) Hin) as (k & Hk & Hnth).
    assert (Hpath : generateSplinePath points segments
                    = flat_map (splineSegment points segments) (seq 0 (length points - 1))
                      ++ [mkPoint (px (at_ points (Z.of_nat (length points) - 1)))
                                  (py (at_ points (Z.of_nat (length points) - 1)))])
      by reflexivity.
    rewrite Hpath.
    destruct (Nat.eq_dec k (length points - 1)) as [Hlast | Hnot].
    + eexists. split.
      * apply in_or_app. right. left. reflexivity.
      * unfold at_.
        replace (Z.to_nat (Z.of_nat (length points) - 1)) with k by lia.
        rewrite Hnth. split; reflexivity.
    + destruct (splineSegment_first points segments k p Hs) as (tl & first & Hseg & Hfirst).
      exists first. split.
      * apply in_or_app. left. apply in_flat_map. exists k. split.
        -- apply in_seq. lia.
        -- rewrite Hseg. left. reflexivity.
      * unfold at_ in Hfirst. rewrite Nat2Z.id, Hnth in Hfirst. exact Hfirst.
Qed.

(** In exact arithmetic, for every non-empty station sequence [p :: rest]
    and every number of samples per segment from 1 on, the generated path
    starts at the first station and ends at the last one, and
    [getPositionAtProgress] returns the first station's coordinates at
    progress 0 and the last station's at progress 1. *)
Theorem path_starts_and_ends_at_stations
    (p : Point) (rest : list Point) (segments : nat) :
  (1 <= segments)%nat ->
  let path := generateSplinePath (p :: rest) segments in
  path <> [] /\
  pt_eq (hd p path) p /\
  pt_eq (last path p) (last (p :: rest) p) /\
  pt_eq (getPositionAtProgress path 0) p /\
  pt_eq (getPositionAtProgress path 1) (last (p :: rest) p).
Proof.
  intros Hs path.
  destruct (generateSplinePath_endpoints p rest segments Hs)
    as (first & tl & Hpath & Hfirst & Hlast).
  fold path in Hpath.
  assert (Hne : path <> []) by (rewrite Hpath; discriminate).
  split; [exact Hne |].
  split; [rewrite Hpath; exact Hfirst |].
  split; [rewrite Hpath; exact Hlast |].
  split.
  - apply pt_eq_trans with (hd p path).
    + apply getPositionAtProgress_start; exact Hne.
    + rewrite Hpath. exact Hfirst.
  - apply pt_eq_trans with (last path p).
    + apply getPositionAtProgress_end; exact Hne.
    + rewrite Hpath. exact Hlast.
Qed.

End SplineFacts.

(* ================================================================== *)
(** * Facts about arc lengths and the station progress map *)
(* ================================================================== *)

Section ArcLengthFacts.
Import Spline.

Variable sqrt : Q -> Q.
Hypothesis sqrt_nonneg : forall v, 0 <= sqrt v.
Hypothesis sqrt_pos : forall v, 0 < v -> 0 < sqrt v.

Lemma cumulative_length (prev : Point) (total : Q) (rest : list Point) :
  length (cumulative sqrt prev total rest) = length rest.
Proof.
  revert prev total. induction rest as [| p rest IH]; intros prev total.
  - reflexivity.
  - cbn [cumulative length]. rewrite IH. reflexivity.
Qed.

(** The running sums never decrease. *)
Lemma cumulative_sorted (prev : Point) (total : Q) (rest : list Point) :
  StronglySorted Qle (total :: cumulative sqrt prev total rest).
Proof.
  revert prev total. induction rest as [| p rest IH]; intros prev total.
  - constructor; constructor.
  - cbn [cumulative].
    set (step := sqrt _).
    assert (Hstep : 0 <= step) by apply sqrt_nonneg.
    specialize (IH p (total + step)).
    constructor; [exact IH |].
    inversion IH as [| a l Hs Hall]; subst.
    constructor; [lra |].
    eapply Forall_impl; [| exact Hall]. cbv beta. intros v Hv. lra.
Qed.

Lemma sq_dist_pos (p q : Point) :
  ~ pt_eq p q ->
  0 < (px p - px q) * (px p - px q) + (py p - py q) * (py p - py q).
Proof.
  intros Hne.
  pose proof (square_nonneg (px p - px q)) as Hx2.
  pose proof (square_nonneg (py p - py q)) as Hy2.
  destruct (Qeq_dec (px p) (px q)) as [Hx | Hx].
  - destruct (Qeq_dec (py p) (py q)) as [Hy | Hy].
    + exfalso. apply Hne. split; assumption.
    + assert (H : 0 < (py p - py q) * (py p - py q)).
      { apply square_pos. intros H. apply Hy. lra. }
      lra.
  - assert (H : 0 < (px p - px q) * (px p - px q)).
    { apply square_pos. intros H. apply Hx. lra. }
    lra.
Qed.

Lemma cumulative_last_ge (prev : Point) (total : Q) (rest : list Point) :
  total <= last (cumulative sqrt prev total rest) total.
Proof.
  revert prev total. induction rest as [| p rest IH]; intros prev total.
  - cbn. lra.
  - cbn [cumulative]. rewrite last_cons_default.
    set (step := sqrt _). pose proof (sqrt_nonneg
      ((px p - px prev) * (px p - px prev) + (py p - py prev) * (py p - py prev))) as Hstep.
    fold step in Hstep. specialize (IH p (total + step)). lra.
Qed.

(** The total length is positive as soon as one sample differs from the
    first. *)
Lemma cumulative_last_gt (prev : Point) (total : Q) (rest : list Point) :
  (exists q, In q rest /\ ~ pt_eq q prev) ->
  total < last (cumulative sqrt prev total rest) total.
Proof.
  revert prev total. induction rest as [| p rest IH]; intros prev total (q & Hin & Hne).
  - contradiction.
  - cbn [cumulative]. rewrite last_cons_default.
    set (step := sqrt _).
    destruct (pt_eq_dec p prev) as [Heq | Hdiff].
    + assert (Hstep : 0 <= step) by apply sqrt_nonneg.
      assert (Hrest : exists q', In q' rest /\ ~ pt_eq q' p).
      { destruct Hin as [-> | Hin]; [contradiction |].
        exists q. split; [exact Hin |]. intros Hqp. apply Hne.
        eapply pt_eq_trans; eassumption. }
      specialize (IH p (total + step) Hrest). lra.
    + assert (Hstep : 0 < step) by (apply sqrt_pos, sq_dist_pos; exact Hdiff).
      pose proof (cumulative_last_ge p (total + step) rest). lra.
Qed.

(** What [computeArcLengths] returns on a path of two or more samples: the
    running sums [lengths], each divided by their last one. *)
Lemma computeArcLengths_spec (path : list Point) :
  (2 <= length path)%nat ->
  exists lengths total,
    computeArcLengths sqrt path = map (fun l => jsDiv l total) lengths /\
    length lengths = length path /\
    StronglySorted Qle lengths /\
    nth 0 lengths 0 = 0 /\
    last lengths 0 = total /\
    ((exists q, In q path /\ ~ pt_eq q (hd q path)) -> 0 < total).
Proof.
  intros Hlen. destruct path as [| p0 [| p1 rest]]; cbn [length] in Hlen; try lia.
  exists (0 :: cumulative sqrt p0 0 (p1 :: rest)),
         (last (0 :: cumulative sqrt p0 0 (p1 :: rest)) 0).
  split; [reflexivity |].
  split; [cbn [length]; rewrite cumulative_length; reflexivity |].
  split; [apply cumulative_sorted |].
  split; [reflexivity |].
  split; [reflexivity |].
  intros (q & Hin & Hne). cbn [hd] in Hne.
  rewrite last_cons_default. apply cumulative_last_gt.
  exists q. split; [| exact Hne].
  destruct Hin as [<- | Hin]; [| exact Hin].
  exfalso. apply Hne, pt_eq_refl.
Qed.

Lemma jsDiv_pos (l total : Q) : 0 < total -> jsDiv l total = Some (l / total).
Proof.
  intros Ht. unfold jsDiv.
  destruct (Qeq_bool total 0) eqn:E; [| reflexivity].
  apply Qeq_bool_eq in E. lra.
Qed.

(** The value [stationToProgress] reads for a station whose sample index
    lies inside the table. *)
Lemma stationToProgress_value (lengths : list Q) (total : Q) (i n segments : nat) :
  (2 <= n)%nat -> 0 < total -> (i * segments < length lengths)%nat ->
  stationToProgress i n (map (fun l => jsDiv l total) lengths) segments
  == nth (i * segments) lengths 0 / total.
Proof.
  intros Hn Ht Hi. unfold stationToProgress.
  destruct (n <=? 1)%nat eqn:E; [apply Nat.leb_le in E; lia |].
  rewrite length_map.
  rewrite Z.min_l by lia.
  destruct (Z.of_nat (i * segments) <? 0)%Z eqn:E0; [apply Z.ltb_lt in E0; lia |].
  rewrite Nat2Z.id.
  rewrite nth_error_map.
  rewrite (nth_error_nth' lengths 0) by exact Hi.
  cbn [option_map]. rewrite jsDiv_pos by exact Ht.
  destruct (Qeq_bool (nth (i * segments) lengths 0 / total) 0) eqn:Ez.
  - apply Qeq_bool_eq in Ez. symmetry. exact Ez.
  - reflexivity.
Qed.

Lemma jsDiv_zero (l total : Q) : total == 0 -> jsDiv l total = None.
Proof. intros Ht. unfold jsDiv. rewrite (Qeq_eq_bool _ _ Ht). reflexivity. Qed.

(** On a path of total length 0 every station reads [NaN], hence 0. *)
Lemma stationToProgress_degenerate (lengths : list Q) (total : Q) (i n segments : nat) :
  total == 0 ->
  stationToProgress i n (map (fun l => jsDiv l total) lengths) segments = 0.
Proof.
  intros Ht. unfold stationToProgress.
  destruct (n <=? 1)%nat; [reflexivity |].
  destruct (_ <? 0)%Z; [reflexivity |].
  rewrite nth_error_map.
  destruct (nth_error lengths _) as [l |]; cbn [option_map]; [| reflexivity].
  rewrite jsDiv_zero by exact Ht. reflexivity.
Qed.

(** The station progress map of two or more stations, read off the running
    sums [lengths] of the path and their total. *)
Lemma stationProgressMap_values (points : list Point) (segments : nat) :
  (2 <= length points)%nat ->
  (1 <= segments)%nat ->
  exists lengths total,
    StronglySorted Qle lengths /\
    length lengths = ((length points - 1) * segments + 1)%nat /\
    nth 0 lengths 0 = 0 /\
    last lengths 0 = total /\
    ((exists a b, In a points /\ In b points /\ ~ pt_eq a b) -> 0 < total) /\
    (0 < total ->
     forall i, (i < length points)%nat ->
       nth i (stationProgressMap sqrt points segments) 0
       == nth (i * segments) lengths 0 / total) /\
    (total == 0 ->
     forall i, (i < length points)%nat ->
       nth i (stationProgressMap sqrt points segments) 0 = 0).
Proof.
  intros Hn Hs.
  set (n := length points) in *.
  set (path := generateSplinePath points segments).
  assert (Hlen : length path = ((n - 1) * segments + 1)%nat)
    by (apply generateSplinePath_length; exact Hn).
  assert (Hlen2 : (2 <= length path)%nat) by nia.
  destruct (computeArcLengths_spec path Hlen2)
    as (lengths & total & Harcs & Hll & Hsorted & Hzero & Hlast & Hpos).
  exists lengths, total.
  split; [exact Hsorted |]. split; [rewrite Hll; exact Hlen |].
  split; [exact Hzero |]. split; [exact Hlast |].
  split; [| split].
  - intros (a & b & Ha & Hb & Hab). apply Hpos.
    destruct (generateSplinePath_through points segments a Hs Ha) as (qa & Hqa & Hea).
    destruct (generateSplinePath_through points segments b Hs Hb) as (qb & Hqb & Heb).
    fold path in Hqa, Hqb.
    destruct (pt_eq_dec qa (hd qa path)) as [Hsame | Hdiff].
    + exists qb. split; [exact Hqb |]. intros Hqb'. apply Hab.
      apply pt_eq_trans with qa; [apply pt_eq_sym; exact Hea |].
      apply pt_eq_trans with qb; [| exact Heb].
      apply pt_eq_trans with (hd qa path); [exact Hsame |].
      apply pt_eq_sym. destruct path; [destruct Hqa | exact Hqb'].
    + exists qa. split; [exact Hqa | exact Hdiff].
  - intros Ht i Hi. unfold stationProgressMap. fold n. fold path.
    rewrite nth_map_seq by exact Hi. rewrite Harcs.
    apply stationToProgress_value; [exact Hn | exact Ht |].
    rewrite Hll, Hlen. nia.
  - intros Ht i Hi. unfold stationProgressMap. fold n. fold path.
    rewrite nth_map_seq by exact Hi. rewrite Harcs.
    apply stationToProgress_degenerate. exact Ht.
Qed.

(** The thresholds of any station sequence are in station order, also
    when stations coincide. *)
Lemma stationProgressMap_nondecreasing (points : list Point) (segments : nat) :
  (1 <= segments)%nat ->
  forall i j, (i <= j < length points)%nat ->
    nth i (stationProgressMap sqrt points segments) 0
    <= nth j (stationProgressMap sqrt points segments) 0.
Proof.
  intros Hs i j Hij.
  destruct (le_lt_dec 2 (length points)) as [Hn | Hn].
  - destruct (stationProgressMap_values points segments Hn Hs)
      as (lengths & total & Hsorted & Hll & Hzero & Hlast & _ & Hval & Hdeg).
    assert (Hge : 0 <= total).
    { assert (Hone : (1 <= length lengths)%nat)
        by (rewrite Hll; apply Nat.le_add_l).
      assert (H : nth 0 lengths 0 <= nth (length lengths - 1) lengths 0)
        by (apply sorted_nth_le; [exact Hsorted | lia]).
      rewrite (nth_last_index lengths 0 0) in H
        by (intros ->; cbn [length] in Hone; lia).
      rewrite Hzero, Hlast in H. exact H. }
    destruct (Qlt_le_dec 0 total) as [Ht | Ht].
    + rewrite (Hval Ht i), (Hval Ht j) by lia.
      apply Qdiv_le_compat; [exact Ht |].
      apply sorted_nth_le; [exact Hsorted |]. rewrite Hll. nia.
    + assert (Ht0 : total == 0) by lra.
      rewrite (Hdeg Ht0 i), (Hdeg Ht0 j) by lia. lra.
  - unfold stationProgressMap. rewrite !nth_map_seq by lia.
    unfold stationToProgress.
    destruct (length points <=? 1)%nat eqn:E; [lra |].
    apply Nat.leb_gt in E. lia.
Qed.

(** C9. For every station sequence of two or more stations, two of which
    differ in their coordinates (in particular when no two stations
    coincide), and every number of samples per segment from 1 on, the
    station progress map has one entry per station, is non-decreasing in
    station order, maps the first station to 0 and the last station to 1. *)
Theorem station_progress_map_monotone (points : list Point) (segments : nat) :
  (2 <= length points)%nat ->
  (1 <= segments)%nat ->
  (exists a b, In a points /\ In b points /\ ~ pt_eq a b) ->
  let m := stationProgressMap sqrt points segments in
  length m = length points /\
  (forall i j, (i <= j < length points)%nat -> nth i m 0 <= nth j m 0) /\
  nth 0 m 0 == 0 /\
  nth (length points - 1) m 0 == 1.
Proof.
  intros Hn Hs Hdistinct m.
  destruct (stationProgressMap_values points segments Hn Hs)
    as (lengths & total & Hsorted & Hll & Hzero & Hlast & Hpos & Hval & _).
  assert (Ht : 0 < total) by (apply Hpos; exact Hdistinct).
  assert (Hone : (1 <= length lengths)%nat) by (rewrite Hll; apply Nat.le_add_l).
  specialize (Hval Ht). fold m in Hval.
  split; [subst m; unfold stationProgressMap; rewrite length_map, length_seq; reflexivity |].
  split; [| split].
  - intros i j Hij. rewrite (Hval i), (Hval j) by lia.
    apply Qdiv_le_compat; [exact Ht |].
    apply sorted_nth_le; [exact Hsorted |]. rewrite Hll. nia.
  - rewrite Hval by lia. rewrite Nat.mul_0_l, Hzero. unfold Qdiv. ring.
  - rewrite Hval by lia.
    replace ((length points - 1) * segments)%nat with (length lengths - 1)%nat
      by (rewrite Hll; lia).
    rewrite (nth_last_index lengths 0 0)
      by (intros ->; cbn [length] in Hone; lia).
    rewrite Hlast. field. lra.
Qed.

End ArcLengthFacts.

(* ================================================================== *)
(** * Facts about the playback engine *)
(* ================================================================== *)

Section TrackerFacts.
Import Spline Tracker Notions.

Variable random : nat -> Q.

(** Fields [_checkStations] leaves alone. *)
Lemma checkStation_frame (t : CourseTracker) (i : nat) :
  let t' := checkStation t i in
  course t' = course t /\ ghost t' = ghost t /\ isPlaying t' = isPlaying t /\
  progress t' = progress t /\ elapsedMs t' = elapsedMs t /\ speed t' = speed t /\
  lastTimestamp t' = lastTimestamp t /\ animFrameId t' = animFrameId t /\
  particles t' = particles t /\ ghostParticles t' = ghostParticles t.
Proof.
  unfold checkStation. destruct (_ && _); cbn; repeat split; reflexivity.
Qed.

Lemma checkStations_fold_frame (l : list nat) (t : CourseTracker) :
  let t' := fold_left checkStation l t in
  course t' = course t /\ ghost t' = ghost t /\ isPlaying t' = isPlaying t /\
  progress t' = progress t /\ elapsedMs t' = elapsedMs t /\ speed t' = speed t /\
  lastTimestamp t' = lastTimestamp t /\ animFrameId t' = animFrameId t /\
  particles t' = particles t /\ ghostParticles t' = ghostParticles t.
Proof.
  cbv zeta.
  repeat split;
    (apply (fold_left_proj checkStation); intros a b;
     pose proof (checkStation_frame a b) as H; cbv zeta in H; tauto).
Qed.

Lemma checkStations_frame (t : CourseTracker) :
  let t' := _checkStations t in
  course t' = course t /\ ghost t' = ghost t /\ isPlaying t' = isPlaying t /\
  progress t' = progress t /\ elapsedMs t' = elapsedMs t /\ speed t' = speed t /\
  lastTimestamp t' = lastTimestamp t /\ animFrameId t' = animFrameId t /\
  particles t' = particles t /\ ghostParticles t' = ghostParticles t.
Proof. apply checkStations_fold_frame. Qed.

(** What [_tick] does to the clock fields of a playing tracker. *)
Lemma tick_clock (now : Q) (t : CourseTracker) :
  isPlaying t = true ->
  let t' := _tick random now t in
  course t' = course t /\
  ghost t' = ghost t /\
  speed t' = speed t /\
  elapsedMs t' = elapsedMs t + tickDelta now t * speed t /\
  progress t' = progress (advance now t) /\
  isPlaying t' = negb (Qle_bool 1 (progress t')).
Proof.
  intros Hp. unfold _tick. rewrite Hp. cbn [negb]. cbv zeta.
  set (dt := tickDelta now t).
  pose proof (checkStations_frame (advance now t)) as H. cbv zeta in H.
  destruct H as (Hc & Hg & Hi & Hpr & He & Hs & _).
  unfold completeOrSchedule, fadeSplit, _updateParticles.
  cbn [requestAnimationFrame course ghost speed elapsedMs progress isPlaying].
  rewrite Hc, Hg, Hs, He, Hpr, Hi.
  cbn [advance course ghost speed elapsedMs isPlaying]. rewrite Hp.
  repeat split.
Qed.

(** ** Crossing detection *)

Lemma crossings_app (l1 l2 : list Event) :
  crossings (l1 ++ l2) = crossings l1 ++ crossings l2.
Proof.
  induction l1 as [| [i n s |] l1 IH]; cbn [crossings app]; [reflexivity | |];
    rewrite IH; reflexivity.
Qed.

Lemma crossings_stationEvents (c : Course) (l : list nat) :
  crossings (map (stationEvent c) l) = l.
Proof.
  induction l as [| i l IH]; [reflexivity |].
  cbn [map crossings stationEvent]. rewrite IH. reflexivity.
Qed.

Lemma completions_app (l1 l2 : list Event) :
  completions (l1 ++ l2) = (completions l1 + completions l2)%nat.
Proof.
  induction l1 as [| [i n s |] l1 IH]; cbn [completions app]; [reflexivity | |];
    rewrite IH; reflexivity.
Qed.

Lemma completions_stationEvents (c : Course) (l : list nat) :
  completions (map (stationEvent c) l) = 0%nat.
Proof.
  induction l as [| i l IH]; [reflexivity |]. exact IH.
Qed.

(** One round of the loop fires index [i] exactly when the crossing test
    holds for it. *)
Lemma checkStation_fires (t : CourseTracker) (i : nat) :
  events (host (checkStation t i))
  = events (host t) ++ (if crossedNow t i then [stationEvent (course t) i] else []) /\
  lastStationIndex (checkStation t i)
  = (if crossedNow t i then Z.of_nat i else lastStationIndex t).
Proof.
  unfold checkStation, crossedNow.
  destruct (_ && _); cbn; [split; reflexivity |].
  rewrite app_nil_r. split; reflexivity.
Qed.

(** Later indices are tested as if the loop had just started. *)
Lemma crossedNow_after (t : CourseTracker) (i j : nat) :
  (i < j)%nat -> crossedNow (checkStation t i) j = crossedNow t j.
Proof.
  intros Hij.
  pose proof (checkStation_frame t i) as H. cbv zeta in H.
  destruct H as (Hc & _ & _ & Hp & _).
  destruct (checkStation_fires t i) as [_ Hl].
  unfold crossedNow at 1. rewrite Hc, Hp, Hl.
  unfold crossedNow at 2.
  destruct (crossedNow t i) eqn:E; [| reflexivity].
  unfold crossedNow in E. apply andb_true_iff in E. destruct E as [_ E].
  apply Z.ltb_lt in E.
  f_equal. transitivity true; [apply Z.ltb_lt; lia | symmetry; apply Z.ltb_lt; lia].
Qed.

Lemma checkStations_from (n a : nat) (t : CourseTracker) :
  let t' := fold_left checkStation (seq a n) t in
  let fired := filter (crossedNow t) (seq a n) in
  events (host t') = events (host t) ++ map (stationEvent (course t)) fired /\
  lastStationIndex t' = last (map Z.of_nat fired) (lastStationIndex t).
Proof.
  revert a t. induction n as [| n IH]; intros a t; cbv zeta.
  - cbn. rewrite app_nil_r. split; reflexivity.
  - cbn [seq fold_left filter].
    specialize (IH (S a) (checkStation t a)). cbv zeta in IH.
    destruct IH as [IHe IHl].
    pose proof (checkStation_frame t a) as Hf. cbv zeta in Hf.
    destruct Hf as (Hc & _).
    destruct (checkStation_fires t a) as [He Hl].
    assert (Hext : filter (crossedNow (checkStation t a)) (seq (S a) n)
                   = filter (crossedNow t) (seq (S a) n)).
    { apply filter_ext_in. intros j Hj. apply in_seq in Hj.
      apply crossedNow_after. lia. }
    rewrite Hext, Hc in IHe. rewrite Hext in IHl.
    rewrite IHe, IHl, He, Hl.
    destruct (crossedNow t a).
    + cbn [map]. rewrite <- app_assoc. cbn [app].
      rewrite last_cons_default. split; reflexivity.
    + rewrite app_nil_r. split; reflexivity.
Qed.

(** [_checkStations] fires exactly the indices that pass the crossing
    test, in loop order, and remembers the last of them. *)
Lemma checkStations_fires (t : CourseTracker) :
  events (host (_checkStations t))
  = events (host t) ++ map (stationEvent (course t)) (firedNow t) /\
  lastStationIndex (_checkStations t)
  = last (map Z.of_nat (firedNow t)) (lastStationIndex t).
Proof. apply checkStations_from. Qed.

Lemma firedNow_sorted (t : CourseTracker) : StronglySorted lt (firedNow t).
Proof. apply filter_sorted, seq_sorted. Qed.

Lemma firedNow_spec (t : CourseTracker) (i : nat) :
  In i (firedNow t) <->
  (i < length (stationProgresses (course t)))%nat /\
  nth i (stationProgresses (course t)) 0 <= progress t /\
  (lastStationIndex t < Z.of_nat i)%Z.
Proof.
  unfold firedNow. rewrite filter_In, in_seq. unfold crossedNow.
  rewrite andb_true_iff, Qle_bool_iff, Z.ltb_lt. intuition lia.
Qed.

(** With thresholds in station order no station is skipped. *)
Lemma firedNow_gapless (t : CourseTracker) (i j : nat) :
  nondecreasing (stationProgresses (course t)) ->
  In j (firedNow t) -> (lastStationIndex t < Z.of_nat i)%Z -> (i <= j)%nat ->
  In i (firedNow t).
Proof.
  intros Hmono Hj Hi Hij. apply firedNow_spec in Hj. destruct Hj as (Hjn & Hjp & _).
  apply firedNow_spec. split; [lia |]. split; [| exact Hi].
  apply Qle_trans with (nth j (stationProgresses (course t)) 0); [| exact Hjp].
  apply Hmono. lia.
Qed.

(** The callback calls of one [_tick] of a playing tracker: the crossings
    of the advanced state, then [onComplete()] when the course is done. *)
Lemma tick_events (now : Q) (t : CourseTracker) :
  isPlaying t = true ->
  let t' := _tick random now t in
  let fired := firedNow (advance now t) in
  events (host t')
  = events (host t) ++ map (stationEvent (course t)) fired
    ++ (if Qle_bool 1 (progress (advance now t)) then [Complete] else []) /\
  lastStationIndex t' = last (map Z.of_nat fired) (lastStationIndex t).
Proof.
  intros Hp. unfold _tick. rewrite Hp. cbn [negb]. cbv zeta.
  destruct (checkStations_fires (advance now t)) as [He Hl].
  pose proof (checkStations_frame (advance now t)) as Hf. cbv zeta in Hf.
  destruct Hf as (_ & _ & _ & Hpr & _).
  unfold completeOrSchedule, fadeSplit, _updateParticles.
  cbn [requestAnimationFrame host events progress lastStationIndex drawn emit rafQueue
       rafNext randomCalls].
  rewrite Hpr, Hl. split; [| reflexivity].
  destruct (Qle_bool 1 (progress (advance now t)));
    unfold drawn, emit; cbn [events]; rewrite He; cbn [advance host course];
    rewrite <- ?app_assoc, ?app_nil_r; reflexivity.
Qed.

Lemma laterInCycle_same (t t' : CourseTracker) :
  events (host t') = events (host t) ->
  lastStationIndex t' = lastStationIndex t ->
  laterInCycle t t'.
Proof.
  intros He Hl. exists []. rewrite app_nil_r, He, Hl.
  repeat split; try constructor. lia.
Qed.

Lemma laterInCycle_trans (t1 t2 t3 : CourseTracker) :
  laterInCycle t1 t2 -> laterInCycle t2 t3 -> laterInCycle t1 t3.
Proof.
  intros (n1 & He1 & Hs1 & Hw1 & Hl1) (n2 & He2 & Hs2 & Hw2 & Hl2).
  unfold crossingsWithin in *. rewrite Forall_forall in Hw1, Hw2.
  exists (n1 ++ n2). split; [rewrite He2, He1, app_assoc; reflexivity |].
  rewrite crossings_app. split; [| split; [| lia]].
  - apply sorted_app; [exact Hs1 | exact Hs2 |].
    intros a b Ha Hb. specialize (Hw1 a Ha). specialize (Hw2 b Hb). lia.
  - apply Forall_forall. intros i Hi. rewrite ?crossings_app in Hi.
    apply in_app_or in Hi.
    destruct Hi as [Hi | Hi]; [specialize (Hw1 i Hi) | specialize (Hw2 i Hi)]; lia.
Qed.

Lemma tick_later (now : Q) (t : CourseTracker) :
  laterInCycle t (_tick random now t).
Proof.
  destruct (isPlaying t) eqn:Hp.
  2:{ unfold _tick. rewrite Hp. apply laterInCycle_same; reflexivity. }
  destruct (tick_events now t Hp) as [He Hl].
  set (fired := firedNow (advance now t)) in *.
  assert (Hsorted : StronglySorted lt fired) by apply firedNow_sorted.
  assert (Hlow : forall i, In i fired -> (lastStationIndex t < Z.of_nat i)%Z).
  { intros i Hi. apply firedNow_spec in Hi. cbn [advance lastStationIndex] in Hi. tauto. }
  assert (Hhigh : forall i, In i fired ->
            (Z.of_nat i <= lastStationIndex (_tick random now t))%Z).
  { intros i Hi. rewrite Hl.
    rewrite (last_map_of_nat fired _ 0%nat) by (intros E; rewrite E in Hi; destruct Hi).
    pose proof (sorted_last_max fired 0%nat Hsorted) as Hmax.
    rewrite Forall_forall in Hmax. specialize (Hmax i Hi). lia. }
  eexists. split; [exact He |].
  rewrite crossings_app, crossings_stationEvents.
  assert (Htail : crossings (if Qle_bool 1 (progress (advance now t))
                             then [Complete] else []) = [])
    by (destruct (Qle_bool 1 _); reflexivity).
  unfold crossingsWithin.
  rewrite crossings_app, crossings_stationEvents, Htail, app_nil_r.
  split; [exact Hsorted |]. split.
  - apply Forall_forall. intros i Hi. split; [apply Hlow | apply Hhigh]; exact Hi.
  - destruct fired as [| a fired'] eqn:E.
    + rewrite Hl. cbn. lia.
    + specialize (Hlow a (or_introl eq_refl)). specialize (Hhigh a (or_introl eq_refl)). lia.
Qed.

Lemma step_later (op : Op) (t : CourseTracker) :
  restarts op t = false -> laterInCycle t (step random t op).
Proof.
  intros Hr. destruct op as [now now' | | | target | m | ss label | | | now];
    cbn [step restarts] in *; try discriminate.
  - unfold play. destruct (isPlaying t) eqn:Hp; [apply laterInCycle_same; reflexivity |].
    cbn [negb andb] in Hr. rewrite Hr.
    apply laterInCycle_trans with (start now t); [| apply tick_later].
    apply laterInCycle_same; reflexivity.
  - apply laterInCycle_same; [| reflexivity].
    unfold pause. cbn [host]. destruct (animFrameId t) as [id |]; [| reflexivity].
    destruct (negb (id =? 0)%nat); reflexivity.
  - apply laterInCycle_same; reflexivity.
  - apply laterInCycle_same; reflexivity.
  - unfold setGhostSplits. destruct (buildTimeline _).
    apply laterInCycle_same; reflexivity.
  - apply laterInCycle_same; reflexivity.
  - apply laterInCycle_same; [| reflexivity].
    unfold destroy, pause. cbn [host]. destruct (animFrameId t) as [id |]; [| reflexivity].
    destruct (negb (id =? 0)%nat); reflexivity.
  - unfold frame. destruct (rafQueue (host t)) as [| [id cb] rest];
      [apply laterInCycle_same; reflexivity |].
    destruct cb; [apply laterInCycle_same; reflexivity |].
    eapply laterInCycle_trans; [| apply tick_later].
    apply laterInCycle_same; reflexivity.
Qed.

Lemma run_later (ops : list Op) (t : CourseTracker) :
  sameCycle random ops t = true -> laterInCycle t (run random ops t).
Proof.
  revert t. induction ops as [| op ops IH]; intros t Hc.
  - apply laterInCycle_same; reflexivity.
  - cbn [sameCycle] in Hc. apply andb_true_iff in Hc. destruct Hc as [Hr Hc].
    apply negb_true_iff in Hr.
    cbn [run fold_left]. eapply laterInCycle_trans; [apply step_later; exact Hr |].
    apply IH. exact Hc.
Qed.

(** C2. With station thresholds in non-decreasing order: one run of
    [_checkStations] fires exactly the stations [i] with
    [progress >= stationProgresses[i]] and [i > lastStationIndex], in
    strictly ascending index order and without skipping any index between
    [lastStationIndex] and the furthest one reached, and leaves
    [lastStationIndex] at the last index fired; a tick fires exactly these
    for the advanced progress; and over a play cycle (a session in which no
    [restart()] runs) the crossing events come in strictly ascending index
    order, so each station fires at most once. *)
Theorem crossings_fire_once_in_order (t : CourseTracker) :
  nondecreasing (stationProgresses (course t)) ->
  (events (host (_checkStations t))
   = events (host t) ++ map (stationEvent (course t)) (firedNow t) /\
   lastStationIndex (_checkStations t)
   = last (map Z.of_nat (firedNow t)) (lastStationIndex t) /\
   StronglySorted lt (firedNow t) /\
   (forall i, In i (firedNow t) <->
              (i < length (stationProgresses (course t)))%nat /\
              nth i (stationProgresses (course t)) 0 <= progress t /\
              (lastStationIndex t < Z.of_nat i)%Z) /\
   (forall i j, In j (firedNow t) -> (lastStationIndex t < Z.of_nat i)%Z ->
                (i <= j)%nat -> In i (firedNow t))) /\
  (forall now, isPlaying t = true ->
     crossings (skipn (length (events (host t))) (events (host (_tick random now t))))
     = firedNow (advance now t)) /\
  (forall ops, sameCycle random ops t = true ->
     exists new,
       events (host (run random ops t)) = events (host t) ++ new /\
       StronglySorted lt (crossings new) /\
       NoDup (crossings new) /\
       crossingsWithin (lastStationIndex t) (lastStationIndex (run random ops t)) new).
Proof.
  intros Hmono. split; [| split].
  - destruct (checkStations_fires t) as [He Hl].
    split; [exact He |]. split; [exact Hl |]. split; [apply firedNow_sorted |].
    split; [apply firedNow_spec |].
    intros i j Hj Hi Hij. eapply firedNow_gapless; eassumption.
  - intros now Hp. destruct (tick_events now t Hp) as [He _].
    rewrite He, skipn_app, skipn_all, Nat.sub_diag. cbn [skipn app].
    rewrite crossings_app, crossings_stationEvents.
    destruct (Qle_bool 1 _); cbn [crossings]; apply app_nil_r.
  - intros ops Hc. destruct (run_later ops t Hc) as (new & He & Hs & Hw & _).
    exists new. split; [exact He |]. split; [exact Hs |].
    split; [apply sorted_NoDup; exact Hs | exact Hw].
Qed.

(** ** Ticking *)

Lemma tick_idle (now : Q) (t : CourseTracker) :
  isPlaying t = false -> _tick random now t = t.
Proof. intros Hp. unfold _tick. rewrite Hp. reflexivity. Qed.

Lemma advance_progress_zero_total (now : Q) (t : CourseTracker) :
  totalTimeMs (course t) == 0 -> progress (advance now t) = progress t.
Proof.
  intros H0. cbn [advance progress]. rewrite Qlt_bool_false; [reflexivity | lra].
Qed.

(** With a zero total time a tick leaves the progress as it is. *)
Lemma tick_zero_total (now : Q) (t : CourseTracker) :
  totalTimeMs (course t) == 0 ->
  progress (_tick random now t) = progress t /\
  course (_tick random now t) = course t.
Proof.
  intros H0. destruct (isPlaying t) eqn:Hp.
  - pose proof (tick_clock now t Hp) as H. cbv zeta in H.
    destruct H as (Hc & _ & _ & _ & Hpr & _).
    rewrite Hpr, Hc, advance_progress_zero_total by exact H0. split; reflexivity.
  - rewrite tick_idle by exact Hp. split; reflexivity.
Qed.

Lemma ticks_zero_total (nows : list Q) (t : CourseTracker) :
  totalTimeMs (course t) == 0 ->
  progress (ticks random nows t) = progress t /\
  course (ticks random nows t) = course t.
Proof.
  revert t. induction nows as [| now nows IH]; intros t H0; [split; reflexivity |].
  destruct (tick_zero_total now t H0) as [Hp Hc].
  unfold ticks in *. cbn [fold_left].
  destruct (IH (_tick random now t)) as [Hp' Hc']; [rewrite Hc; exact H0 |].
  rewrite Hp', Hc', Hp, Hc. split; reflexivity.
Qed.

(** With a zero total time and a progress below 1, ticking never ends the
    playback. *)
Lemma ticks_never_complete (nows : list Q) (t : CourseTracker) :
  totalTimeMs (course t) == 0 -> progress t < 1 -> isPlaying t = true ->
  isPlaying (ticks random nows t) = true /\
  completions (events (host (ticks random nows t))) = completions (events (host t)).
Proof.
  revert t. induction nows as [| now nows IH]; intros t H0 Hlt Hp; [split; [exact Hp | reflexivity] |].
  destruct (tick_zero_total now t H0) as [Hpr Hc].
  pose proof (tick_clock now t Hp) as H. cbv zeta in H.
  destruct H as (_ & _ & _ & _ & _ & Hplay).
  destruct (tick_events now t Hp) as [He _].
  rewrite Hpr, Qle_bool_false in Hplay by exact Hlt.
  rewrite advance_progress_zero_total, Qle_bool_false, app_nil_r in He by assumption.
  unfold ticks in *. cbn [fold_left].
  destruct (IH (_tick random now t)) as [Hp' Hn'];
    [rewrite Hc; exact H0 | rewrite Hpr; exact Hlt | exact Hplay |].
  split; [exact Hp' |].
  rewrite Hn', He, completions_app, completions_stationEvents. lia.
Qed.

(** A tick of a tracker with zero total time and progress 0 leaves both,
    and completes nothing. *)
Lemma tick_pinned (now : Q) (t : CourseTracker) :
  totalTimeMs (course t) == 0 -> progress t = 0 ->
  let t' := _tick random now t in
  course t' = course t /\ progress t' = 0 /\
  completions (events (host t')) = completions (events (host t)).
Proof.
  intros H0 Hp. cbv zeta.
  destruct (tick_zero_total now t H0) as [Hpr Hc].
  split; [exact Hc |]. split; [rewrite Hpr; exact Hp |].
  destruct (isPlaying t) eqn:Hplay; [| rewrite tick_idle by exact Hplay; reflexivity].
  destruct (tick_events now t Hplay) as [He _].
  rewrite advance_progress_zero_total, Hp in He by exact H0.
  change (Qle_bool 1 0) with false in He. rewrite app_nil_r in He.
  rewrite He, completions_app, completions_stationEvents. lia.
Qed.

Lemma step_pinned (op : Op) (t : CourseTracker) :
  totalTimeMs (course t) == 0 -> progress t = 0 -> neverSeeks [op] = true ->
  let t' := step random t op in
  course t' = course t /\ progress t' = 0 /\
  completions (events (host t')) = completions (events (host t)).
Proof.
  intros H0 Hp Hs. cbv zeta.
  destruct op as [now now' | | | target | m | ss label | | | now]; cbn [step];
    try discriminate.
  - unfold play. destruct (isPlaying t); [repeat split; assumption |].
    rewrite Hp. change (Qle_bool 1 0) with false. cbv iota.
    destruct (tick_pinned now' (start now t) H0 Hp) as (Hc & Hpr & Hn).
    repeat split; assumption.
  - split; [reflexivity |]. split; [exact Hp |].
    unfold pause. cbn [host]. destruct (animFrameId t) as [id |]; [| reflexivity].
    destruct (negb (id =? 0)%nat); reflexivity.
  - split; [reflexivity |]. split; [reflexivity |].
    unfold restart, pause. cbn [host]. destruct (animFrameId t) as [id |]; [| reflexivity].
    destruct (negb (id =? 0)%nat); reflexivity.
  - repeat split; assumption.
  - unfold setGhostSplits. destruct (buildTimeline _). repeat split; assumption.
  - repeat split; assumption.
  - split; [reflexivity |]. split; [exact Hp |].
    unfold destroy, pause. cbn [host]. destruct (animFrameId t) as [id |]; [| reflexivity].
    destruct (negb (id =? 0)%nat); reflexivity.
  - unfold frame. destruct (rafQueue (host t)) as [| [id cb] rest];
      [repeat split; assumption |].
    destruct cb; [repeat split; assumption |].
    match goal with |- context [_tick random now ?u] =>
      destruct (tick_pinned now u H0 Hp) as (Hc & Hpr & Hn) end.
    repeat split; assumption.
Qed.

(** A tracker built without splits stays at progress 0 and never completes,
    whatever is done with it short of seeking. *)
Lemma run_pinned (ops : list Op) (t : CourseTracker) :
  totalTimeMs (course t) == 0 -> progress t = 0 -> neverSeeks ops = true ->
  progress (run random ops t) = 0 /\
  completions (events (host (run random ops t))) = completions (events (host t)).
Proof.
  revert t. induction ops as [| op ops IH]; intros t H0 Hp Hs;
    [split; [exact Hp | reflexivity] |].
  cbn [neverSeeks forallb] in Hs. apply andb_true_iff in Hs. destruct Hs as [Hs1 Hs2].
  assert (Hop : neverSeeks [op] = true) by (cbn [neverSeeks forallb]; rewrite Hs1; reflexivity).
  destruct (step_pinned op t H0 Hp Hop) as (Hc & Hpr & Hn).
  change (run random (op :: ops) t) with (run random ops (step random t op)).
  destruct (IH (step random t op)) as [Hp' Hn'];
    [rewrite Hc; exact H0 | exact Hpr | exact Hs2 |].
  split; [exact Hp' |]. rewrite Hn', Hn. reflexivity.
Qed.

(** C1. On every tick of a playing tracker the elapsed time grows by the
    tick's time delta times the speed (the delta being [now] minus the
    previous time stamp); with a positive total time the progress becomes
    [min(1, elapsedMs / totalTimeMs)]; with a zero total time ticking never
    changes the progress, so from a progress below 1 (0 at the start) the
    playback never completes by ticking, while [seekTo(1)] followed by a
    tick completes it; a tracker built without splits stays at progress 0,
    uncompleted, through every session that does not seek. *)
Theorem tick_advances_time_and_progress (now : Q) (t : CourseTracker) :
  isPlaying t = true ->
  let t' := _tick random now t in
  elapsedMs t' = elapsedMs t + tickDelta now t * speed t /\
  (forall ts, lastTimestamp t = Some ts -> ~ ts == 0 -> tickDelta now t = now - ts) /\
  (0 < totalTimeMs (course t) ->
   progress t' = Qmin 1 (elapsedMs t' / totalTimeMs (course t))) /\
  (forall sqrt stations gs label ops,
     neverSeeks ops = true ->
     let s := run random ops (construct sqrt stations [] gs label) in
     totalTimeMs (course s) = 0 /\ progress s = 0 /\
     completions (events (host s)) = 0%nat) /\
  (totalTimeMs (course t) == 0 ->
   (forall nows, progress (ticks random nows t) = progress t) /\
   (progress t < 1 -> forall nows,
      isPlaying (ticks random nows t) = true /\
      completions (events (host (ticks random nows t)))
      = completions (events (host t))) /\
   (isPlaying (_tick random now (seekTo 1 t)) = false /\
    completions (events (host (_tick random now (seekTo 1 t))))
    = S (completions (events (host t))))).
Proof.
  intros Hp t'.
  pose proof (tick_clock now t Hp) as H. cbv zeta in H. fold t' in H.
  destruct H as (Hc & _ & _ & He & Hpr & Hplay).
  split; [exact He |]. split; [| split; [| split]].
  - intros ts Hts Hnz. unfold tickDelta. rewrite Hts.
    destruct (Qeq_bool ts 0) eqn:E; [| reflexivity].
    apply Qeq_bool_eq in E. contradiction.
  - intros Hpos. rewrite Hpr, He. cbn [advance progress].
    apply Qlt_bool_iff in Hpos. rewrite Hpos. reflexivity.
  - intros sqrt stations gs label ops Hs s.
    assert (Hnew : totalTimeMs (course (construct sqrt stations [] gs label)) = 0 /\
                   progress (construct sqrt stations [] gs label) = 0 /\
                   events (host (construct sqrt stations [] gs label)) = []).
    { unfold construct. cbn [buildTimeline]. destruct (buildTimeline gs).
      repeat split. }
    destruct Hnew as (Ht0 & Hp0 & He0).
    assert (Hcourse : forall l u, totalTimeMs (course u) = 0 -> progress u = 0 ->
              neverSeeks l = true -> totalTimeMs (course (run random l u)) = 0).
    { induction l as [| op l IH]; intros u Hu0 Hup Hl; [exact Hu0 |].
      cbn [neverSeeks forallb] in Hl. apply andb_true_iff in Hl. destruct Hl as [Hl1 Hl2].
      assert (Hop : neverSeeks [op] = true)
        by (cbn [neverSeeks forallb]; rewrite Hl1; reflexivity).
      assert (Hu0' : totalTimeMs (course u) == 0) by (rewrite Hu0; reflexivity).
      destruct (step_pinned op u Hu0' Hup Hop) as (Hc1 & Hp1 & _).
      change (run random (op :: l) u) with (run random l (step random u op)).
      apply IH; [rewrite Hc1; exact Hu0 | exact Hp1 | exact Hl2]. }
    split; [apply Hcourse; assumption |].
    assert (Ht0' : totalTimeMs (course (construct sqrt stations [] gs label)) == 0)
      by (rewrite Ht0; reflexivity).
    destruct (run_pinned ops _ Ht0' Hp0 Hs) as [Hp' Hn'].
    split; [exact Hp' |]. subst s. rewrite Hn', He0. reflexivity.
  - intros H0. split; [| split].
    + intros nows. apply ticks_zero_total. exact H0.
    + intros Hlt nows. apply ticks_never_complete; assumption.
    + assert (Hp1 : isPlaying (seekTo 1 t) = true) by exact Hp.
      assert (H01 : totalTimeMs (course (seekTo 1 t)) == 0) by exact H0.
      pose proof (tick_clock now (seekTo 1 t) Hp1) as H. cbv zeta in H.
      destruct H as (_ & _ & _ & _ & Hpr1 & Hplay1).
      destruct (tick_events now (seekTo 1 t) Hp1) as [He1 _].
      rewrite advance_progress_zero_total in Hpr1, He1 by exact H01.
      change (progress (seekTo 1 t)) with 1 in Hpr1, He1.
      rewrite Hpr1 in Hplay1. change (Qle_bool 1 1) with true in Hplay1, He1.
      split; [exact Hplay1 |].
      rewrite He1. cbn [seekTo host].
      rewrite !completions_app, completions_stationEvents. cbn [completions]. lia.
Qed.

(** ** Seeking and playing *)

Lemma clamp_agrees (p : Q) : Qmax 0 (Qmin 1 p) == clampUnit p.
Proof.
  unfold clampUnit.
  destruct (Qlt_bool p 0) eqn:E0.
  - apply Qlt_bool_iff in E0. rewrite Q.min_r by lra. apply Q.max_l. lra.
  - destruct (Qlt_bool 1 p) eqn:E1.
    + apply Qlt_bool_iff in E1. rewrite Q.min_l by lra. apply Q.max_r. lra.
    + assert (H0 : 0 <= p).
      { apply Qnot_lt_le. intros H. apply Qlt_bool_iff in H. congruence. }
      assert (H1 : p <= 1).
      { apply Qnot_lt_le. intros H. apply Qlt_bool_iff in H. congruence. }
      rewrite Q.min_r by exact H1. apply Q.max_r. exact H0.
Qed.

(** C4. After [seekTo(p)] the progress is [p] clamped to the interval from
    0 to 1, the elapsed time is that progress times the total time, both
    particle pools are empty, and [lastStationIndex], [isPlaying], the
    speed, the course with its timeline, the ghost timeline and every other
    field are as before. *)
Theorem seekTo_clamps_and_clears (p : Q) (t : CourseTracker) :
  let t' := seekTo p t in
  progress t' == clampUnit p /\
  0 <= progress t' <= 1 /\
  (0 <= p <= 1 -> progress t' == p) /\
  elapsedMs t' = progress t' * totalTimeMs (course t) /\
  particles t' = [] /\
  ghostParticles t' = [] /\
  lastStationIndex t' = lastStationIndex t /\
  isPlaying t' = isPlaying t /\
  speed t' = speed t /\
  course t' = course t /\
  ghost t' = ghost t /\
  lastTimestamp t' = lastTimestamp t /\
  animFrameId t' = animFrameId t /\
  activeSplit t' = activeSplit t /\
  host t' = host t.
Proof.
  cbv zeta. cbn [seekTo progress elapsedMs particles ghostParticles lastStationIndex
                 isPlaying speed course ghost lastTimestamp animFrameId activeSplit host].
  split; [apply clamp_agrees |].
  split; [split; [apply Q.le_max_l | apply Q.max_lub; [lra | apply Q.le_min_l]] |].
  split; [| repeat split].
  intros [H0 H1]. rewrite Q.min_r by exact H1. apply Q.max_r. exact H0.
Qed.

(** C10. [play()] on a tracker that is already playing returns at once:
    the tracker, with its time stamp, progress, elapsed time,
    [lastStationIndex], particle pools, speed and queued animation frames,
    is exactly as before. *)
Theorem play_while_playing_is_noop (now now' : Q) (t : CourseTracker) :
  isPlaying t = true -> play random now now' t = t.
Proof.
  intros Hp. unfold play. rewrite Hp. reflexivity.
Qed.

(** ** Particles *)

Lemma shiftWhileOver_newest (cap : nat) (ps : list Particle) :
  shiftWhileOver cap ps = newest cap ps.
Proof.
  unfold newest. induction ps as [| a ps IH]; [reflexivity |].
  cbn [shiftWhileOver]. destruct (cap <? length (a :: ps))%nat eqn:E.
  - apply Nat.ltb_lt in E. cbn [length] in *.
    replace (S (length ps) - cap)%nat with (S (length ps - cap)) by lia.
    cbn [skipn]. exact IH.
  - apply Nat.ltb_ge in E. replace (length (a :: ps) - cap)%nat with 0%nat by lia.
    reflexivity.
Qed.

Lemma newest_length (cap : nat) (ps : list Particle) :
  (length (newest cap ps) <= cap)%nat.
Proof. unfold newest. rewrite length_skipn. lia. Qed.

(** The entries [newest] drops are the ones in front. *)
Lemma newest_drops_front (cap : nat) (ps : list Particle) :
  exists evicted,
    ps = evicted ++ newest cap ps /\ length evicted = (length ps - cap)%nat.
Proof.
  exists (firstn (length ps - cap) ps). unfold newest. split.
  - symmetry. apply firstn_skipn.
  - rewrite length_firstn. lia.
Qed.

(** The backwards loop visits every particle once: with [front] still to
    visit and [back] already done, it leaves the survivors of [front]
    before [back]. *)
Lemma updateAndCull_from (dt window : Q) (front back : list Particle) :
  updateAndCull (length front) dt window (front ++ back)
  = survivors dt window front ++ back.
Proof.
  revert back. induction front as [| p front IH] using rev_ind; intros back.
  - reflexivity.
  - rewrite length_app. cbn [length]. rewrite Nat.add_1_r. cbn [updateAndCull].
    rewrite <- app_assoc. cbn [app].
    rewrite nth_error_app2 by lia. rewrite Nat.sub_diag. cbn [nth_error].
    unfold removeAt, setAt.
    rewrite firstn_app, firstn_all, Nat.sub_diag. cbn [firstn]. rewrite app_nil_r.
    replace (skipn (S (length front)) (front ++ p :: back)) with back.
    2:{ rewrite skipn_app, skipn_all2 by lia.
        replace (S (length front) - length front)%nat with 1%nat by lia. reflexivity. }
    unfold survivors. rewrite map_app, filter_app. cbn [map filter].
    unfold alive at 2.
    destruct (Qle_bool (life (decay dt window p)) 0); cbn [negb];
      rewrite IH; unfold survivors; rewrite <- app_assoc; reflexivity.
Qed.

Lemma updateAndCull_survivors (dt window : Q) (ps : list Particle) :
  updateAndCull (length ps) dt window ps = survivors dt window ps.
Proof.
  pose proof (updateAndCull_from dt window ps []) as H.
  rewrite !app_nil_r in H. exact H.
Qed.

(** One pool after a tick: the survivors of the old pool and of the
    particle just spawned, cut down to the newest [cap]. *)
Lemma updatePool_spec (spawned : Particle) (dt window : Q) (cap : nat)
    (pool : list Particle) :
  updatePool spawned dt window cap pool
  = newest cap (survivors dt window (pool ++ [spawned])).
Proof.
  unfold updatePool. rewrite updateAndCull_survivors. apply shiftWhileOver_newest.
Qed.

Lemma updateParticles_pools (dt : Q) (t : CourseTracker) :
  let t' := _updateParticles random dt t in
  particles t' = newest 30 (survivors dt 800 (particles t ++ [spawnedAthlete random t])) /\
  ghostParticles t'
  = (if ghostActive t
     then newest 20 (survivors dt 600 (ghostParticles t ++ [spawnedGhost random t]))
     else ghostParticles t).
Proof.
  cbv zeta. unfold _updateParticles. cbn [particles ghostParticles].
  rewrite !updatePool_spec. split; reflexivity.
Qed.

Lemma updateParticles_bounded (dt : Q) (t : CourseTracker) :
  (length (ghostParticles t) <= 20)%nat -> poolsBounded (_updateParticles random dt t).
Proof.
  intros Hg. pose proof (updateParticles_pools dt t) as H. cbv zeta in H.
  destruct H as [Hp Hgp]. unfold poolsBounded. rewrite Hp, Hgp.
  split; [apply newest_length |].
  destruct (ghostActive t); [apply newest_length | exact Hg].
Qed.

Lemma tick_bounded (now : Q) (t : CourseTracker) :
  poolsBounded t -> poolsBounded (_tick random now t).
Proof.
  intros Hb. unfold _tick. destruct (isPlaying t); cbn [negb]; [| exact Hb].
  cbv zeta. unfold completeOrSchedule, fadeSplit, poolsBounded.
  cbn [requestAnimationFrame particles ghostParticles].
  apply updateParticles_bounded.
  pose proof (checkStations_frame (advance now t)) as H. cbv zeta in H.
  destruct H as (_ & _ & _ & _ & _ & _ & _ & _ & _ & Hg).
  rewrite Hg. exact (proj2 Hb).
Qed.

Lemma poolsBounded_same (t t' : CourseTracker) :
  particles t' = particles t -> ghostParticles t' = ghostParticles t ->
  poolsBounded t -> poolsBounded t'.
Proof. unfold poolsBounded. intros -> ->. tauto. Qed.

Lemma poolsBounded_empty (t : CourseTracker) :
  particles t = [] -> ghostParticles t = [] -> poolsBounded t.
Proof. unfold poolsBounded. intros -> ->. cbn. lia. Qed.

Lemma step_bounded (op : Op) (t : CourseTracker) :
  poolsBounded t -> poolsBounded (step random t op).
Proof.
  intros Hb. destruct op as [now now' | | | target | m | ss label | | | now]; cbn [step].
  - unfold play. destruct (isPlaying t); [exact Hb |].
    apply tick_bounded.
    destruct (Qle_bool 1 (progress t)).
    + apply poolsBounded_empty; reflexivity.
    + eapply poolsBounded_same; [| | exact Hb]; reflexivity.
  - eapply poolsBounded_same; [| | exact Hb]; reflexivity.
  - apply poolsBounded_empty; reflexivity.
  - apply poolsBounded_empty; reflexivity.
  - eapply poolsBounded_same; [| | exact Hb]; reflexivity.
  - unfold setGhostSplits. destruct (buildTimeline _).
    eapply poolsBounded_same; [| | exact Hb]; reflexivity.
  - eapply poolsBounded_same; [| | exact Hb]; reflexivity.
  - eapply poolsBounded_same; [| | exact Hb]; reflexivity.
  - unfold frame. destruct (rafQueue (host t)) as [| [id cb] rest]; [exact Hb |].
    destruct cb.
    + eapply poolsBounded_same; [| | exact Hb]; reflexivity.
    + apply tick_bounded. eapply poolsBounded_same; [| | exact Hb]; reflexivity.
Qed.

Lemma run_bounded (ops : list Op) (t : CourseTracker) :
  poolsBounded t -> poolsBounded (run random ops t).
Proof.
  revert t. induction ops as [| op ops IH]; intros t Hb; [exact Hb |].
  cbn [run fold_left]. apply IH, step_bounded, Hb.
Qed.

(** The constructor gives every station its threshold. *)
Lemma construct_thresholds (sqrt : Q -> Q) (stations : list Station)
    (ss gs : list Split) (label : option string) :
  let c := course (construct sqrt stations ss gs label) in
  length (stationProgresses c) = length (stationPoints c).
Proof.
  unfold construct. destruct (buildTimeline ss), (buildTimeline gs).
  cbn [course stationProgresses stationPoints].
  rewrite length_map, length_seq. reflexivity.
Qed.

Lemma construct_bounded (sqrt : Q -> Q) (stations : list Station)
    (ss gs : list Split) (label : option string) :
  poolsBounded (construct sqrt stations ss gs label).
Proof.
  unfold construct. destruct (buildTimeline ss), (buildTimeline gs).
  apply poolsBounded_empty; reflexivity.
Qed.

(** C6. After the particle update of any tick the primary pool holds at
    most 30 particles and the ghost pool at most 20, in every state a
    session can reach from a freshly constructed tracker, whatever the
    operations, frame times and speeds; and when the survivors of a pool
    outnumber its capacity, the update evicts from the front of the pool,
    that is the oldest ones, whatever life they have left. *)
Theorem particle_pools_bounded_fifo :
  (forall sqrt stations ss gs label ops dt,
     let t := run random ops (construct sqrt stations ss gs label) in
     poolsBounded t /\ poolsBounded (_updateParticles random dt t)) /\
  (forall dt t,
     let t' := _updateParticles random dt t in
     let alive800 := survivors dt 800 (particles t ++ [spawnedAthlete random t]) in
     let alive600 := survivors dt 600 (ghostParticles t ++ [spawnedGhost random t]) in
     (length (particles t') <= 30)%nat /\
     (exists evicted,
        alive800 = evicted ++ particles t' /\
        length evicted = (length alive800 - 30)%nat) /\
     (ghostActive t = true ->
      (length (ghostParticles t') <= 20)%nat /\
      exists evicted,
        alive600 = evicted ++ ghostParticles t' /\
        length evicted = (length alive600 - 20)%nat)).
Proof.
  split.
  - intros sqrt stations ss gs label ops dt t.
    assert (Hb : poolsBounded t) by (apply run_bounded, construct_bounded).
    split; [exact Hb |]. apply updateParticles_bounded. exact (proj2 Hb).
  - intros dt t. cbv zeta.
    pose proof (updateParticles_pools dt t) as H. cbv zeta in H.
    destruct H as [Hp Hg]. rewrite Hp.
    split; [apply newest_length |].
    split; [apply newest_drops_front |].
    intros Ha. rewrite Hg, Ha.
    split; [apply newest_length | apply newest_drops_front].
Qed.

Lemma alive_iff (q : Particle) : alive q = true <-> 0 < life q.
Proof.
  unfold alive. rewrite negb_true_iff. split.
  - intros H. apply Qnot_le_lt. intros Hle. apply Qle_bool_iff in Hle. congruence.
  - intros H. apply Qle_bool_false. exact H.
Qed.

Lemma survivors_In (dt window : Q) (old : list Particle) (q : Particle) :
  In q (survivors dt window old) <->
  (exists p, In p old /\ q = decay dt window p) /\ 0 < life q.
Proof.
  unfold survivors. rewrite filter_In, in_map_iff, alive_iff.
  split; intros [(p & H1 & H2) Hl]; (split; [exists p |]); auto.
Qed.

Lemma newest_In (cap : nat) (l : list Particle) (q : Particle) :
  In q (newest cap l) -> In q l.
Proof.
  intros H. destruct (newest_drops_front cap l) as (ev & Hl & _).
  rewrite Hl. apply in_or_app. right. exact H.
Qed.

Lemma newest_survivors_decayed (dt window : Q) (cap : nat) (old : list Particle) :
  decayedPool dt window old (newest cap (survivors dt window old)).
Proof.
  split.
  - intros q Hq. apply newest_In, survivors_In in Hq. tauto.
  - intros p Hp Hdead Hin. apply newest_In, survivors_In in Hin.
    destruct Hin as [_ Hlife]. cbn [decay life] in Hlife. lra.
Qed.

(** C7, as the code has it. On every tick's particle update each particle
    that stays in the primary pool has lost [dt / 800] of its life and moved
    by its velocity, and no particle whose life has reached 0 or less
    stays; the same holds for the ghost pool with [dt / 600] while the ghost
    is active (shown, with a positive total time); while it is not, the
    ghost pool is left exactly as it is. *)
Theorem particles_decay_while_ghost_active (dt : Q) (t : CourseTracker) :
  let t' := _updateParticles random dt t in
  (forall p window,
     life (decay dt window p) = life p - dt / window /\
     p_x (decay dt window p) = p_x p + vx p /\
     p_y (decay dt window p) = p_y p + vy p) /\
  decayedPool dt 800 (particles t ++ [spawnedAthlete random t]) (particles t') /\
  (ghostActive t = true ->
   decayedPool dt 600 (ghostParticles t ++ [spawnedGhost random t]) (ghostParticles t')) /\
  (ghostActive t = false -> ghostParticles t' = ghostParticles t) /\
  (forall now, isPlaying t = true -> dt = tickDelta now t ->
     let u := _checkStations (advance now t) in
     particles u = particles t /\ ghostParticles u = ghostParticles t /\
     ghostActive u = ghostActive t /\
     particles (_tick random now t) = particles (_updateParticles random dt u) /\
     ghostParticles (_tick random now t) = ghostParticles (_updateParticles random dt u)).
Proof.
  cbv zeta. pose proof (updateParticles_pools dt t) as H. cbv zeta in H.
  destruct H as [Hp Hg].
  split; [intros p window; repeat split |].
  split; [rewrite Hp; apply newest_survivors_decayed |].
  split; [intros Ha; rewrite Hg, Ha; apply newest_survivors_decayed |].
  split; [intros Ha; rewrite Hg, Ha; reflexivity |].
  intros now Hplay ->.
  pose proof (checkStations_frame (advance now t)) as Hf. cbv zeta in Hf.
  destruct Hf as (_ & Hgh & _ & _ & _ & _ & _ & _ & Hpa & Hgp).
  split; [exact Hpa |]. split; [exact Hgp |].
  split; [unfold ghostActive; rewrite Hgh; reflexivity |].
  unfold _tick. rewrite Hplay. split; reflexivity.
Qed.

(** ** The gap label *)

Lemma round_pos_iff (v : Q) : (0 < round v)%Z <-> 1#2 <= v.
Proof.
  unfold round. split.
  - intros H. pose proof (Qfloor_le (v + (1#2))) as Hf.
    assert (H1 : 1 <= inject_Z (Qfloor (v + (1#2)))).
    { change 1 with (inject_Z 1). rewrite <- Zle_Qle. lia. }
    lra.
  - intros H. assert (H1 : (Qfloor 1 <= Qfloor (v + (1#2)))%Z)
      by (apply Qfloor_resp_le; lra).
    change (Qfloor 1) with 1%Z in H1. lia.
Qed.

Lemma round_neg_iff (v : Q) : (round v < 0)%Z <-> v < -(1#2).
Proof.
  unfold round. split.
  - intros H. pose proof (Qlt_floor (v + (1#2))) as Hf.
    assert (H1 : inject_Z (Qfloor (v + (1#2)) + 1) <= 0).
    { change 0 with (inject_Z 0). rewrite <- Zle_Qle. lia. }
    lra.
  - intros H. pose proof (Qfloor_le (v + (1#2))) as Hf.
    assert (H1 : inject_Z (Qfloor (v + (1#2))) < inject_Z 0)
      by (change (inject_Z 0) with 0; lra).
    rewrite <- Zlt_Qlt in H1. exact H1.
Qed.

(** C8, as the code has it. With a positive ghost total and a positive
    primary total, [_drawGapTime] computes
    [gapMs = elapsedMs - progress * ghostTotalMs] and shows it rounded to
    whole seconds, [gapSec = Math.round(gapMs / 1000)]: "behind" when
    [gapSec > 0] (a gap of 500 ms or more), "ahead" when [gapSec < 0] (a gap
    below -500 ms) and "even" in between; with a ghost total of 4000 ms, a
    primary total of 3000 ms and 2000 ms elapsed the gap is negative and
    the label reads "-1s ahead!". *)
Theorem gap_label_from_rounded_seconds (t : CourseTracker) :
  0 < ghostTotalMs (ghost t) -> 0 < totalTimeMs (course t) ->
  gapMs t = elapsedMs t - progress t * ghostTotalMs (ghost t) /\
  gapSec t = round (gapMs t / 1000) /\
  ((0 < gapSec t)%Z <-> 500 <= gapMs t) /\
  ((gapSec t < 0)%Z <-> gapMs t < -500) /\
  (exists pill shown,
     _drawGapTime t = Some pill /\
     shown = NilEmpty.string_of_int (Z.to_int (gapSec t)) /\
     ((0 < gapSec t)%Z ->
      pill = {| pillText := ("+" ++ shown ++ "s behind " ++ ghostLabel (ghost t))%string;
                pillColor := ACCENT |}) /\
     ((gapSec t < 0)%Z ->
      pill = {| pillText := (shown ++ "s ahead!")%string; pillColor := NEON |}) /\
     (gapSec t = 0%Z ->
      pill = {| pillText := ("Even with " ++ ghostLabel (ghost t))%string;
                pillColor := "#fff" |})) /\
  (totalTimeMs (course t) == 3000 -> ghostTotalMs (ghost t) == 4000 ->
   elapsedMs t == 2000 -> progress t == Qmin 1 (2000 / 3000) ->
   gapMs t < 0 /\ gapSec t = (-1)%Z /\
   _drawGapTime t = Some {| pillText := "-1s ahead!"; pillColor := NEON |}).
Proof.
  intros Hg Ht.
  assert (Hdraw : _drawGapTime t
    = Some (if (0 <? gapSec t)%Z then
              {| pillText := ("+" ++ NilEmpty.string_of_int (Z.to_int (gapSec t))
                              ++ "s behind " ++ ghostLabel (ghost t))%string;
                 pillColor := ACCENT |}
            else if (gapSec t <? 0)%Z then
              {| pillText := (NilEmpty.string_of_int (Z.to_int (gapSec t))
                              ++ "s ahead!")%string;
                 pillColor := NEON |}
            else
              {| pillText := ("Even with " ++ ghostLabel (ghost t))%string;
                 pillColor := "#fff" |})).
  { unfold _drawGapTime.
    rewrite (Qle_bool_false _ _ Hg), (Qle_bool_false _ _ Ht). reflexivity. }
  split; [reflexivity |]. split; [reflexivity |].
  split; [unfold gapSec; rewrite round_pos_iff;
          change (gapMs t / 1000) with (gapMs t * (1#1000)); split; intros H; lra |].
  split; [unfold gapSec; rewrite round_neg_iff;
          change (gapMs t / 1000) with (gapMs t * (1#1000)); split; intros H; lra |].
  split.
  - eexists _, _. split; [exact Hdraw |]. split; [reflexivity |].
    split; [| split].
    + intros H. apply Z.ltb_lt in H. rewrite H. reflexivity.
    + intros H. assert (H0 : (0 <? gapSec t)%Z = false) by (apply Z.ltb_ge; lia).
      apply Z.ltb_lt in H. rewrite H0, H. reflexivity.
    + intros H. rewrite H. reflexivity.
  - intros H1 H2 H3 H4.
    assert (Hp : progress t == 2#3).
    { rewrite H4. rewrite Q.min_r by (unfold Qle; simpl; lia). reflexivity. }
    assert (Hgap : gapMs t == -(2000#3)).
    { unfold gapMs. rewrite H3, Hp, H2. reflexivity. }
    assert (Hsec : gapSec t = (-1)%Z).
    { unfold gapSec, round. rewrite Hgap. reflexivity. }
    split; [rewrite Hgap; reflexivity |]. split; [exact Hsec |].
    rewrite Hdraw, Hsec. reflexivity.
Qed.

End TrackerFacts.

(* ================================================================== *)
(** * Facts about the constructor *)
(* ================================================================== *)

Section ConstructFacts.
Import Spline Tracker Notions.

Variable sqrt : Q -> Q.
Hypothesis sqrt_nonneg : forall v, 0 <= sqrt v.
Hypothesis sqrt_pos : forall v, 0 < v -> 0 < sqrt v.

(** The thresholds of a new tracker are the station progress map of its
    stations, at 30 samples per segment. *)
Lemma construct_stationProgresses (stations : list Station) (ss gs : list Split)
    (label : option string) :
  stationProgresses (course (construct sqrt stations ss gs label))
  = stationProgressMap sqrt (map pos stations) 30.
Proof.
  unfold construct. destruct (buildTimeline ss), (buildTimeline gs).
  cbn [course stationProgresses]. unfold stationProgressMap.
  rewrite length_map. reflexivity.
Qed.

(** Every new tracker has its thresholds in station order. *)
Lemma construct_nondecreasing (stations : list Station) (ss gs : list Split)
    (label : option string) :
  nondecreasing (stationProgresses (course (construct sqrt stations ss gs label))).
Proof.
  rewrite construct_stationProgresses. intros i j Hij.
  unfold stationProgressMap in Hij. rewrite length_map, length_seq in Hij.
  apply stationProgressMap_nondecreasing; try assumption. lia.
Qed.

End ConstructFacts.

(* ================================================================== *)
(** * Facts about the station model *)
(* ================================================================== *)

Section StationFacts.
Import StationModel StationNotions.

(** Any [JSON.parse]. *)
Variable parse : string -> Result JsValue.

Lemma getProp_object (props : list (string * JsValue)) (k : string) :
  exists w, getProp (JObj props) k = Ok w.
Proof. cbn [getProp]. destruct (propLookup k props); eexists; reflexivity. Qed.

Lemma getProp_truthy (v : JsValue) (k : string) :
  truthy v = true -> exists w, getProp v k = Ok w.
Proof.
  destruct v; cbn [truthy getProp]; intros H; try discriminate;
    try (eexists; reflexivity).
  destruct (propLookup k props); eexists; reflexivity.
Qed.

(** One round of the station loop on an object: the entry of station [i]
    is appended when it is present, and nothing is thrown. *)
Lemma pushStation_object (props : list (string * JsValue))
    (points : list StationPoint) (i : nat) :
  exists extra,
    pushStation (JObj props) points i = Ok (points ++ extra) /\
    map sp_num extra = map Z.of_nat (filter (present props) [i]).
Proof.
  unfold pushStation, present. cbn [getProp filter].
  destruct (propLookup (stationKey i) props) as [w |]; cbn [bind truthy].
  - destruct (truthy w) eqn:Hw.
    + destruct (getProp_truthy w "x" Hw) as (x & ->).
      destruct (getProp_truthy w "y" Hw) as (y & ->).
      destruct (getProp_truthy w "name" Hw) as (n & ->).
      cbn [bind]. eexists. split; reflexivity.
    + exists []. rewrite app_nil_r. split; reflexivity.
  - exists []. rewrite app_nil_r. split; reflexivity.
Qed.

Lemma pushStations_object (props : list (string * JsValue)) (indices : list nat) :
  forall points, exists extra,
    pushStations (JObj props) points indices = Ok (points ++ extra) /\
    map sp_num extra = map Z.of_nat (filter (present props) indices).
Proof.
  induction indices as [| i indices IH]; intros points.
  - exists []. rewrite app_nil_r. split; reflexivity.
  - cbn [pushStations].
    destruct (pushStation_object props points i) as (e1 & -> & Hn1).
    cbn [bind].
    destruct (IH (points ++ e1)) as (e2 & -> & Hn2).
    exists (e1 ++ e2). rewrite app_assoc. split; [reflexivity |].
    rewrite map_app, Hn1, Hn2, <- map_app. f_equal.
    cbn [filter]. destruct (present props i); reflexivity.
Qed.

Lemma station_numbers_sorted (f : nat -> bool) (a n : nat) :
  StronglySorted Z.lt (map Z.of_nat (filter f (seq a n))) /\
  Forall (fun z => (Z.of_nat a <= z < Z.of_nat (a + n))%Z)
         (map Z.of_nat (filter f (seq a n))).
Proof.
  split.
  - pose proof (filter_sorted f _ (seq_sorted n a)) as H.
    induction H as [| b l Hs IH Hall]; cbn [map]; constructor; [exact IH |].
    rewrite Forall_map. eapply Forall_impl; [| exact Hall]. cbv beta. intros; lia.
  - rewrite Forall_map. apply Forall_forall. intros i Hi.
    apply filter_In in Hi. destruct Hi as [Hi _]. apply in_seq in Hi. lia.
Qed.

(** C5, as the code has it. For every waypoint mapping given as an object
    [buildStationPoints] returns a station sequence and does not throw: the
    numbered stations in ascending order, after the start/finish marker
    when special markers are asked for, the transition marker spliced in at
    the middle; the empty mapping gives the empty sequence; a string is
    parsed first, and when it is the JSON text of a mapping the result is
    that of the mapping, while a parse failure is thrown on to the
    caller. *)
Theorem buildStationPoints_on_mappings
    (props : list (string * JsValue)) (includeSpecial : bool) :
  (exists points core,
     buildStationPoints parse (JObj props) includeSpecial = Ok points /\
     StronglySorted Z.lt (map sp_num core) /\
     Forall (fun s => (0 <= sp_num s <= 8)%Z) core /\
     (points = core \/
      includeSpecial = true /\
      exists rz, sp_key rz = "roxzone"%string /\
                 points = spliceIn (length core / 2) rz core) /\
     (includeSpecial = false ->
      points = core /\ Forall (fun s => (1 <= sp_num s)%Z) core)) /\
  buildStationPoints parse (JObj []) includeSpecial = Ok [] /\
  (forall text props',
     parse text = Ok (JObj props') ->
     buildStationPoints parse (JStr text) includeSpecial
     = buildStationPoints parse (JObj props') includeSpecial) /\
  (forall text e,
     parse text = Throw e ->
     buildStationPoints parse (JStr text) includeSpecial = Throw e).
Proof.
  split; [| split; [destruct includeSpecial; reflexivity | split]].
  - destruct (station_numbers_sorted (present props) 1 8) as [Hsorted Hrange].
    unfold buildStationPoints. cbn [bind].
    destruct includeSpecial.
    + destruct (getProp_object props "start_finish") as (sf & ->). cbn [bind].
      assert (Hfirst : exists first,
                (if truthy sf
                 then x <- getProp sf "x" ;; y <- getProp sf "y" ;;
                      Ok [mkStationPoint x y "start_finish" (JStr "Start/Finish") 0]
                 else Ok []) = Ok first /\
                (first = [] \/ exists s, first = [s] /\ sp_num s = 0%Z)).
      { destruct (truthy sf) eqn:Hsf.
        - destruct (getProp_truthy sf "x" Hsf) as (x & ->).
          destruct (getProp_truthy sf "y" Hsf) as (y & ->).
          cbn [bind]. eexists. split; [reflexivity |]. right. eexists. split; reflexivity.
        - exists []. split; [reflexivity | left; reflexivity]. }
      destruct Hfirst as (first & -> & Hfirst). cbn [bind].
      destruct (pushStations_object props (seq 1 8) first) as (extra & -> & Hnum).
      cbn [bind].
      assert (Hcore : StronglySorted Z.lt (map sp_num (first ++ extra)) /\
                      Forall (fun s => (0 <= sp_num s <= 8)%Z) (first ++ extra)).
      { rewrite <- Hnum in Hsorted, Hrange. rewrite Forall_map in Hrange.
        destruct Hfirst as [-> | (s0 & -> & Hs0)]; cbn [app map].
        - split; [exact Hsorted |].
          eapply Forall_impl; [| exact Hrange]. cbv beta. intros; lia.
        - split.
          + constructor; [exact Hsorted |]. rewrite Forall_map.
            eapply Forall_impl; [| exact Hrange]. cbv beta. intros; lia.
          + constructor; [lia |].
            eapply Forall_impl; [| exact Hrange]. cbv beta. intros; lia. }
      destruct Hcore as [Hcs Hcr].
      destruct (getProp_object props "roxzone") as (rz & ->). cbn [bind].
      destruct (truthy rz) eqn:Hrz.
      * destruct (getProp_truthy rz "x" Hrz) as (x & ->).
        destruct (getProp_truthy rz "y" Hrz) as (y & ->).
        cbn [bind]. eexists _, (first ++ extra).
        split; [reflexivity |]. split; [exact Hcs |]. split; [exact Hcr |].
        split; [| discriminate].
        right. split; [reflexivity |]. eexists. split; [| reflexivity]. reflexivity.
      * exists (first ++ extra), (first ++ extra).
        split; [reflexivity |]. split; [exact Hcs |]. split; [exact Hcr |].
        split; [left; reflexivity | discriminate].
    + cbn [bind].
      destruct (pushStations_object props (seq 1 8) []) as (extra & -> & Hnum).
      cbn [bind app].
      rewrite <- Hnum in Hsorted, Hrange. rewrite Forall_map in Hrange.
      exists extra, extra.
      split; [reflexivity |]. split; [exact Hsorted |].
      split; [eapply Forall_impl; [| exact Hrange]; cbv beta; intros; lia |].
      split; [left; reflexivity |]. intros _. split; [reflexivity |].
      eapply Forall_impl; [| exact Hrange]. cbv beta. intros; lia.
  - intros text props' Hparse. unfold buildStationPoints. rewrite Hparse. reflexivity.
  - intros text e Hparse. unfold buildStationPoints. rewrite Hparse. reflexivity.
Qed.

End StationFacts.

(* ================================================================== *)
(** * Worked examples *)
(* ================================================================== *)

Section Worked.
Import Spline StationModel Tracker Notions Examples.

Lemma sqrtQ_nonneg (v : Q) : 0 <= sqrtQ v.
Proof.
  unfold sqrtQ, Qle. cbn [Qnum Qden]. rewrite Z.mul_1_r.
  pose proof (Z.sqrt_nonneg (Qnum v * Z.pos (Qden v))). lia.
Qed.

Lemma sqrtQ_pos (v : Q) : 0 < v -> 0 < sqrtQ v.
Proof.
  unfold sqrtQ, Qlt. cbn [Qnum Qden]. rewrite !Z.mul_1_r. intros Hv.
  apply Z.sqrt_pos. nia.
Qed.

Lemma sorted_nondecreasing (l : list Q) : StronglySorted Qle l -> nondecreasing l.
Proof. intros Hs i j Hij. apply sorted_nth_le; assumption. Qed.

Lemma threeThresholds_nondecreasing :
  nondecreasing (stationProgresses (course threeThresholds)).
Proof.
  apply sorted_nondecreasing. cbn [threeThresholds course stationProgresses].
  repeat constructor; unfold Qle; cbn; lia.
Qed.

(** A 3000 ms course at speed 10: a frame 150 ms after the last one brings
    the elapsed time to 1500 ms and the progress to 1/2, and crosses the
    stations 0 and 1. *)
Example half_way_after_150ms :
  let t := _tick half 1150 threeThresholds in
  elapsedMs t == 1500 /\ progress t == 1#2 /\ isPlaying t = true /\
  crossings (events (host t)) = [0; 1]%nat /\ lastStationIndex t = 1%Z.
Proof. cbv zeta. repeat split; vm_compute; reflexivity. Qed.

(** A frame one second after the last one overshoots the course: the
    progress is clamped to 1, all three stations fire in order within the
    tick, then [onComplete()], and the playback stops. *)
Example one_tick_crosses_all_stations :
  let t := _tick half 2000 threeThresholds in
  elapsedMs t == 10000 /\ progress t == 1 /\ isPlaying t = false /\
  crossings (events (host t)) = [0; 1; 2]%nat /\
  completions (events (host t)) = 1%nat /\
  lastStationIndex t = 2%Z.
Proof. cbv zeta. repeat split; vm_compute; reflexivity. Qed.

(** Sixty frames 10 ms apart keep every particle alive (a primary particle
    lives 800 ms, a ghost particle 600 ms): both pools are full. *)
Example pools_full_after_sixty_frames :
  length (particles sixtyFrames) = 30%nat /\
  length (ghostParticles sixtyFrames) = 20%nat.
Proof. split; vm_compute; reflexivity. Qed.

(** C1 at a playing tracker, 150 ms after its last frame, speed 10. *)
Lemma tick_advances_time_and_progress_witness :
  isPlaying threeThresholds = true /\
  elapsedMs (_tick half 1150 threeThresholds)
  = elapsedMs threeThresholds + tickDelta 1150 threeThresholds * speed threeThresholds.
Proof.
  split; [reflexivity |].
  exact (proj1 (tick_advances_time_and_progress half 1150 threeThresholds eq_refl)).
Defined.

(** C2 on a freshly constructed tracker of two stations. *)
Lemma crossings_fire_once_in_order_witness :
  let t := construct sqrtQ twoStations (oneSplit 100000) [] None in
  nondecreasing (stationProgresses (course t)) /\
  forall ops, sameCycle half ops t = true ->
    exists new,
      events (host (run half ops t)) = events (host t) ++ new /\
      StronglySorted lt (crossings new) /\
      NoDup (crossings new) /\
      crossingsWithin (lastStationIndex t) (lastStationIndex (run half ops t)) new.
Proof.
  cbv zeta.
  assert (H : nondecreasing
                (stationProgresses
                   (course (construct sqrtQ twoStations (oneSplit 100000) [] None))))
    by (apply construct_nondecreasing; [exact sqrtQ_nonneg | exact sqrtQ_pos]).
  split; [exact H |].
  exact (proj2 (proj2 (crossings_fire_once_in_order half _ H))).
Defined.

(** Three stations, 30 samples per segment. *)
Lemma path_starts_and_ends_at_stations_witness :
  (1 <= 30)%nat /\
  pt_eq (getPositionAtProgress
           (generateSplinePath [mkPoint 0 0; mkPoint 100 0; mkPoint 100 100] 30) 1)
        (mkPoint 100 100).
Proof.
  assert (H : (1 <= 30)%nat) by (apply Nat.leb_le; reflexivity).
  split; [exact H |].
  exact (proj2 (proj2 (proj2 (proj2
           (path_starts_and_ends_at_stations (mkPoint 0 0)
              [mkPoint 100 0; mkPoint 100 100] 30 H))))).
Defined.

(** C3. Run on binary64 numbers, [generateSplinePath] does not end a path
    of exactly two stations at the last station: for the stations
    (1.1, 50) and (6.3, 50) at 30 samples per segment the last sample is
    [1.1 + (6.3 - 1.1) * 1 = 6.299999999999999], and so is
    [getPositionAtProgress(path, 1)], while the first sample and
    [getPositionAtProgress(path, 0)] are the first station.  The branch for
    three or more stations pushes the last station itself and ends on it. *)
Theorem two_station_path_misses_last_station :
  let path := SplineIEEE.generateSplinePath
                [SplineIEEE.stationA; SplineIEEE.stationB] 30 in
  let path3 := SplineIEEE.generateSplinePath
                 [SplineIEEE.stationC; SplineIEEE.stationA; SplineIEEE.stationB] 30 in
  length path = 31%nat /\
  SplineIEEE.samePoint (hd SplineIEEE.stationC path) SplineIEEE.stationA = true /\
  SplineIEEE.samePoint (SplineIEEE.getPositionAtProgress path SplineIEEE.atStart)
                       SplineIEEE.stationA = true /\
  SplineIEEE.samePoint (last path SplineIEEE.stationC) SplineIEEE.stationB = false /\
  SplineIEEE.samePoint (SplineIEEE.getPositionAtProgress path SplineIEEE.atEnd)
                       SplineIEEE.stationB = false /\
  PrimFloat.ltb (SplineIEEE.px (SplineIEEE.getPositionAtProgress path SplineIEEE.atEnd))
                (SplineIEEE.px SplineIEEE.stationB) = true /\
  SplineIEEE.samePoint (last path3 SplineIEEE.stationC) SplineIEEE.stationB = true /\
  SplineIEEE.samePoint (SplineIEEE.getPositionAtProgress path3 SplineIEEE.atEnd)
                       SplineIEEE.stationB = true.
Proof. cbv zeta. repeat split; vm_compute; reflexivity. Qed.

(** C5: a string that is not JSON text and a missing mapping both make
    [buildStationPoints] throw. *)
Lemma buildStationPoints_throws_on_malformed_input :
  buildStationPoints JSON_parse (JStr "not json") false = Throw SyntaxError /\
  buildStationPoints JSON_parse (JStr "{station_1: [10, 20]}") true = Throw SyntaxError /\
  buildStationPoints JSON_parse JUndefined false = Throw TypeError.
Proof. repeat split; vm_compute; reflexivity. Qed.

(** C7: with the ghost hidden, a one-second tick leaves the two particles
    of the ghost pool in place, with the life they had, although a decay of
    [1000 / 600] would use them up; the primary pool is emptied by the
    same tick. *)
Lemma hidden_ghost_pool_does_not_decay :
  let t := hiddenGhost in
  let t' := step half t (OpFrame 2016) in
  isPlaying t = true /\
  tickDelta 2016 t = 1000 /\
  length (particles t) = 2%nat /\
  length (ghostParticles t) = 2%nat /\
  forallb (fun p => Qle_bool (life p - 1000 / 600) 0) (ghostParticles t) = true /\
  particles t' = [] /\
  ghostParticles t' = ghostParticles t.
Proof. cbv zeta. repeat split; vm_compute; reflexivity. Qed.

(** C8: one second into a 4000 ms course against a 3000 ms ghost the gap
    is 250 ms, a positive value, and the label reads "Even with PRO". *)
Lemma small_positive_gap_reads_even :
  0 < ghostTotalMs (ghost slightlyBehind) /\
  0 < totalTimeMs (course slightlyBehind) /\
  isPlaying slightlyBehind = true /\
  gapMs slightlyBehind == 250 /\
  0 < gapMs slightlyBehind /\
  _drawGapTime slightlyBehind
  = Some {| pillText := "Even with PRO"; pillColor := "#fff" |} /\
  drawnGap slightlyBehind
  = Some {| pillText := "Even with PRO"; pillColor := "#fff" |}.
Proof. repeat split; vm_compute; reflexivity. Qed.

(** C8 two seconds into a 3000 ms course against a 4000 ms ghost. *)
Lemma gap_label_from_rounded_seconds_witness :
  0 < ghostTotalMs (ghost clearlyAhead) /\
  0 < totalTimeMs (course clearlyAhead) /\
  ((gapSec clearlyAhead < 0)%Z <-> gapMs clearlyAhead < -500).
Proof.
  assert (Hg : 0 < ghostTotalMs (ghost clearlyAhead)) by (vm_compute; reflexivity).
  assert (Ht : 0 < totalTimeMs (course clearlyAhead)) by (vm_compute; reflexivity).
  split; [exact Hg |]. split; [exact Ht |].
  exact (proj1 (proj2 (proj2 (proj2
           (gap_label_from_rounded_seconds clearlyAhead Hg Ht))))).
Defined.

(** C9 on three stations, two samples per segment. *)
Lemma station_progress_map_monotone_witness :
  let points := [mkPoint 0 0; mkPoint 3 4; mkPoint 3 0] in
  (2 <= length points)%nat /\
  (1 <= 2)%nat /\
  (exists a b, In a points /\ In b points /\ ~ pt_eq a b) /\
  nth (length points - 1) (stationProgressMap sqrtQ points 2) 0 == 1.
Proof.
  cbv zeta.
  assert (H2 : (2 <= length [mkPoint 0 0; mkPoint 3 4; mkPoint 3 0])%nat)
    by (apply Nat.leb_le; reflexivity).
  assert (H1 : (1 <= 2)%nat) by (apply Nat.leb_le; reflexivity).
  assert (Hd : exists a b, In a [mkPoint 0 0; mkPoint 3 4; mkPoint 3 0] /\
                           In b [mkPoint 0 0; mkPoint 3 4; mkPoint 3 0] /\ ~ pt_eq a b).
  { exists (mkPoint 0 0), (mkPoint 3 4).
    split; [left; reflexivity |]. split; [right; left; reflexivity |].
    intros [Hx _]. discriminate Hx. }
  split; [exact H2 |]. split; [exact H1 |]. split; [exact Hd |].
  exact (proj2 (proj2 (proj2
           (station_progress_map_monotone sqrtQ sqrtQ_nonneg sqrtQ_pos
              [mkPoint 0 0; mkPoint 3 4; mkPoint 3 0] 2 H2 H1 Hd)))).
Defined.

(** C10 at a playing tracker. *)
Lemma play_while_playing_is_noop_witness :
  isPlaying threeThresholds = true /\
  play half 2000 2000 threeThresholds = threeThresholds.
Proof.
  split; [reflexivity |].
  exact (play_while_playing_is_noop half 2000 2000 threeThresholds eq_refl).
Defined.

End Worked.

(* ================================================================== *)
(** * More on the path geometry *)
(* ================================================================== *)

Section GeometryFacts.
Import Spline Notions.

Lemma nth_flat_map_block {A B : Type} (f : A -> list B) (m : nat) (l : list A)
    (i j : nat) (da : A) (d : B) :
  (forall a, length (f a) = m) -> (i < length l)%nat -> (j < m)%nat ->
  nth (i * m + j) (flat_map f l) d = nth j (f (nth i l da)) d.
Proof.
  intros Hm. revert i. induction l as [| a l IH]; intros i Hi Hj; [cbn in Hi; lia |].
  cbn [flat_map]. destruct i as [| i].
  - cbn [Nat.mul Nat.add nth]. rewrite app_nth1 by (rewrite Hm; exact Hj). reflexivity.
  - rewrite app_nth2 by (rewrite Hm; cbn [Nat.mul]; lia).
    rewrite Hm. replace (S i * m + j - m)%nat with (i * m + j)%nat by (cbn [Nat.mul]; lia).
    cbn [nth]. apply IH; [cbn [length] in Hi; lia | exact Hj].
Qed.





Lemma clamp_inside (p : Q) : 0 <= p <= 1 -> Qmax 0 (Qmin 1 p) == p.
Proof.
  intros [H0 H1]. rewrite Q.min_r by exact H1. apply Q.max_r. exact H0.
Qed.


(** At the progress [i / (length - 1)] the position is sample [i]. *)
Lemma getPositionAtProgress_at_sample (path : list Point) (i : nat) (p : Q) :
  (2 <= length path)%nat -> (i < length path)%nat ->
  p * QofNat (length path - 1) == QofNat i ->
  pt_eq (getPositionAtProgress path p) (at_ path (Z.of_nat i)).
Proof.
  intros Hlen Hi Hp. unfold getPositionAtProgress.
  destruct path as [| a rest]; [cbn in Hlen; lia |]. cbv zeta.
  set (len := length (a :: rest)) in *.
  assert (Hk : inject_Z (Z.of_nat len - 1) = QofNat (len - 1)).
  { unfold QofNat. f_equal. lia. }
  rewrite Hk.
  assert (Hkpos : 0 < QofNat (len - 1)) by (apply QofNat_pos; lia).
  assert (Hile : QofNat i <= QofNat (len - 1)).
  { unfold QofNat. rewrite <- Zle_Qle. lia. }
  assert (Hi0 : 0 <= QofNat i).
  { unfold QofNat. change 0 with (inject_Z 0). rewrite <- Zle_Qle. lia. }
  assert (Hp01 : 0 <= p <= 1) by (split; nra).
  assert (Hidx : Qmax 0 (Qmin 1 p) * QofNat (len - 1) == inject_Z (Z.of_nat i)).
  { rewrite (clamp_inside p Hp01). exact Hp. }
  assert (Hlow : Qfloor (Qmax 0 (Qmin 1 p) * QofNat (len - 1)) = Z.of_nat i).
  { rewrite Hidx. apply Qfloor_Z. }
  rewrite Hlow.
  split; cbn [px py]; rewrite Hidx; ring.
Qed.


(** Sample [k * segments] of a path is station [k]. *)
Lemma generateSplinePath_at_station (points : list Point) (segments k : nat) :
  (2 <= length points)%nat -> (1 <= segments)%nat -> (k < length points)%nat ->
  pt_eq (at_ (generateSplinePath points segments) (Z.of_nat (k * segments)))
        (at_ points (Z.of_nat k)).
Proof.
  intros Hn Hs Hk. unfold at_ at 1. rewrite Nat2Z.id.
  destruct points as [| a [| b [| c rest]]]; cbn [length] in Hn; try lia.
  - unfold generateSplinePath.
    cbn [length] in Hk.
    assert (Hk' : k = 0%nat \/ k = 1%nat) by lia.
    destruct Hk' as [-> | ->].
    + rewrite nth_map_seq by lia. apply linearSample_first.
    + rewrite Nat.mul_1_l, nth_map_seq by lia. apply linearSample_last, Hs.
  - set (points := a :: b :: c :: rest) in *.
    assert (Hpath : generateSplinePath points segments
                    = flat_map (splineSegment points segments) (seq 0 (length points - 1))
                      ++ [mkPoint (px (at_ points (Z.of_nat (length points) - 1)))
                                  (py (at_ points (Z.of_nat (length points) - 1)))])
      by reflexivity.
    rewrite Hpath.
    assert (Hflat : length (flat_map (splineSegment points segments)
                              (seq 0 (length points - 1)))
                    = ((length points - 1) * segments)%nat).
    { rewrite (flat_map_length_const _ segments) by (intros i; apply splineSegment_length).
      rewrite length_seq. reflexivity. }
    destruct (Nat.eq_dec k (length points - 1)) as [Hlast | Hnot].
    + rewrite app_nth2 by (rewrite Hflat, Hlast; lia).
      rewrite Hflat, Hlast, Nat.sub_diag. cbn [nth].
      replace (Z.of_nat (length points - 1)) with (Z.of_nat (length points) - 1)%Z by lia.
      split; reflexivity.
    + rewrite app_nth1 by (rewrite Hflat; nia).
      replace (k * segments)%nat with (k * segments + 0)%nat by lia.
      rewrite (nth_flat_map_block _ segments _ k 0 0%nat)
        by (try (intros i; apply splineSegment_length); rewrite ?length_seq; lia).
      rewrite seq_nth by lia. cbn [Nat.add].
      destruct (splineSegment_first points segments k a Hs) as (tl & first & Hseg & Hfirst).
      rewrite Hseg. cbn [nth]. exact Hfirst.
Qed.

(** X1. In exact arithmetic, a path generated from two or more stations passes
    through every station: station [k] is sample [k * segments] of the
    path, the sample [stationToProgress] reads the station's threshold
    from, and it is the position at the progress [k / (n - 1)]. *)
Theorem path_passes_through_every_station (points : list Point) (segments k : nat) :
  (2 <= length points)%nat -> (1 <= segments)%nat -> (k < length points)%nat ->
  let path := generateSplinePath points segments in
  (k * segments < length path)%nat /\
  pt_eq (at_ path (Z.of_nat (k * segments))) (at_ points (Z.of_nat k)) /\
  pt_eq (getPositionAtProgress path (QofNat k / QofNat (length points - 1)))
        (at_ points (Z.of_nat k)).
Proof.
  intros Hn Hs Hk path.
  assert (Hlen : length path = ((length points - 1) * segments + 1)%nat)
    by (apply generateSplinePath_length, Hn).
  assert (Hin : (k * segments < length path)%nat) by (rewrite Hlen; nia).
  pose proof (generateSplinePath_at_station points segments k Hn Hs Hk) as Hat.
  split; [exact Hin |]. split; [exact Hat |].
  eapply pt_eq_trans; [| exact Hat].
  apply getPositionAtProgress_at_sample; [fold path; rewrite Hlen; nia | exact Hin |].
  fold path. rewrite Hlen.
  replace ((length points - 1) * segments + 1 - 1)%nat
    with ((length points - 1) * segments)%nat by lia.
  assert (Hpos : 0 < QofNat (length points - 1)) by (apply QofNat_pos; lia).
  unfold QofNat in *. rewrite !Nat2Z.inj_mul, !inject_Z_mult. field. lra.
Qed.

(** X2. In exact arithmetic, the path between exactly two stations is the
    straight segment between them, run through at constant speed: at the
    progress [p] between 0 and 1 the position is [a + (b - a) * p], the
    midpoint at 1/2. *)
Theorem two_station_path_is_straight (a b : Point) (segments : nat) (p : Q) :
  (1 <= segments)%nat -> 0 <= p <= 1 ->
  let r := getPositionAtProgress (generateSplinePath [a; b] segments) p in
  px r == px a + (px b - px a) * p /\
  py r == py a + (py b - py a) * p.
Proof.
  intros Hs Hp r. subst r.
  unfold generateSplinePath, getPositionAtProgress.
  destruct (map (linearSample a b segments) (seq 0 (S segments))) as [| q rest] eqn:Hpath;
    [discriminate |].
  rewrite <- Hpath. cbv zeta.
  rewrite length_map, length_seq.
  replace (Z.of_nat (S segments) - 1)%Z with (Z.of_nat segments) by lia.
  set (c := Qmax 0 (Qmin 1 p)).
  assert (Hc : c == p) by (apply clamp_inside, Hp).
  assert (Hc01 : 0 <= c <= 1) by (rewrite Hc; exact Hp).
  clearbody c.
  set (k := inject_Z (Z.of_nat segments)).
  assert (Hk : 1 <= k).
  { subst k. change 1 with (inject_Z 1). rewrite <- Zle_Qle. lia. }
  set (lower := Qfloor (c * k)).
  assert (Hfl : inject_Z lower <= c * k < inject_Z lower + 1).
  { subst lower. split; [apply Qfloor_le |].
    pose proof (Qlt_floor (c * k)) as Hlt. rewrite inject_Z_plus in Hlt. exact Hlt. }
  assert (Hl0 : (0 <= lower)%Z).
  { subst lower. change 0%Z with (Qfloor 0). apply Qfloor_resp_le.
    apply Qmult_le_0_compat; lra. }
  assert (Hl1 : (lower <= Z.of_nat segments)%Z).
  { subst lower. rewrite <- (Qfloor_Z (Z.of_nat segments)). apply Qfloor_resp_le.
    fold k. destruct Hc01 as [_ Hc1]. nra. }
  clearbody lower.
  assert (Hat : forall i : Z, (0 <= i <= Z.of_nat segments)%Z ->
            at_ (map (linearSample a b segments) (seq 0 (S segments))) i
            = linearSample a b segments (Z.to_nat i)).
  { intros i Hi. unfold at_. apply nth_map_seq. lia. }
  rewrite (Hat lower) by lia.
  rewrite (Hat (Z.min (lower + 1) (Z.of_nat segments))) by lia.
  unfold linearSample. cbn [px py].
  assert (Hq : forall i : Z, (0 <= i)%Z -> QofNat (Z.to_nat i) = inject_Z i).
  { intros i Hi. unfold QofNat. rewrite Z2Nat.id by exact Hi. reflexivity. }
  rewrite (Hq lower) by lia.
  rewrite (Hq (Z.min (lower + 1) (Z.of_nat segments))) by lia.
  change (QofNat segments) with k.
  destruct (Z.eq_dec lower (Z.of_nat segments)) as [Heq | Hneq].
  - rewrite Z.min_r by lia. rewrite Heq in *. fold k in Hfl.
    assert (Hc1 : c == 1) by (destruct Hc01 as [_ Hc1]; apply Qle_antisym; [exact Hc1 | nra]).
    fold k. clearbody k. rewrite <- Hc, Hc1. split; field; lra.
  - rewrite Z.min_l by lia. rewrite inject_Z_plus. change (inject_Z 1) with 1.
    clearbody k. rewrite <- Hc. split; field; lra.
Qed.


End GeometryFacts.

(* ================================================================== *)
(** * Sessions: what holds in every state a page can reach *)
(* ================================================================== *)

Section SessionFacts.
Import Spline Tracker Notions SessionNotions Canvas.

Variable random : nat -> Q.

Lemma checkStation_queue (t : CourseTracker) (i : nat) :
  rafQueue (host (checkStation t i)) = rafQueue (host t) /\
  rafNext (host (checkStation t i)) = rafNext (host t) /\
  randomCalls (host (checkStation t i)) = randomCalls (host t).
Proof.
  unfold checkStation.
  destruct (Qle_bool _ _ && _)%bool; repeat split.
Qed.

Lemma checkStations_queue (t : CourseTracker) :
  rafQueue (host (_checkStations t)) = rafQueue (host t) /\
  rafNext (host (_checkStations t)) = rafNext (host t).
Proof.
  unfold _checkStations. split.
  - apply (fold_left_proj checkStation (fun u => rafQueue (host u))).
    intros a b. apply checkStation_queue.
  - apply (fold_left_proj checkStation (fun u => rafNext (host u))).
    intros a b. apply checkStation_queue.
Qed.

(** What a tick leaves in the request queue. *)
Lemma tick_queue (now : Q) (t : CourseTracker) :
  isPlaying t = true ->
  let t' := _tick random now t in
  let completed := Qle_bool 1 (progress (advance now t)) in
  rafQueue (host t')
  = (if completed then rafQueue (host t)
     else rafQueue (host t) ++ [(rafNext (host t), RunTick)]) /\
  rafNext (host t') = (if completed then rafNext (host t) else S (rafNext (host t))) /\
  animFrameId t' = (if completed then animFrameId t else Some (rafNext (host t))) /\
  isPlaying t' = negb completed.
Proof.
  intros Hp. unfold _tick. rewrite Hp. cbn [negb]. cbv zeta.
  destruct (checkStations_queue (advance now t)) as [Hq Hn].
  pose proof (checkStations_frame random (advance now t)) as Hf. cbv zeta in Hf.
  destruct Hf as (_ & _ & Hi & Hpr & _ & _ & _ & Ha & _).
  unfold completeOrSchedule, fadeSplit, _updateParticles.
  cbn [requestAnimationFrame host progress animFrameId isPlaying drawn rafQueue rafNext].
  rewrite Hpr, Ha, Hi.
  destruct (Qle_bool 1 (progress (advance now t)));
    unfold emit, drawn; cbn [rafQueue rafNext];
    rewrite ?Hq, ?Hn; cbn [advance host animFrameId isPlaying]; rewrite ?Hp;
    repeat split.
Qed.


(** The particle pools a tick leaves. *)
Lemma tick_pools (now : Q) (t : CourseTracker) :
  isPlaying t = true ->
  let u := _checkStations (advance now t) in
  let dt := tickDelta now t in
  particles (_tick random now t) = particles (_updateParticles random dt u) /\
  ghostParticles (_tick random now t) = ghostParticles (_updateParticles random dt u) /\
  particles u = particles t /\ ghostParticles u = ghostParticles t.
Proof.
  intros Hp. unfold _tick. rewrite Hp. cbn [negb]. cbv zeta.
  pose proof (checkStations_frame random (advance now t)) as Hf. cbv zeta in Hf.
  destruct Hf as (_ & _ & _ & _ & _ & _ & _ & _ & Hps & Hgs).
  unfold completeOrSchedule, fadeSplit.
  cbn [requestAnimationFrame particles ghostParticles].
  rewrite Hps, Hgs. repeat split.
Qed.

(** ** One frame loop *)

Lemma tickRequests_app (q1 q2 : list (nat * Callback)) (n r : nat) (es : list Event) :
  tickRequests {| rafQueue := q1 ++ q2; rafNext := n; randomCalls := r; events := es |}
  = tickRequests {| rafQueue := q1; rafNext := n; randomCalls := r; events := es |}
    ++ tickRequests {| rafQueue := q2; rafNext := n; randomCalls := r; events := es |}.
Proof.
  unfold tickRequests. cbn [rafQueue]. rewrite filter_app, map_app. reflexivity.
Qed.

Lemma tickRequests_queue (h h' : Host) :
  rafQueue h' = rafQueue h -> tickRequests h' = tickRequests h.
Proof. unfold tickRequests. intros ->. reflexivity. Qed.

Lemma tickRequests_cancel (id : nat) (h : Host) :
  tickRequests (cancelAnimationFrame id h)
  = filter (fun k => negb (k =? id)%nat) (tickRequests h).
Proof.
  unfold tickRequests, cancelAnimationFrame. cbn [rafQueue].
  induction (rafQueue h) as [| [k cb] q IH]; [reflexivity |].
  cbn [filter fst snd map].
  destruct (k =? id)%nat eqn:Hk; cbn [negb].
  - destruct cb; cbn [snd map filter fst]; rewrite ?Hk; cbn [negb]; exact IH.
  - cbn [filter snd]. destruct cb; cbn [map filter fst]; rewrite ?Hk; cbn [negb];
      rewrite IH; reflexivity.
Qed.

(** A tick of a playing tracker that has no [_tick] queued restores the
    loop invariant. *)
Lemma tick_loop (now : Q) (t : CourseTracker) :
  isPlaying t = true -> (1 <= rafNext (host t))%nat -> tickRequests (host t) = [] ->
  loopInv (_tick random now t).
Proof.
  intros Hp Hn Hq.
  destruct (tick_queue now t Hp) as (Hq' & Hn' & Ha' & Hi'). cbv zeta in *.
  unfold loopInv, oneLoop. rewrite Hi', Hn'.
  destruct (Qle_bool 1 (progress (advance now t))); cbn [negb].
  - split; [exact Hn |]. rewrite (tickRequests_queue (host t)); assumption.
  - split; [lia |]. exists (rafNext (host t)). repeat split; [| exact Ha' | lia].
    unfold tickRequests in *. rewrite Hq', filter_app, map_app, Hq. reflexivity.
Qed.

Lemma pause_loop (t : CourseTracker) : loopInv t -> loopInv (pause t).
Proof.
  intros [Hn Hl]. unfold loopInv, oneLoop in *. unfold pause.
  cbn [isPlaying host].
  destruct (animFrameId t) as [id |] eqn:Ha.
  - destruct (id =? 0)%nat eqn:H0; cbn [negb].
    + split; [exact Hn |].
      destruct (isPlaying t); [| exact Hl].
      destruct Hl as (k & _ & Hk & Hk0). injection Hk as <-.
      apply Nat.eqb_eq in H0. contradiction.
    + cbn [cancelAnimationFrame rafNext]. split; [exact Hn |].
      rewrite tickRequests_cancel.
      destruct (isPlaying t).
      * destruct Hl as (k & Hq & Hk & _). injection Hk as <-.
        rewrite Hq. cbn [filter]. rewrite Nat.eqb_refl. reflexivity.
      * rewrite Hl. reflexivity.
  - split; [exact Hn |]. destruct (isPlaying t); [| exact Hl].
    destruct Hl as (k & _ & Hk & _). discriminate.
Qed.

Lemma loopInv_same (t t' : CourseTracker) :
  host t' = host t -> isPlaying t' = isPlaying t -> animFrameId t' = animFrameId t ->
  loopInv t -> loopInv t'.
Proof.
  intros Hh Hi Ha. unfold loopInv, oneLoop. rewrite Hh, Hi, Ha. exact (fun H => H).
Qed.

Lemma step_loop (op : Op) (t : CourseTracker) : loopInv t -> loopInv (step random t op).
Proof.
  intros Hl. destruct op as [now now' | | | target | m | ss label | | | now]; cbn [step].
  - unfold play. destruct (isPlaying t) eqn:Hp; [exact Hl |].
    destruct (Qle_bool 1 (progress t)).
    + pose proof (pause_loop t Hl) as [Hn Hq]. unfold oneLoop in Hq.
      apply tick_loop; [reflexivity | exact Hn | exact Hq].
    + destruct Hl as [Hn Hq]. unfold oneLoop in Hq. rewrite Hp in Hq.
      apply tick_loop; [reflexivity | exact Hn | exact Hq].
  - apply pause_loop, Hl.
  - eapply loopInv_same; [| | | exact (pause_loop t Hl)]; reflexivity.
  - eapply loopInv_same; [| | | exact Hl]; reflexivity.
  - eapply loopInv_same; [| | | exact Hl]; reflexivity.
  - unfold setGhostSplits. destruct (buildTimeline _).
    eapply loopInv_same; [| | | exact Hl]; reflexivity.
  - eapply loopInv_same; [| | | exact Hl]; reflexivity.
  - apply pause_loop, Hl.
  - unfold frame. destruct (rafQueue (host t)) as [| [id cb] rest] eqn:Hq; [exact Hl |].
    destruct Hl as [Hn Hl]. unfold oneLoop in Hl.
    assert (Ht : tickRequests (host t)
                 = match cb with RunTick => [id] | RunDraw => [] end
                   ++ map fst (filter (fun r => match snd r with
                                                | RunTick => true | RunDraw => false end)
                                      rest)).
    { unfold tickRequests. rewrite Hq. cbn [filter snd]. destruct cb; reflexivity. }
    destruct cb.
    + unfold loopInv, oneLoop. cbn [withHost host isPlaying animFrameId rafNext].
      split; [exact Hn |]. cbn [app] in Ht.
      unfold tickRequests at 1 2. cbn [rafQueue]. rewrite <- Ht. exact Hl.
    + cbn [app] in Ht.
      destruct (isPlaying t) eqn:Hp.
      * destruct Hl as (k & Hk & _). rewrite Hk in Ht. injection Ht as _ Hrest.
        apply tick_loop; [exact Hp | exact Hn |].
        unfold tickRequests. cbn [withHost host rafQueue]. symmetry. exact Hrest.
      * rewrite Hl in Ht. discriminate.
Qed.

Lemma run_loop (ops : list Op) (t : CourseTracker) : loopInv t -> loopInv (run random ops t).
Proof.
  revert t. induction ops as [| op ops IH]; intros t Hl; [exact Hl |].
  change (run random (op :: ops) t) with (run random ops (step random t op)).
  apply IH, step_loop, Hl.
Qed.

Lemma construct_loop (sqrt : Q -> Q) (stations : list Station) (ss gs : list Split)
    (label : option string) :
  loopInv (construct sqrt stations ss gs label).
Proof.
  unfold construct. destruct (buildTimeline ss), (buildTimeline gs).
  unfold loopInv, oneLoop, tickRequests. cbn. split; [lia | reflexivity].
Qed.

(** X4. A session never has more than one frame loop.  In every state a
    session reaches, exactly one [_tick] is queued while the tracker is
    playing, under the id [pause()] cancels, and none is queued while it is
    not; so [pause()] and [destroy()] leave no [_tick] behind, and a frame
    of an idle tracker queues none. *)
Theorem single_frame_loop (sqrt : Q -> Q) (stations : list Station) (ss gs : list Split)
    (label : option string) (ops : list Op) :
  let t := run random ops (construct sqrt stations ss gs label) in
  oneLoop t /\
  (length (tickRequests (host t)) <= 1)%nat /\
  tickRequests (host (pause t)) = [] /\
  tickRequests (host (destroy t)) = [] /\
  (isPlaying t = false -> forall now, tickRequests (host (frame random now t)) = []).
Proof.
  intros t.
  pose proof (run_loop ops _ (construct_loop sqrt stations ss gs label)) as Hl.
  fold t in Hl.
  pose proof (pause_loop t Hl) as [_ Hp]. unfold oneLoop in Hp. cbn [pause isPlaying] in Hp.
  split; [exact (proj2 Hl) |]. split; [| split; [exact Hp | split; [exact Hp |]]].
  - destruct Hl as [_ Hl]. unfold oneLoop in Hl.
    destruct (isPlaying t); [destruct Hl as (k & -> & _) | rewrite Hl]; cbn [length]; lia.
  - intros Hi now.
    pose proof (step_loop (OpFrame now) t Hl) as [_ Hf]. cbn [step] in Hf.
    unfold oneLoop in Hf.
    assert (Hidle : isPlaying (frame random now t) = false).
    { unfold frame. destruct (rafQueue (host t)) as [| [id cb] rest]; [exact Hi |].
      destruct cb; [exact Hi |]. rewrite tick_idle; exact Hi. }
    rewrite Hidle in Hf. exact Hf.
Qed.


(** ** The two clocks *)

Lemma clock_same (t t' : CourseTracker) :
  progress t' = progress t -> elapsedMs t' = elapsedMs t -> course t' = course t ->
  clockConsistent t -> clockConsistent t'.
Proof. unfold clockConsistent. intros -> -> ->. exact (fun H => H). Qed.

Lemma clock_reset (t : CourseTracker) :
  progress t = 0 -> elapsedMs t = 0 -> clockConsistent t.
Proof.
  unfold clockConsistent. intros -> ->. split; [lra |].
  intros Ht. rewrite Q.min_r; [field; lra |].
  setoid_replace (0 / totalTimeMs (course t)) with 0 by (field; lra). lra.
Qed.

Lemma seekTo_clock (p : Q) (t : CourseTracker) : clockConsistent (seekTo p t).
Proof.
  unfold clockConsistent, seekTo. cbn [progress elapsedMs course].
  assert (Hle : Qmax 0 (Qmin 1 p) <= 1).
  { apply Q.max_lub; [lra | apply Q.le_min_l]. }
  split; [exact Hle |]. intros Ht.
  setoid_replace (Qmax 0 (Qmin 1 p) * totalTimeMs (course t) / totalTimeMs (course t))
    with (Qmax 0 (Qmin 1 p)) by (field; lra).
  symmetry. apply Q.min_r. exact Hle.
Qed.

Lemma tick_clockConsistent (now : Q) (t : CourseTracker) :
  clockConsistent t -> clockConsistent (_tick random now t).
Proof.
  intros Hc. destruct (isPlaying t) eqn:Hp; [| rewrite tick_idle; assumption].
  destruct (tick_clock random now t Hp) as (Hco & _ & _ & He & Hpr & _). cbv zeta in *.
  unfold clockConsistent. rewrite Hco, Hpr, He. unfold advance. cbn [progress].
  destruct (Qlt_bool 0 (totalTimeMs (course t))) eqn:Hlt.
  - split; [apply Q.le_min_l | reflexivity].
  - split; [exact (proj1 Hc) |]. intros Ht.
    apply Qlt_bool_iff in Ht. congruence.
Qed.

Lemma step_clock (op : Op) (t : CourseTracker) :
  clockConsistent t -> clockConsistent (step random t op).
Proof.
  intros Hc. destruct op as [now now' | | | target | m | ss label | | | now]; cbn [step].
  - unfold play. destruct (isPlaying t); [exact Hc |].
    apply tick_clockConsistent.
    destruct (Qle_bool 1 (progress t)).
    + apply clock_reset; reflexivity.
    + eapply clock_same; [| | | exact Hc]; reflexivity.
  - eapply clock_same; [| | | exact Hc]; reflexivity.
  - apply clock_reset; reflexivity.
  - apply seekTo_clock.
  - eapply clock_same; [| | | exact Hc]; reflexivity.
  - unfold setGhostSplits. destruct (buildTimeline _).
    eapply clock_same; [| | | exact Hc]; reflexivity.
  - eapply clock_same; [| | | exact Hc]; reflexivity.
  - eapply clock_same; [| | | exact Hc]; reflexivity.
  - unfold frame. destruct (rafQueue (host t)) as [| [id cb] rest]; [exact Hc |].
    destruct cb.
    + eapply clock_same; [| | | exact Hc]; reflexivity.
    + apply tick_clockConsistent. eapply clock_same; [| | | exact Hc]; reflexivity.
Qed.

Lemma run_clock (ops : list Op) (t : CourseTracker) :
  clockConsistent t -> clockConsistent (run random ops t).
Proof.
  revert t. induction ops as [| op ops IH]; intros t Hc; [exact Hc |].
  change (run random (op :: ops) t) with (run random ops (step random t op)).
  apply IH, step_clock, Hc.
Qed.

Lemma construct_clock (sqrt : Q -> Q) (stations : list Station) (ss gs : list Split)
    (label : option string) :
  clockConsistent (construct sqrt stations ss gs label).
Proof.
  apply clock_reset; unfold construct;
    destruct (buildTimeline ss), (buildTimeline gs); reflexivity.
Qed.




(** ** Particles on the canvas *)

Section Drawable.

Hypothesis random_unit : forall k, 0 <= random k < 1.

Lemma updatePool_drawable (lo hi dt window : Q) (cap : nat) (spawned : Particle)
    (pool : list Particle) :
  life spawned = 1 -> lo <= size spawned <= hi ->
  Forall (drawable lo hi) pool ->
  Forall (drawable lo hi) (updatePool spawned dt window cap pool).
Proof.
  intros Hl Hs Hpool. rewrite updatePool_spec. apply Forall_forall. intros q Hq.
  apply newest_In, survivors_In in Hq. destruct Hq as [(p & Hin & ->) Hlife].
  split; [exact Hlife |]. cbn [decay size].
  apply in_app_or in Hin. destruct Hin as [Hin | [<- | []]]; [| exact Hs].
  rewrite Forall_forall in Hpool. apply (Hpool p Hin).
Qed.

Lemma updateParticles_drawable (dt : Q) (t : CourseTracker) :
  poolsDrawable t -> poolsDrawable (_updateParticles random dt t).
Proof.
  intros [Ha Hg]. unfold poolsDrawable, _updateParticles.
  cbn [particles ghostParticles]. split.
  - apply updatePool_drawable; [reflexivity | | exact Ha].
    unfold spawnedAthlete, athleteParticle. cbn [size].
    pose proof (random_unit (randomCalls (host t))). lra.
  - destruct (ghostActive t); [| exact Hg].
    apply updatePool_drawable; [reflexivity | | exact Hg].
    unfold spawnedGhost, ghostParticle. cbn [size].
    pose proof (random_unit (randomCalls (host t) + 3)). lra.
Qed.

Lemma drawable_same (t t' : CourseTracker) :
  particles t' = particles t -> ghostParticles t' = ghostParticles t ->
  poolsDrawable t -> poolsDrawable t'.
Proof. unfold poolsDrawable. intros -> ->. exact (fun H => H). Qed.

Lemma drawable_empty (t : CourseTracker) :
  particles t = [] -> ghostParticles t = [] -> poolsDrawable t.
Proof. unfold poolsDrawable. intros -> ->. split; constructor. Qed.

Lemma tick_drawable (now : Q) (t : CourseTracker) :
  poolsDrawable t -> poolsDrawable (_tick random now t).
Proof.
  intros Hd. destruct (isPlaying t) eqn:Hp; [| rewrite tick_idle; assumption].
  destruct (tick_pools now t Hp) as (Hps & Hgs & Hu & Hv). cbv zeta in *.
  eapply drawable_same; [exact Hps | exact Hgs |].
  apply updateParticles_drawable.
  eapply drawable_same; [exact Hu | exact Hv | exact Hd].
Qed.

Lemma step_drawable (op : Op) (t : CourseTracker) :
  poolsDrawable t -> poolsDrawable (step random t op).
Proof.
  intros Hd. destruct op as [now now' | | | target | m | ss label | | | now]; cbn [step].
  - unfold play. destruct (isPlaying t); [exact Hd |].
    apply tick_drawable.
    destruct (Qle_bool 1 (progress t)).
    + apply drawable_empty; reflexivity.
    + eapply drawable_same; [| | exact Hd]; reflexivity.
  - eapply drawable_same; [| | exact Hd]; reflexivity.
  - apply drawable_empty; reflexivity.
  - apply drawable_empty; reflexivity.
  - eapply drawable_same; [| | exact Hd]; reflexivity.
  - unfold setGhostSplits. destruct (buildTimeline _).
    eapply drawable_same; [| | exact Hd]; reflexivity.
  - eapply drawable_same; [| | exact Hd]; reflexivity.
  - eapply drawable_same; [| | exact Hd]; reflexivity.
  - unfold frame. destruct (rafQueue (host t)) as [| [id cb] rest]; [exact Hd |].
    destruct cb.
    + eapply drawable_same; [| | exact Hd]; reflexivity.
    + apply tick_drawable. eapply drawable_same; [| | exact Hd]; reflexivity.
Qed.

Lemma run_drawable (ops : list Op) (t : CourseTracker) :
  poolsDrawable t -> poolsDrawable (run random ops t).
Proof.
  revert t. induction ops as [| op ops IH]; intros t Hd; [exact Hd |].
  change (run random (op :: ops) t) with (run random ops (step random t op)).
  apply IH, step_drawable, Hd.
Qed.

Lemma trail_positive (lo hi fade W H : Q) (pool : list Particle) :
  0 < lo -> 0 < fade -> Forall (drawable lo hi) pool ->
  Forall (fun a => 0 < radius a /\ 0 < alpha a) (trail fade W H pool).
Proof.
  intros Hlo Hfade Hpool. unfold trail. apply Forall_map.
  eapply Forall_impl; [| exact Hpool].
  intros p [Hl [Hs _]]. cbn [radius alpha]. split.
  - apply Qmult_lt_0_compat; lra.
  - apply Qmult_lt_0_compat; lra.
Qed.

(** X7. With [Math.random()] between 0 and 1, every particle a session keeps is
    drawable: it has life left and a size in the range of its spawn
    formula (3 to 5 for the athlete, 2 to 3.5 for the ghost), so every
    circle of a trail is painted with a positive radius and a positive
    opacity. *)
Theorem trail_particles_are_drawable (sqrt : Q -> Q) (stations : list Station)
    (ss gs : list Split) (label : option string) (ops : list Op) (W H : Q) :
  let t := run random ops (construct sqrt stations ss gs label) in
  Forall (drawable 3 5) (particles t) /\
  Forall (drawable 2 (7#2)) (ghostParticles t) /\
  Forall (fun a => 0 < radius a /\ 0 < alpha a) (athleteTrail W H t) /\
  Forall (fun a => 0 < radius a /\ 0 < alpha a) (ghostTrail W H t).
Proof.
  intros t.
  assert (Hd : poolsDrawable t).
  { apply run_drawable, drawable_empty; unfold construct;
      destruct (buildTimeline ss), (buildTimeline gs); reflexivity. }
  destruct Hd as [Ha Hg]. repeat split; try assumption.
  - eapply trail_positive; [| | exact Ha]; lra.
  - eapply trail_positive; [| | exact Hg]; lra.
Qed.

End Drawable.

(** ** Stations and callbacks *)

Lemma wellFormed_stationEvent (c : Course) (i : nat) :
  (i < length (stationPoints c))%nat -> wellFormedEvent c (stationEvent c i).
Proof. intros Hi. unfold wellFormedEvent, stationEvent. repeat split. exact Hi. Qed.

Lemma stations_same (t t' : CourseTracker) :
  course t' = course t -> lastStationIndex t' = lastStationIndex t ->
  events (host t') = events (host t) ->
  stationsInv t -> stationsInv t'.
Proof.
  unfold stationsInv, indexInRange. intros -> -> ->. exact (fun H => H).
Qed.

Lemma stations_reset (t t' : CourseTracker) :
  course t' = course t -> lastStationIndex t' = (-1)%Z ->
  events (host t') = events (host t) ->
  stationsInv t -> stationsInv t'.
Proof.
  unfold stationsInv, indexInRange. intros -> -> ->.
  intros (Hlen & _ & Hev). repeat split; [exact Hlen | lia | lia | exact Hev].
Qed.

Lemma pause_events (t : CourseTracker) : events (host (pause t)) = events (host t).
Proof.
  unfold pause. cbn [host].
  destruct (animFrameId t) as [id |]; [| reflexivity].
  destruct (negb (id =? 0)%nat); reflexivity.
Qed.

Lemma tick_stations (now : Q) (t : CourseTracker) :
  stationsInv t -> stationsInv (_tick random now t).
Proof.
  intros Hs. destruct (isPlaying t) eqn:Hp; [| rewrite tick_idle; assumption].
  destruct (tick_clock random now t Hp) as (Hco & _). 
  destruct (tick_events random now t Hp) as (Hev & Hlast). cbv zeta in *.
  destruct Hs as (Hlen & Hidx & Hwf). unfold stationsInv, indexInRange in *.
  rewrite Hco, Hev, Hlast.
  assert (Hfired : forall i, In i (firedNow (advance now t)) ->
                             (i < length (stationPoints (course t)))%nat).
  { intros i Hi. apply (firedNow_spec random) in Hi. destruct Hi as (Hi & _).
    cbn [advance course] in Hi. lia. }
  split; [exact Hlen |]. split.
  - destruct (firedNow (advance now t)) as [| a l] eqn:Hf; [exact Hidx |].
    rewrite (last_map_of_nat _ _ 0%nat) by discriminate.
    assert (Hin : In (last (a :: l) 0%nat) (a :: l)) by (apply last_In; discriminate).
    apply Hfired in Hin. lia.
  - apply Forall_app. split; [exact Hwf |]. apply Forall_app. split.
    + apply Forall_map. apply Forall_forall. intros i Hi.
      apply wellFormed_stationEvent, Hfired, Hi.
    + destruct (Qle_bool 1 (progress (advance now t))); repeat constructor.
Qed.

Lemma step_stations (op : Op) (t : CourseTracker) :
  stationsInv t -> stationsInv (step random t op).
Proof.
  intros Hs. destruct op as [now now' | | | target | m | ss label | | | now]; cbn [step].
  - unfold play. destruct (isPlaying t); [exact Hs |].
    apply tick_stations.
    destruct (Qle_bool 1 (progress t)).
    + eapply stations_reset; [| | | exact Hs]; try reflexivity.
      cbn [start host restart]. apply pause_events.
    + eapply stations_same; [| | | exact Hs]; reflexivity.
  - eapply stations_same; [| | | exact Hs]; try reflexivity. apply pause_events.
  - eapply stations_reset; [| | | exact Hs]; try reflexivity.
    cbn [host restart]. apply pause_events.
  - eapply stations_same; [| | | exact Hs]; reflexivity.
  - eapply stations_same; [| | | exact Hs]; reflexivity.
  - unfold setGhostSplits. destruct (buildTimeline _).
    eapply stations_same; [| | | exact Hs]; reflexivity.
  - eapply stations_same; [| | | exact Hs]; reflexivity.
  - eapply stations_same; [| | | exact Hs]; try reflexivity. apply pause_events.
  - unfold frame. destruct (rafQueue (host t)) as [| [id cb] rest]; [exact Hs |].
    destruct cb.
    + eapply stations_same; [| | | exact Hs]; reflexivity.
    + apply tick_stations. eapply stations_same; [| | | exact Hs]; reflexivity.
Qed.

Lemma run_stations (ops : list Op) (t : CourseTracker) :
  stationsInv t -> stationsInv (run random ops t).
Proof.
  revert t. induction ops as [| op ops IH]; intros t Hs; [exact Hs |].
  change (run random (op :: ops) t) with (run random ops (step random t op)).
  apply IH, step_stations, Hs.
Qed.

Lemma step_course (op : Op) (t : CourseTracker) : course (step random t op) = course t.
Proof.
  assert (Htick : forall now u, course (_tick random now u) = course u).
  { intros now u. destruct (isPlaying u) eqn:Hp; [| rewrite tick_idle; trivial].
    apply (tick_clock random now u Hp). }
  destruct op as [now now' | | | target | m | ss label | | | now]; cbn [step];
    try reflexivity.
  - unfold play. destruct (isPlaying t); [reflexivity |]. rewrite Htick.
    destruct (Qle_bool 1 (progress t)); reflexivity.
  - unfold setGhostSplits. destruct (buildTimeline _). reflexivity.
  - unfold frame. destruct (rafQueue (host t)) as [| [id cb] rest]; [reflexivity |].
    destruct cb; [reflexivity |]. rewrite Htick. reflexivity.
Qed.

Lemma run_course (ops : list Op) (t : CourseTracker) : course (run random ops t) = course t.
Proof.
  revert t. induction ops as [| op ops IH]; intros t; [reflexivity |].
  change (run random (op :: ops) t) with (run random ops (step random t op)).
  rewrite IH. apply step_course.
Qed.

Lemma session_station_index (sqrt : Q -> Q) (stations : list Station)
    (ss gs : list Split) (label : option string) (ops : list Op) :
  let t := run random ops (construct sqrt stations ss gs label) in
  stationPoints (course t) = stations /\
  length (stationProgresses (course t)) = length stations /\
  (-1 <= lastStationIndex t < Z.of_nat (length stations))%Z.
Proof.
  intros t.
  assert (H0 : stationsInv (construct sqrt stations ss gs label)).
  { unfold stationsInv, indexInRange. split; [apply construct_thresholds |].
    unfold construct. destruct (buildTimeline ss), (buildTimeline gs).
    cbn. split; [lia | constructor]. }
  pose proof (run_stations ops _ H0) as (Hlen & Hidx & _). fold t in Hlen, Hidx.
  unfold indexInRange in Hidx.
  assert (Hst : stationPoints (course t) = stations).
  { subst t. rewrite run_course. unfold construct.
    destruct (buildTimeline ss), (buildTimeline gs). reflexivity. }
  rewrite Hst in *. repeat split; try assumption; lia.
Qed.

(** X8. A session never changes the course it was constructed with; its last
    station index is -1 or the index of a station; and every
    [onStationReached] call names a station of the course, with that
    station's number and the split at its index. *)
Theorem station_callbacks_match_the_course (sqrt : Q -> Q) (stations : list Station)
    (ss gs : list Split) (label : option string) (ops : list Op) :
  let t0 := construct sqrt stations ss gs label in
  let t := run random ops t0 in
  course t = course t0 /\
  stationPoints (course t) = stations /\
  splits (course t) = ss /\
  length (stationProgresses (course t)) = length stations /\
  (-1 <= lastStationIndex t < Z.of_nat (length stations))%Z /\
  (forall i n s, In (StationReached i n s) (events (host t)) ->
     (i < length stations)%nat /\
     n = num (nth i stations noStation) /\
     s = nth_error ss i).
Proof.
  intros t0 t.
  assert (H0 : stationsInv t0).
  { unfold stationsInv, indexInRange. split; [apply construct_thresholds |].
    unfold t0, construct. destruct (buildTimeline ss), (buildTimeline gs).
    cbn. split; [lia | constructor]. }
  pose proof (run_stations ops t0 H0) as (Hlen & Hidx & Hwf). fold t in Hlen, Hidx, Hwf.
  pose proof (run_course ops t0) as Hc. fold t in Hc.
  unfold indexInRange in Hidx. rewrite Hc in *.
  assert (Hst : stationPoints (course t0) = stations /\ splits (course t0) = ss).
  { unfold t0, construct. destruct (buildTimeline ss), (buildTimeline gs). split; reflexivity. }
  destruct Hst as [Hst Hsp]. rewrite Hst, Hsp in *.
  repeat split; try assumption; try lia.
  all: rewrite Forall_forall in Hwf; specialize (Hwf _ H); cbn [wellFormedEvent] in Hwf;
    rewrite ?Hst, ?Hsp in Hwf; apply Hwf.
Qed.

(** ** Frames of an idle tracker *)

Lemma samePlayback_refl (t : CourseTracker) : samePlayback t t.
Proof. unfold samePlayback. repeat split. Qed.

Lemma frame_idle (now : Q) (t : CourseTracker) :
  isPlaying t = false ->
  samePlayback t (frame random now t) /\
  rafQueue (host (frame random now t)) = tl (rafQueue (host t)).
Proof.
  intros Hi. unfold frame.
  destruct (rafQueue (host t)) as [| [id cb] rest] eqn:Hq.
  - split; [apply samePlayback_refl | rewrite Hq; reflexivity].
  - destruct cb; [| rewrite tick_idle by exact Hi];
      (split; [unfold samePlayback; repeat split | reflexivity]).
Qed.

(** X9. A tracker that is not playing (never started, paused, destroyed or
    complete) ignores animation frames: they change no field of the
    tracker and make no callback call; they only use up the pending
    requests, oldest first. *)
Theorem idle_tracker_ignores_frames (nows : list Q) (t : CourseTracker) :
  isPlaying t = false ->
  let t' := run random (framesOnly nows) t in
  samePlayback t t' /\
  rafQueue (host t') = skipn (length nows) (rafQueue (host t)).
Proof.
  cbv zeta. revert t. induction nows as [| now nows IH]; intros t Hi.
  - split; [apply samePlayback_refl | reflexivity].
  - change (run random (framesOnly (now :: nows)) t)
      with (run random (framesOnly nows) (frame random now t)).
    destruct (frame_idle now t Hi) as [Hs Hq].
    assert (Hi' : isPlaying (frame random now t) = false).
    { destruct Hs as (_ & _ & Hp & _). rewrite Hp. exact Hi. }
    destruct (IH _ Hi') as [Hs' Hq'].
    split.
    + unfold samePlayback in *.
      destruct Hs as (a1 & a2 & a3 & a4 & a5 & a6 & a7 & a8 & a9 & a10 & a11 & a12 & a13 & a14 & a15).
      destruct Hs' as (b1 & b2 & b3 & b4 & b5 & b6 & b7 & b8 & b9 & b10 & b11 & b12 & b13 & b14 & b15).
      repeat split; congruence.
    + rewrite Hq', Hq. cbn [length]. destruct (rafQueue (host t)); [| reflexivity].
      cbn [tl]. rewrite skipn_nil. reflexivity.
Qed.



(** ** The ghost does not steer the athlete *)

Lemma athleteView_fields (t1 t2 : CourseTracker) :
  athleteView t1 = athleteView t2 ->
  course t1 = course t2 /\ isPlaying t1 = isPlaying t2 /\ progress t1 = progress t2 /\
  elapsedMs t1 = elapsedMs t2 /\ speed t1 = speed t2 /\
  lastTimestamp t1 = lastTimestamp t2 /\ animFrameId t1 = animFrameId t2 /\
  activeSplit t1 = activeSplit t2 /\ lastStationIndex t1 = lastStationIndex t2 /\
  rafQueue (host t1) = rafQueue (host t2) /\ rafNext (host t1) = rafNext (host t2) /\
  events (host t1) = events (host t2).
Proof.
  unfold athleteView. intros H.
  injection H as Hco Hip Hpr Hel Hsp Hlt Haf Has Hls Hrq Hrn Hev.
  repeat split; assumption.
Qed.

Ltac view_fields H :=
  apply athleteView_fields in H;
  destruct H as (Hco & Hip & Hpr & Hel & Hsp & Hlt & Haf & Has & Hls & Hrq & Hrn & Hev).

Lemma pause_view (t1 t2 : CourseTracker) :
  athleteView t1 = athleteView t2 -> athleteView (pause t1) = athleteView (pause t2).
Proof.
  intros Hv. view_fields Hv. unfold athleteView, pause.
  cbn [course isPlaying progress elapsedMs speed lastTimestamp animFrameId activeSplit
       lastStationIndex host].
  rewrite ?Hco, ?Hpr, ?Hel, ?Hsp, ?Hlt, ?Haf, ?Has, ?Hls.
  destruct (animFrameId t2) as [id |]; [| rewrite ?Hrq, ?Hrn, ?Hev; reflexivity].
  destruct (negb (id =? 0)%nat); unfold cancelAnimationFrame; cbn [rafQueue rafNext events];
    rewrite ?Hrq, ?Hrn, ?Hev; reflexivity.
Qed.

Lemma restart_view (t1 t2 : CourseTracker) :
  athleteView t1 = athleteView t2 -> athleteView (restart t1) = athleteView (restart t2).
Proof.
  intros Hv. apply pause_view in Hv. view_fields Hv. unfold athleteView, restart.
  cbn [course isPlaying progress elapsedMs speed lastTimestamp animFrameId activeSplit
       lastStationIndex host].
  rewrite ?Hco, ?Hip, ?Hsp, ?Hlt, ?Haf, ?Hrq, ?Hrn, ?Hev. reflexivity.
Qed.

Lemma checkStation_view (i : nat) (t1 t2 : CourseTracker) :
  athleteView t1 = athleteView t2 ->
  athleteView (checkStation t1 i) = athleteView (checkStation t2 i).
Proof.
  intros Hv. pose proof Hv as Hv'. view_fields Hv. unfold checkStation.
  rewrite ?Hco, ?Hpr, ?Hls.
  destruct (Qle_bool _ _ && _)%bool; [| exact Hv'].
  unfold athleteView, emit.
  cbn [course isPlaying progress elapsedMs speed lastTimestamp animFrameId activeSplit
       lastStationIndex host rafQueue rafNext events].
  rewrite ?Hco, ?Hip, ?Hpr, ?Hel, ?Hsp, ?Hlt, ?Haf, ?Has, ?Hrq, ?Hrn, ?Hev. reflexivity.
Qed.

Lemma checkStations_fold_view (l : list nat) (t1 t2 : CourseTracker) :
  athleteView t1 = athleteView t2 ->
  athleteView (fold_left checkStation l t1) = athleteView (fold_left checkStation l t2).
Proof.
  revert t1 t2. induction l as [| i l IH]; intros t1 t2 Hv; [exact Hv |].
  cbn [fold_left]. apply IH, checkStation_view, Hv.
Qed.

Lemma checkStations_view (t1 t2 : CourseTracker) :
  athleteView t1 = athleteView t2 ->
  athleteView (_checkStations t1) = athleteView (_checkStations t2).
Proof.
  intros Hv. unfold _checkStations.
  replace (course t1) with (course t2)
    by (symmetry; apply (athleteView_fields t1 t2 Hv)).
  apply checkStations_fold_view, Hv.
Qed.

Lemma tick_view (now : Q) (t1 t2 : CourseTracker) :
  athleteView t1 = athleteView t2 ->
  athleteView (_tick random now t1) = athleteView (_tick random now t2).
Proof.
  intros Hv. pose proof Hv as Hv'. view_fields Hv. unfold _tick. rewrite ?Hip.
  destruct (isPlaying t2) eqn:Hp2; cbn [negb]; [| exact Hv']. cbv zeta.
  assert (Hdt : tickDelta now t1 = tickDelta now t2) by (unfold tickDelta; rewrite ?Hlt; reflexivity).
  rewrite ?Hdt.
  assert (Ha : athleteView (advance now t1) = athleteView (advance now t2)).
  { unfold athleteView, advance.
    cbn [course isPlaying progress elapsedMs speed lastTimestamp animFrameId activeSplit
         lastStationIndex host].
    rewrite ?Hdt, ?Hco, ?Hip, ?Hp2, ?Hpr, ?Hel, ?Hsp, ?Haf, ?Has, ?Hls, ?Hrq, ?Hrn, ?Hev.
    reflexivity. }
  apply checkStations_view in Ha. clear - Ha. 
  set (u1 := _checkStations (advance now t1)) in *.
  set (u2 := _checkStations (advance now t2)) in *.
  view_fields Ha.
  unfold athleteView, completeOrSchedule, fadeSplit, _updateParticles.
  cbn [requestAnimationFrame course isPlaying progress elapsedMs speed lastTimestamp
       animFrameId activeSplit lastStationIndex host drawn rafQueue rafNext events].
  rewrite ?Hco, ?Hip, ?Hpr, ?Hel, ?Hsp, ?Hlt, ?Haf, ?Has, ?Hls.
  destruct (Qle_bool 1 (progress u2)); unfold emit, drawn; cbn [rafQueue rafNext events];
    rewrite ?Hrq, ?Hrn, ?Hev; reflexivity.
Qed.

Lemma withGhost_view (g : Ghost) (t : CourseTracker) :
  athleteView (withGhost g t) = athleteView t.
Proof. reflexivity. Qed.

Lemma step_view (op : Op) (t1 t2 : CourseTracker) :
  athleteView t1 = athleteView t2 ->
  athleteView (step random t1 op) = athleteView (step random t2 op).
Proof.
  intros Hv. pose proof Hv as Hv'.
  destruct op as [now now' | | | target | m | ss label | | | now]; cbn [step].
  - view_fields Hv. unfold play. rewrite ?Hip, ?Hpr.
    destruct (isPlaying t2); [exact Hv' |].
    apply tick_view.
    assert (Hstart : forall u1 u2, athleteView u1 = athleteView u2 ->
                       athleteView (start now u1) = athleteView (start now u2)).
    { clear. intros u1 u2 Hu. view_fields Hu. unfold athleteView, start.
      cbn [course isPlaying progress elapsedMs speed lastTimestamp animFrameId activeSplit
           lastStationIndex host].
      rewrite ?Hco, ?Hpr, ?Hel, ?Hsp, ?Haf, ?Has, ?Hls, ?Hrq, ?Hrn, ?Hev. reflexivity. }
    apply Hstart. destruct (Qle_bool 1 (progress t2)); [apply restart_view |]; exact Hv'.
  - apply pause_view, Hv.
  - apply restart_view, Hv.
  - view_fields Hv. unfold athleteView, seekTo.
    cbn [course isPlaying progress elapsedMs speed lastTimestamp animFrameId activeSplit
         lastStationIndex host].
    rewrite ?Hco, ?Hip, ?Hsp, ?Hlt, ?Haf, ?Has, ?Hls, ?Hrq, ?Hrn, ?Hev. reflexivity.
  - view_fields Hv. unfold athleteView, setSpeed.
    cbn [course isPlaying progress elapsedMs speed lastTimestamp animFrameId activeSplit
         lastStationIndex host].
    rewrite ?Hco, ?Hip, ?Hpr, ?Hel, ?Hlt, ?Haf, ?Has, ?Hls, ?Hrq, ?Hrn, ?Hev. reflexivity.
  - unfold setGhostSplits. destruct (buildTimeline _).
    rewrite !withGhost_view. exact Hv.
  - unfold toggleGhost. rewrite !withGhost_view. exact Hv.
  - apply pause_view, Hv.
  - view_fields Hv. unfold frame. rewrite ?Hrq.
    destruct (rafQueue (host t2)) as [| [id cb] rest]; [exact Hv' |].
    assert (Hpop : athleteView
                     (withHost {| rafQueue := rest; rafNext := rafNext (host t1);
                                  randomCalls := randomCalls (host t1);
                                  events := events (host t1) |} t1)
                   = athleteView
                       (withHost {| rafQueue := rest; rafNext := rafNext (host t2);
                                    randomCalls := randomCalls (host t2);
                                    events := events (host t2) |} t2)).
    { unfold athleteView, withHost.
      cbn [course isPlaying progress elapsedMs speed lastTimestamp animFrameId activeSplit
           lastStationIndex host rafQueue rafNext events].
      rewrite ?Hco, ?Hip, ?Hpr, ?Hel, ?Hsp, ?Hlt, ?Haf, ?Has, ?Hls, ?Hrn, ?Hev. reflexivity. }
    destruct cb; [exact Hpop | apply tick_view, Hpop].
Qed.

Lemma run_view (ops : list Op) (t1 t2 : CourseTracker) :
  athleteView t1 = athleteView t2 ->
  athleteView (run random ops t1) = athleteView (run random (withoutGhostOps ops) t2).
Proof.
  revert t1 t2. induction ops as [| op ops IH]; intros t1 t2 Hv; [exact Hv |].
  change (run random (op :: ops) t1) with (run random ops (step random t1 op)).
  destruct op as [now now' | | | target | m | ss label | | | now];
    cbn [withoutGhostOps filter];
    try (match goal with
         | |- context [run random (?o :: ?l) t2] =>
             change (run random (o :: l) t2) with (run random l (step random t2 o))
         end;
         apply IH, step_view, Hv).
  - apply IH. cbn [step]. unfold setGhostSplits. destruct (buildTimeline _).
    rewrite withGhost_view. exact Hv.
  - apply IH. cbn [step]. unfold toggleGhost. rewrite withGhost_view. exact Hv.
Qed.

(** X10. The ghost never steers the athlete.  A session and the same session
    without its [setGhostSplits] and [toggleGhost] calls end with the same
    course, playing flag, progress, elapsed time, speed, time stamp, frame
    request, split popup, last station index, pending requests and callback
    calls. *)
Theorem ghost_never_steers_the_athlete (ops : list Op) (t : CourseTracker) :
  athleteView (run random ops t) = athleteView (run random (withoutGhostOps ops) t).
Proof. apply run_view. reflexivity. Qed.

(** X11. [play()] on an idle tracker, at a time other than 0, resumes from the
    stored elapsed time: its first tick counts the time since the call, not
    the time spent paused; on a complete tracker it starts over from 0. *)
Theorem play_resumes_or_starts_over (now now' : Q) (t : CourseTracker) :
  isPlaying t = false -> ~ now == 0 ->
  let t' := play random now now' t in
  (progress t < 1 -> elapsedMs t' = elapsedMs t + (now' - now) * speed t) /\
  (1 <= progress t -> elapsedMs t' = 0 + (now' - now) * speed t) /\
  lastTimestamp t' = Some now'.
Proof.
  intros Hi Hnow. cbv zeta. unfold play. rewrite Hi.
  assert (Hd : forall u, tickDelta now' (start now u) = now' - now).
  { intros u. unfold tickDelta, start. cbn [lastTimestamp].
    destruct (Qeq_bool now 0) eqn:Hz; [apply Qeq_bool_iff in Hz; contradiction | reflexivity]. }
  assert (Hts : forall u, lastTimestamp (_tick random now' (start now u)) = Some now').
  { intros u. unfold _tick. cbn [start isPlaying negb]. cbv zeta.
    unfold completeOrSchedule, fadeSplit, _updateParticles.
    cbn [requestAnimationFrame lastTimestamp].
    pose proof (checkStations_frame random (advance now' (start now u))) as Hf.
    cbv zeta in Hf. destruct Hf as (_ & _ & _ & _ & _ & _ & Hl & _).
    rewrite Hl. reflexivity. }
  split; [| split].
  - intros Hlt. rewrite (Qle_bool_false 1 (progress t) Hlt).
    destruct (tick_clock random now' (start now t) eq_refl) as (_ & _ & _ & He & _).
    cbv zeta in He. rewrite He, Hd. reflexivity.
  - intros Hge. apply Qle_bool_iff in Hge. rewrite Hge.
    destruct (tick_clock random now' (start now (restart t)) eq_refl) as (_ & _ & _ & He & _).
    cbv zeta in He. rewrite He, Hd. reflexivity.
  - destruct (Qle_bool 1 (progress t)); apply Hts.
Qed.

End SessionFacts.

(* ================================================================== *)
(** * More on arc lengths and thresholds *)
(* ================================================================== *)

Section ThresholdFacts.
Import Spline Tracker Notions.

Variable sqrt : Q -> Q.
Hypothesis sqrt_nonneg : forall v, 0 <= sqrt v.
Hypothesis sqrt_pos : forall v, 0 < v -> 0 < sqrt v.

Lemma sorted_from_zero (lengths : list Q) (i : nat) :
  StronglySorted Qle lengths -> nth 0 lengths 0 = 0 -> (i < length lengths)%nat ->
  0 <= nth i lengths 0 <= last lengths 0.
Proof.
  intros Hs H0 Hi. split.
  - pose proof (sorted_nth_le lengths 0 i 0 Hs ltac:(lia)) as H.
    rewrite H0 in H. exact H.
  - rewrite <- (nth_last_index lengths 0 0) by (intros ->; cbn [length] in Hi; lia).
    apply sorted_nth_le; [exact Hs | lia].
Qed.

Lemma unit_fraction (l total : Q) : 0 < total -> 0 <= l <= total -> 0 <= l / total <= 1.
Proof.
  intros Ht [H0 H1]. split.
  - apply Qle_trans with (0 / total); [| apply Qdiv_le_compat; assumption].
    apply Qle_lteq. right. field. lra.
  - apply Qle_trans with (total / total); [apply Qdiv_le_compat; assumption |].
    apply Qle_lteq. right. field. lra.
Qed.

(** Every threshold lies between 0 and 1, whatever the stations. *)
Lemma stationProgressMap_range (points : list Point) (segments i : nat) :
  (1 <= segments)%nat -> (i < length points)%nat ->
  0 <= nth i (stationProgressMap sqrt points segments) 0 <= 1.
Proof.
  intros Hs Hi.
  destruct (le_lt_dec 2 (length points)) as [Hn | Hn].
  - destruct (stationProgressMap_values sqrt sqrt_nonneg sqrt_pos points segments Hn Hs)
      as (lengths & total & Hsorted & Hll & Hzero & Hlast & _ & Hval & Hdeg).
    assert (Hin : (i * segments < length lengths)%nat) by (rewrite Hll; nia).
    pose proof (sorted_from_zero lengths (i * segments) Hsorted Hzero Hin) as Hr.
    rewrite Hlast in Hr.
    destruct (Qlt_le_dec 0 total) as [Ht | Ht].
    + rewrite (Hval Ht i Hi). apply unit_fraction; assumption.
    + assert (Ht0 : total == 0) by lra.
      rewrite (Hdeg Ht0 i Hi). lra.
  - unfold stationProgressMap. rewrite nth_map_seq by lia.
    unfold stationToProgress.
    destruct (length points <=? 1)%nat eqn:E; [lra |].
    apply Nat.leb_gt in E. lia.
Qed.

(** X12. For a path of two or more samples that do not all coincide,
    [computeArcLengths] returns one number per sample, each between 0 and
    1, in non-decreasing order, 0 for the first sample and 1 for the
    last. *)
Theorem arc_length_table_is_normalised (path : list Point) :
  (2 <= length path)%nat ->
  (exists q, In q path /\ ~ pt_eq q (hd q path)) ->
  let table := computeArcLengths sqrt path in
  length table = length path /\
  (forall i, (i < length path)%nat ->
     exists v, nth i table None = Some v /\ 0 <= v <= 1) /\
  (forall i j vi vj, (i <= j < length path)%nat ->
     nth i table None = Some vi -> nth j table None = Some vj -> vi <= vj) /\
  (exists v0, nth 0 table None = Some v0 /\ v0 == 0) /\
  (exists v1, nth (length path - 1) table None = Some v1 /\ v1 == 1).
Proof.
  intros Hlen Hdiff table.
  destruct (computeArcLengths_spec sqrt sqrt_nonneg sqrt_pos path Hlen)
    as (lengths & total & Htable & Hll & Hsorted & Hzero & Hlast & Hpos).
  specialize (Hpos Hdiff). subst table. rewrite Htable.
  assert (Hnth : forall i, (i < length path)%nat ->
            nth i (map (fun l => jsDiv l total) lengths) None
            = Some (nth i lengths 0 / total)).
  { intros i Hi. rewrite (nth_indep _ None (jsDiv 0 total))
      by (rewrite length_map; lia).
    rewrite (map_nth (fun l => jsDiv l total)). apply jsDiv_pos, Hpos. }
  split; [rewrite length_map; exact Hll |]. split; [| split; [| split]].
  - intros i Hi. eexists. split; [apply Hnth, Hi |].
    apply unit_fraction; [exact Hpos |]. rewrite <- Hlast.
    apply sorted_from_zero; [exact Hsorted | exact Hzero | lia].
  - intros i j vi vj Hij. rewrite !Hnth by lia. intros [= <-] [= <-].
    apply Qdiv_le_compat; [exact Hpos |]. apply sorted_nth_le; [exact Hsorted | lia].
  - eexists. split; [apply Hnth; lia |]. rewrite Hzero. field. lra.
  - eexists. split; [apply Hnth; lia |].
    rewrite <- Hll, (nth_last_index lengths 0 0)
      by (intros ->; cbn [length] in Hll; lia).
    rewrite Hlast. field. lra.
Qed.

End ThresholdFacts.

(* ================================================================== *)
(** * Timelines *)
(* ================================================================== *)

Section TimelineFacts.
Import Spline Tracker Notions SessionNotions.

Variable random : nat -> Q.

Lemma last_In_any {A : Type} (l : list A) (d : A) : l <> [] -> In (last l d) l.
Proof.
  induction l as [| a l IH]; [congruence |]. intros _.
  destruct l as [| b l]; [left; reflexivity |].
  right. apply IH. discriminate.
Qed.

Lemma accumulate_spec (ss : list Split) (c : Q) :
  let (cum, total) := accumulate c ss in
  length cum = length ss /\
  total == c + sumTimes ss /\
  last cum c = total /\
  (forall i, (i < length ss)%nat -> nth i cum 0 == c + sumTimes (firstn (S i) ss)) /\
  ((forall s, In s ss -> 0 <= timeMs s) -> StronglySorted Qle (c :: cum)).
Proof.
  revert c. induction ss as [| s ss IH]; intros c.
  - cbn. repeat split; try lra; try (intros; lia). intros _. repeat constructor.
  - cbn [accumulate]. specialize (IH (c + timeMs s)).
    destruct (accumulate (c + timeMs s) ss) as [cum total].
    destruct IH as (Hlen & Htot & Hlast & Hnth & Hsorted).
    split; [cbn [length]; rewrite Hlen; reflexivity |].
    split; [cbn [sumTimes fold_right]; fold (sumTimes ss); rewrite Htot; lra |].
    split; [rewrite last_cons_default; exact Hlast |].
    split.
    + intros i Hi. destruct i as [| i].
      * cbn [nth firstn sumTimes fold_right]. lra.
      * cbn [nth]. change (firstn (S (S i)) (s :: ss)) with (s :: firstn (S i) ss).
        change (sumTimes (s :: firstn (S i) ss))
          with (timeMs s + sumTimes (firstn (S i) ss)).
        rewrite Hnth by (cbn [length] in Hi; lia). ring.
    + intros Hpos.
      assert (Hs : StronglySorted Qle ((c + timeMs s) :: cum))
        by (apply Hsorted; intros s' Hin; apply Hpos; right; exact Hin).
      constructor; [exact Hs |].
      assert (Hc : c <= c + timeMs s).
      { pose proof (Hpos s (or_introl eq_refl)). lra. }
      constructor; [exact Hc |].
      apply StronglySorted_inv in Hs. destruct Hs as [_ Hall].
      eapply Forall_impl; [| exact Hall]. intros a Ha. lra.
Qed.

Lemma buildTimeline_total (ss : list Split) :
  length (fst (buildTimeline ss)) = length ss /\ snd (buildTimeline ss) == sumTimes ss.
Proof.
  unfold buildTimeline. destruct ss as [| s ss]; [split; reflexivity |].
  pose proof (accumulate_spec (s :: ss) 0) as H.
  destruct (accumulate 0 (s :: ss)) as [cum total]. cbn [fst snd].
  destruct H as (Hlen & Htot & _). split; [exact Hlen | rewrite Htot; ring].
Qed.

(** X13. The cumulative array of a split sequence holds its running sums, one
    per split, and ends with the total, which is the sum of the split
    times; with no negative split time the array is sorted and the total
    is not negative. *)
Theorem timeline_sums_the_split_times (ss : list Split) :
  let (cum, total) := buildTimeline ss in
  length cum = length ss /\
  total == sumTimes ss /\
  last cum 0 = total /\
  (forall i, (i < length ss)%nat -> nth i cum 0 == sumTimes (firstn (S i) ss)) /\
  ((forall s, In s ss -> 0 <= timeMs s) -> StronglySorted Qle cum /\ 0 <= total).
Proof.
  unfold buildTimeline. destruct ss as [| s ss].
  - cbn. repeat split; try lra; try (intros; lia). constructor.
  - pose proof (accumulate_spec (s :: ss) 0) as H.
    destruct (accumulate 0 (s :: ss)) as [cum total].
    destruct H as (Hlen & Htot & Hlast & Hnth & Hsorted).
    split; [exact Hlen |]. split; [rewrite Htot; lra |]. split; [exact Hlast |].
    split; [intros i Hi; rewrite (Hnth i Hi); lra |].
    intros Hpos. specialize (Hsorted Hpos).
    apply StronglySorted_inv in Hsorted. destruct Hsorted as [Hs Hall].
    split; [exact Hs |].
    rewrite <- Hlast. destruct cum as [| a cum]; [cbn; lra |].
    rewrite Forall_forall in Hall. apply Hall.
    apply (last_In_any (a :: cum)). discriminate.
Qed.

Lemma ghost_same (t t' : CourseTracker) : ghost t' = ghost t -> ghostInv t -> ghostInv t'.
Proof. unfold ghostInv. intros ->. exact (fun H => H). Qed.

Lemma tick_ghost (now : Q) (t : CourseTracker) : ghost (_tick random now t) = ghost t.
Proof.
  destruct (isPlaying t) eqn:Hp; [| rewrite tick_idle; trivial].
  apply (tick_clock random now t Hp).
Qed.

Lemma step_ghostInv (op : Op) (t : CourseTracker) :
  ghostInv t -> ghostInv (step random t op).
Proof.
  intros Hg. destruct op as [now now' | | | target | m | ss label | | | now]; cbn [step].
  - unfold play. destruct (isPlaying t); [exact Hg |].
    eapply ghost_same; [apply tick_ghost |].
    destruct (Qle_bool 1 (progress t)); (eapply ghost_same; [| exact Hg]); reflexivity.
  - eapply ghost_same; [| exact Hg]; reflexivity.
  - eapply ghost_same; [| exact Hg]; reflexivity.
  - eapply ghost_same; [| exact Hg]; reflexivity.
  - eapply ghost_same; [| exact Hg]; reflexivity.
  - unfold setGhostSplits, ghostInv.
    destruct (buildTimeline match ss with Some l => l | None => [] end) as [cum total] eqn:Hb.
    cbn [withGhost ghost ghostCumulative ghostTotalMs ghostSplits]. symmetry. exact Hb.
  - unfold ghostInv, toggleGhost in *.
    cbn [withGhost ghost ghostCumulative ghostTotalMs ghostSplits]. exact Hg.
  - eapply ghost_same; [| exact Hg]; reflexivity.
  - unfold frame. destruct (rafQueue (host t)) as [| [id cb] rest]; [exact Hg |].
    destruct cb.
    + eapply ghost_same; [| exact Hg]; reflexivity.
    + eapply ghost_same; [apply tick_ghost |]. eapply ghost_same; [| exact Hg]; reflexivity.
Qed.

Lemma run_ghostInv (ops : list Op) (t : CourseTracker) :
  ghostInv t -> ghostInv (run random ops t).
Proof.
  revert t. induction ops as [| op ops IH]; intros t Hg; [exact Hg |].
  change (run random (op :: ops) t) with (run random ops (step random t op)).
  apply IH, step_ghostInv, Hg.
Qed.

(** X14. Throughout a session the total times are the sums of the split times
    they were built from, and a ghost without splits is never active: it
    leaves no trail and shows no gap label, also after [toggleGhost()];
    [setGhostSplits()] without splits removes and hides the ghost. *)
Theorem ghost_without_splits_is_inactive (sqrt : Q -> Q) (stations : list Station)
    (ss gs : list Split) (label : option string) (ops : list Op) :
  let t := run random ops (construct sqrt stations ss gs label) in
  totalTimeMs (course t) == sumTimes ss /\
  ghostTotalMs (ghost t) == sumTimes (ghostSplits (ghost t)) /\
  length (ghostCumulative (ghost t)) = length (ghostSplits (ghost t)) /\
  (ghostSplits (ghost t) = [] ->
   ghostActive t = false /\ drawnGap t = None /\
   forall dt, ghostParticles (_updateParticles random dt t) = ghostParticles t) /\
  (forall l, ghostSplits (ghost (setGhostSplits None l t)) = [] /\
             showGhost (ghost (setGhostSplits None l t)) = false).
Proof.
  intros t.
  assert (Hg : ghostInv t).
  { apply run_ghostInv. unfold ghostInv, construct.
    destruct (buildTimeline ss), (buildTimeline gs) as [gcum gtotal] eqn:Hb.
    cbn [ghost ghostCumulative ghostTotalMs ghostSplits]. symmetry. exact Hb. }
  assert (Hc : totalTimeMs (course t) = snd (buildTimeline ss)).
  { subst t. rewrite run_course. unfold construct.
    destruct (buildTimeline ss), (buildTimeline gs). reflexivity. }
  unfold ghostInv in Hg.
  destruct (buildTimeline_total ss) as [_ Htot].
  destruct (buildTimeline_total (ghostSplits (ghost t))) as [Hlen Hgtot].
  rewrite <- Hg in Hlen, Hgtot. cbn [fst snd] in Hlen, Hgtot.
  split; [rewrite Hc; exact Htot |]. split; [exact Hgtot |]. split; [exact Hlen |].
  split.
  - intros Hnil. rewrite Hnil in Hg. cbn [buildTimeline] in Hg.
    injection Hg as _ Hz.
    assert (Hact : ghostActive t = false).
    { unfold ghostActive. rewrite Hz. apply andb_false_r. }
    split; [exact Hact |]. split.
    + unfold drawnGap. rewrite Hz. rewrite andb_false_r. reflexivity.
    + intros dt. unfold _updateParticles. cbn [ghostParticles]. rewrite Hact. reflexivity.
  - intros l. split; reflexivity.
Qed.

End TimelineFacts.

(* ================================================================== *)
(** * The canvas *)
(* ================================================================== *)

Section CanvasFacts.
Import Spline Tracker Notions SessionNotions Canvas.

Variable random : nat -> Q.

Lemma filter_seq_below (k a n : nat) :
  filter (fun i => (i <? k)%nat) (seq a n) = seq a (Nat.min n (k - a)).
Proof.
  revert a. induction n as [| n IH]; intros a; [reflexivity |].
  cbn [seq filter]. destruct (a <? k)%nat eqn:Hak.
  - apply Nat.ltb_lt in Hak. rewrite IH.
    replace (Nat.min (S n) (k - a)) with (S (Nat.min n (k - S a))) by lia.
    reflexivity.
  - apply Nat.ltb_ge in Hak. rewrite IH.
    replace (k - S a)%nat with 0%nat by lia. replace (k - a)%nat with 0%nat by lia.
    rewrite !Nat.min_0_r. reflexivity.
Qed.

Lemma filter_seq_reached (L : Z) (n : nat) :
  (-1 <= L)%Z ->
  filter (fun i => (Z.of_nat i <=? L)%Z) (seq 0 n) = seq 0 (Nat.min n (Z.to_nat (L + 1))).
Proof.
  intros HL.
  replace (Nat.min n (Z.to_nat (L + 1))) with (Nat.min n (Z.to_nat (L + 1) - 0)) by lia.
  rewrite <- filter_seq_below.
  apply filter_ext. intros i.
  destruct (Z.of_nat i <=? L)%Z eqn:H1; destruct (i <? Z.to_nat (L + 1))%nat eqn:H2;
    try reflexivity.
  - apply Z.leb_le in H1. apply Nat.ltb_ge in H2. lia.
  - apply Z.leb_gt in H1. apply Nat.ltb_lt in H2. lia.
Qed.

Lemma filter_seq_active (L : Z) (a n : nat) :
  (length (filter (fun i => (Z.of_nat i =? L)%Z) (seq a n)) <= 1)%nat /\
  ((L < Z.of_nat a)%Z -> filter (fun i => (Z.of_nat i =? L)%Z) (seq a n) = []).
Proof.
  revert a. induction n as [| n IH]; intros a; [split; [cbn; lia | reflexivity] |].
  cbn [seq filter]. destruct (IH (S a)) as [Hle Hnil].
  destruct (Z.of_nat a =? L)%Z eqn:Ha.
  - apply Z.eqb_eq in Ha. rewrite Hnil by lia. split; [cbn; lia |]. intros; lia.
  - apply Z.eqb_neq in Ha. split; [exact Hle |]. intros Hlt. apply Hnil. lia.
Qed.

Lemma lineTos_enough (path : list Point) (c : Z) (i fuel : nat) :
  (length path <= i + fuel)%nat ->
  lineTos path c i fuel
  = map (fun j => at_ path (Z.of_nat j))
        (seq i (Nat.min (length path) (Z.to_nat c) - i)).
Proof.
  revert i. induction fuel as [| fuel IH]; intros i Hfuel.
  - replace (Nat.min (length path) (Z.to_nat c) - i)%nat with 0%nat by lia. reflexivity.
  - cbn [lineTos].
    destruct ((Z.of_nat i <? c)%Z && (i <? length path)%nat) eqn:Hc.
    + apply andb_prop in Hc. destruct Hc as [H1 H2].
      apply Z.ltb_lt in H1. apply Nat.ltb_lt in H2.
      rewrite IH by lia.
      replace (Nat.min (length path) (Z.to_nat c) - i)%nat
        with (S (Nat.min (length path) (Z.to_nat c) - S i)) by lia.
      reflexivity.
    + replace (Nat.min (length path) (Z.to_nat c) - i)%nat with 0%nat; [reflexivity |].
      apply andb_false_iff in Hc. destruct Hc as [H1 | H2].
      * apply Z.ltb_ge in H1. lia.
      * apply Nat.ltb_ge in H2. lia.
Qed.

Lemma map_at_firstn (path : list Point) (n : nat) :
  (n <= length path)%nat ->
  map (fun j => at_ path (Z.of_nat j)) (seq 0 n) = firstn n path.
Proof.
  revert n. induction path as [| a path IH]; intros n Hn.
  - cbn [length] in Hn. replace n with 0%nat by lia. reflexivity.
  - destruct n as [| n]; [reflexivity |].
    cbn [seq map firstn]. f_equal. rewrite <- seq_shift, map_map.
    rewrite <- IH by (cbn [length] in Hn; lia).
    apply map_ext. intros j. unfold at_. rewrite !Nat2Z.id. reflexivity.
Qed.

(** The highlighted stroke is a prefix of the path. *)
Lemma highlighted_prefix (t : CourseTracker) :
  let path := splinePath (course t) in
  let lower := Qfloor (progress t * inject_Z (Z.of_nat (length path) - 1)) in
  (2 <= length path)%nat -> 0 < progress t ->
  highlighted t = firstn (Z.to_nat (lower + 1)) path.
Proof.
  intros path lower Hlen Hp. unfold highlighted. fold path.
  destruct (length path <? 2)%nat eqn:H2; [apply Nat.ltb_lt in H2; lia |].
  apply Qlt_bool_iff in Hp. rewrite Hp. apply Qlt_bool_iff in Hp. fold lower.
  assert (H0 : (0 <= lower)%Z).
  { subst lower. change 0%Z with (Qfloor 0). apply Qfloor_resp_le.
    apply Qmult_le_0_compat; [lra |].
    change 0 with (inject_Z 0). rewrite <- Zle_Qle. lia. }
  rewrite lineTos_enough by lia.
  set (n := Nat.min (length path) (Z.to_nat (lower + 1))).
  assert (Hn : (1 <= n)%nat) by (subst n; lia).
  change (at_ path 0 :: map (fun j => at_ path (Z.of_nat j)) (seq 1 (n - 1)))
    with (map (fun j => at_ path (Z.of_nat j)) (0%nat :: seq 1 (n - 1))).
  replace (0%nat :: seq 1 (n - 1)) with (seq 0 n)
    by (destruct n; [lia | replace (S n - 1)%nat with n by lia; reflexivity]).
  rewrite map_at_firstn by (subst n; lia).
  subst n. destruct (Nat.min_spec (length path) (Z.to_nat (lower + 1))) as [[Hlt ->] | [Hge ->]].
  - rewrite !firstn_all2 by lia. reflexivity.
  - reflexivity.
Qed.


Lemma last_firstn {A : Type} (l : list A) (k : nat) (d : A) :
  (k < length l)%nat -> last (firstn (S k) l) d = nth k l d.
Proof.
  revert k. induction l as [| a l IH]; intros k Hk; [cbn in Hk; lia |].
  destruct k as [| k].
  - reflexivity.
  - cbn [length] in Hk. destruct l as [| b l]; [cbn in Hk; lia |].
    change (firstn (S (S k)) (a :: b :: l)) with (a :: firstn (S k) (b :: l)).
    change (firstn (S k) (b :: l)) with (b :: firstn k l).
    change (last (a :: b :: firstn k l) d) with (last (b :: firstn k l) d).
    change (b :: firstn k l) with (firstn (S k) (b :: l)).
    rewrite IH by lia. reflexivity.
Qed.

Lemma filter_map_comm {A B : Type} (f : B -> bool) (g : A -> B) (l : list A) :
  filter f (map g l) = map g (filter (fun a => f (g a)) l).
Proof.
  induction l as [| a l IH]; [reflexivity |].
  cbn [map filter]. destruct (f (g a)); cbn [map]; rewrite IH; reflexivity.
Qed.

(** X15. In a session on two or more stations, the highlighted stroke of the
    course path is empty at progress 0 and otherwise the path from its
    first sample to the sample just behind the athlete: the sample
    [getPositionAtProgress] interpolates from. *)
Theorem highlight_ends_behind_the_athlete (sqrt : Q -> Q) (stations : list Station)
    (ss gs : list Split) (label : option string) (ops : list Op) :
  (2 <= length stations)%nat ->
  let t := run random ops (construct sqrt stations ss gs label) in
  let path := splinePath (course t) in
  let len := Z.of_nat (length path) in
  let lower := Qfloor (progress t * inject_Z (len - 1)) in
  (progress t <= 0 -> highlighted t = []) /\
  (0 < progress t ->
   (0 <= lower <= len - 1)%Z /\
   highlighted t = firstn (Z.to_nat lower + 1) path /\
   last (highlighted t) (mkPoint 0 0) = at_ path lower /\
   lower = Qfloor (Qmax 0 (Qmin 1 (progress t)) * inject_Z (len - 1))).
Proof.
  intros Hn t path len lower.
  assert (Hpath : path = generateSplinePath (map pos stations) 30).
  { subst path t. rewrite run_course. unfold construct.
    destruct (buildTimeline ss), (buildTimeline gs). reflexivity. }
  assert (Hlen : length path = ((length stations - 1) * 30 + 1)%nat).
  { rewrite Hpath, generateSplinePath_length by (rewrite length_map; exact Hn).
    rewrite length_map. reflexivity. }
  assert (H2 : (2 <= length path)%nat) by (rewrite Hlen; lia).
  assert (Hle : progress t <= 1).
  { apply (run_clock random ops), construct_clock. }
  split.
  - intros Hp. unfold highlighted. fold path.
    destruct (length path <? 2)%nat; [reflexivity |].
    rewrite (Qlt_bool_false 0 (progress t) Hp). reflexivity.
  - intros Hp.
    assert (Hc : Qmax 0 (Qmin 1 (progress t)) == progress t)
      by (apply clamp_inside; split; lra).
    assert (Hfloor : lower = Qfloor (Qmax 0 (Qmin 1 (progress t)) * inject_Z (len - 1))).
    { subst lower. apply Qfloor_comp. rewrite Hc. reflexivity. }
    assert (Hne : path <> []) by (intros E; rewrite E in H2; cbn in H2; lia).
    destruct (getPositionAtProgress_in_range path (progress t) Hne) as [Hr _].
    cbv zeta in Hr. fold len in Hr. rewrite <- Hfloor in Hr.
    pose proof (highlighted_prefix t H2 Hp) as Hh. cbv zeta in Hh.
    fold path in Hh. fold len in Hh. fold lower in Hh.
    replace (Z.to_nat (lower + 1)) with (Z.to_nat lower + 1)%nat in Hh by lia.
    split; [exact Hr |]. split; [exact Hh |]. split; [| exact Hfloor].
    rewrite Hh, Nat.add_1_r, last_firstn by lia. reflexivity.
Qed.

(** X16. In every state a session reaches, the station markers and the dots of
    the progress bar show the same stations as reached,
    [lastStationIndex + 1] of them; at most one marker is active, and only
    while playing: it is a reached one, drawn with radius 16, the others
    with radius 13 (reached) or 11. *)
Theorem station_markers_and_bar_dots_agree (sqrt : Q -> Q) (stations : list Station)
    (ss gs : list Split) (label : option string) (ops : list Op) (W H : Q) :
  let t := run random ops (construct sqrt stations ss gs label) in
  let markers := _drawStations W H t in
  let bar := _drawProgressBar W H t in
  length markers = length stations /\
  length (dots bar) = length stations /\
  map isReached markers = map snd (dots bar) /\
  length (filter isReached markers) = Z.to_nat (lastStationIndex t + 1) /\
  (length (filter isActive markers) <= 1)%nat /\
  (forall m, In m markers -> isActive m = true ->
     isPlaying t = true /\ isReached m = true /\ markerRadius m = 16) /\
  (forall m, In m markers -> isActive m = false ->
     markerRadius m = if isReached m then 13 else 11).
Proof.
  intros t markers bar.
  pose proof (session_station_index random sqrt stations ss gs label ops) as Hs.
  cbv zeta in Hs. fold t in Hs. destruct Hs as (Hst & Hlen & Hidx).
  subst markers bar. unfold _drawStations, _drawProgressBar. cbn [dots].
  rewrite Hst, Hlen.
  split; [rewrite length_map, length_seq; reflexivity |].
  split; [rewrite length_map, length_seq; reflexivity |].
  split; [rewrite !map_map; reflexivity |].
  split; [| split; [| split]].
  - rewrite filter_map_comm, length_map. cbn [isReached].
    rewrite filter_seq_reached by lia. rewrite length_seq. lia.
  - rewrite filter_map_comm, length_map. cbn [isActive].
    destruct (isPlaying t).
    + rewrite (filter_ext _ (fun i => (Z.of_nat i =? lastStationIndex t)%Z))
        by (intros i; apply andb_true_r).
      apply filter_seq_active.
    + rewrite (filter_ext _ (fun _ => false)) by (intros i; apply andb_false_r).
      rewrite filter_false. cbn. lia.
  - intros m Hin Hact. apply in_map_iff in Hin. destruct Hin as (i & <- & _).
    cbn [isActive isReached markerRadius] in *. rewrite Hact.
    apply andb_prop in Hact. destruct Hact as [Hi Hp].
    apply Z.eqb_eq in Hi. repeat split; [exact Hp |]. apply Z.leb_le. lia.
  - intros m Hin Hact. apply in_map_iff in Hin. destruct Hin as (i & <- & _).
    cbn [isActive isReached markerRadius] in *. rewrite Hact. reflexivity.
Qed.

(** X17. On a canvas at least 32 wide, the progress bar of a session stays on
    its track: the filled width is at most the track width, and every
    station dot lies between the two ends of the track, whatever the
    stations are. *)
Theorem progress_bar_stays_on_its_track (sqrt : Q -> Q)
    (sqrt_nonneg : forall v, 0 <= sqrt v) (sqrt_pos : forall v, 0 < v -> 0 < sqrt v)
    (stations : list Station) (ss gs : list Split) (label : option string)
    (ops : list Op) (W H : Q) :
  32 <= W ->
  let t := run random ops (construct sqrt stations ss gs label) in
  let bar := _drawProgressBar W H t in
  filledW bar <= barW bar /\
  (0 <= progress t -> 0 <= filledW bar) /\
  Forall (fun dot => barX bar <= fst dot <= barX bar + barW bar) (dots bar).
Proof.
  intros HW t bar.
  assert (Hle : progress t <= 1) by (apply (run_clock random ops), construct_clock).
  assert (Hth : stationProgresses (course t) = stationProgressMap sqrt (map pos stations) 30).
  { subst t. rewrite run_course. apply construct_stationProgresses. }
  subst bar. unfold _drawProgressBar. cbn [filledW barW barX dots].
  split; [nra |]. split; [intros H0; nra |].
  apply Forall_map, Forall_forall. intros i Hi. cbn [fst].
  apply in_seq in Hi. rewrite Hth in *.
  assert (Hi' : (i < length (map pos stations))%nat).
  { unfold stationProgressMap in Hi. rewrite length_map, length_seq in Hi. lia. }
  pose proof (stationProgressMap_range sqrt sqrt_nonneg sqrt_pos (map pos stations) 30 i
                ltac:(lia) Hi') as [H0 H1].
  split; nra.
Qed.

End CanvasFacts.

(* ================================================================== *)
(** * Time formats *)
(* ================================================================== *)

Section FormatFacts.
Import Tracker Shared.

Lemma append_assoc (a b c : string) : ((a ++ b) ++ c = a ++ b ++ c)%string.
Proof. induction a as [| ch a IH]; [reflexivity | cbn; rewrite IH; reflexivity]. Qed.

Lemma length_append (a b : string) :
  String.length (a ++ b) = (String.length a + String.length b)%nat.
Proof. induction a as [| ch a IH]; [reflexivity | cbn; rewrite IH; reflexivity]. Qed.

Lemma pad2_two_digits (n : Z) : (0 <= n < 100)%Z -> String.length (pad2 n) = 2%nat.
Proof.
  intros Hn.
  assert (Hall : forallb (fun k => (String.length (pad2 (Z.of_nat k)) =? 2)%nat)
                         (seq 0 100) = true) by (vm_compute; reflexivity).
  rewrite forallb_forall in Hall.
  specialize (Hall (Z.to_nat n)). rewrite Z2Nat.id in Hall by lia.
  apply Nat.eqb_eq, Hall, in_seq. lia.
Qed.

Lemma Qfloor_int_le (z : Z) (v : Q) : inject_Z z <= v -> (z <= Qfloor v)%Z.
Proof. intros H. rewrite <- (Qfloor_Z z). apply Qfloor_resp_le, H. Qed.

Lemma Qfloor_lt_int (z : Z) (v : Q) : v < inject_Z z -> (Qfloor v < z)%Z.
Proof.
  intros H. rewrite Zlt_Qlt. eapply Qle_lt_trans; [apply Qfloor_le | exact H].
Qed.

Lemma Qfloor_bounds (v : Q) : inject_Z (Qfloor v) <= v < inject_Z (Qfloor v) + 1.
Proof.
  split; [apply Qfloor_le |].
  pose proof (Qlt_floor v) as H. rewrite inject_Z_plus in H. exact H.
Qed.

(** The floor of a quotient by [k * n] is the integer quotient by [n] of
    the floor of the quotient by [k]. *)
Lemma Qfloor_nested (v : Q) (k n : Z) :
  (0 < k)%Z -> (0 < n)%Z ->
  Qfloor (v / inject_Z (k * n)) = (Qfloor (v / inject_Z k) / n)%Z.
Proof.
  intros Hk Hn.
  assert (Hkq : 0 < inject_Z k) by (change 0 with (inject_Z 0); rewrite <- Zlt_Qlt; lia).
  assert (Hnq : 0 < inject_Z n) by (change 0 with (inject_Z 0); rewrite <- Zlt_Qlt; lia).
  set (q := Qfloor (v / inject_Z (k * n))).
  set (T := Qfloor (v / inject_Z k)).
  destruct (Qfloor_bounds (v / inject_Z (k * n))) as [Hq0 Hq1]. fold q in Hq0, Hq1.
  assert (Hsplit : v / inject_Z (k * n) == v / inject_Z k / inject_Z n).
  { rewrite inject_Z_mult. field. split; lra. }
  rewrite Hsplit in Hq0, Hq1.
  assert (Hlo : inject_Z (n * q) <= v / inject_Z k).
  { rewrite inject_Z_mult.
    apply Qmult_le_l with (z := / inject_Z n); [apply Qinv_lt_0_compat, Hnq |].
    setoid_replace (/ inject_Z n * (inject_Z n * inject_Z q)) with (inject_Z q)
      by (field; lra).
    setoid_replace (/ inject_Z n * (v / inject_Z k)) with (v / inject_Z k / inject_Z n)
      by (field; split; lra).
    exact Hq0. }
  assert (Hhi : v / inject_Z k < inject_Z (n * q + n)).
  { rewrite inject_Z_plus, inject_Z_mult.
    apply Qmult_lt_l with (z := / inject_Z n); [apply Qinv_lt_0_compat, Hnq |].
    setoid_replace (/ inject_Z n * (inject_Z n * inject_Z q + inject_Z n))
      with (inject_Z q + 1) by (field; lra).
    setoid_replace (/ inject_Z n * (v / inject_Z k)) with (v / inject_Z k / inject_Z n)
      by (field; split; lra).
    exact Hq1. }
  apply Qfloor_int_le in Hlo. fold T in Hlo.
  apply Qfloor_lt_int in Hhi. fold T in Hhi.
  apply Z.div_unique with (r := (T - n * q)%Z); lia.
Qed.

(** For non-negative [a] and positive [b], [a % b] is what is left of [a]
    above the largest multiple of [b] below it. *)
Lemma jsRem_nonneg (a : Q) (b : Z) :
  0 <= a -> (0 < b)%Z ->
  jsRem a (inject_Z b) = a - inject_Z b * inject_Z (Qfloor (a / inject_Z b)) /\
  0 <= jsRem a (inject_Z b) < inject_Z b.
Proof.
  intros Ha Hb.
  assert (Hbq : 0 < inject_Z b) by (change 0 with (inject_Z 0); rewrite <- Zlt_Qlt; lia).
  assert (Hq : 0 <= a / inject_Z b).
  { apply Qle_shift_div_l; [exact Hbq | lra]. }
  unfold jsRem, Qtrunc. apply Qle_bool_iff in Hq. rewrite Hq. apply Qle_bool_iff in Hq.
  split; [reflexivity |].
  destruct (Qfloor_bounds (a / inject_Z b)) as [H0 H1].
  set (f := inject_Z (Qfloor (a / inject_Z b))) in *.
  assert (Ha' : a == a / inject_Z b * inject_Z b) by (field; lra).
  split.
  - assert (f * inject_Z b <= a / inject_Z b * inject_Z b)
      by (apply Qmult_le_compat_r; lra). lra.
  - assert (a / inject_Z b * inject_Z b < (f + 1) * inject_Z b)
      by (apply Qmult_lt_compat_r; lra). lra.
Qed.


Lemma Qfloor_unique (z : Z) (v : Q) :
  inject_Z z <= v < inject_Z z + 1 -> Qfloor v = z.
Proof.
  intros [H0 H1]. apply Qfloor_int_le in H0.
  assert (H2 : (Qfloor v < z + 1)%Z)
    by (apply Qfloor_lt_int; rewrite inject_Z_plus; exact H1).
  lia.
Qed.

Lemma Qfloor_nonneg (v : Q) : 0 <= v -> (0 <= Qfloor v)%Z.
Proof. intros H. apply Qfloor_int_le. exact H. Qed.

(** The whole seconds of a non-negative time, as [_formatTime] and
    [formatTimeMs] split them. *)
Lemma whole_seconds (ms : Q) :
  0 <= ms ->
  let T := Qfloor (ms / 1000) in
  (0 <= T)%Z /\
  inject_Z T * 1000 <= ms < (inject_Z T + 1) * 1000 /\
  Qfloor (ms / 60000) = (T / 60)%Z /\
  (0 <= T / 60)%Z /\
  Z.rem T 60 = (T - 60 * (T / 60))%Z /\
  (0 <= Z.rem T 60 < 60)%Z.
Proof.
  intros Hms T.
  assert (HT : (0 <= T)%Z).
  { apply Qfloor_nonneg. change (ms / 1000) with (ms * (1#1000)). lra. }
  destruct (Qfloor_bounds (ms / 1000)) as [H0 H1]. fold T in H0, H1.
  change (ms / 1000) with (ms * (1#1000)) in H0, H1.
  split; [exact HT |]. split; [split; lra |].
  split; [exact (Qfloor_nested ms 1000 60 eq_refl eq_refl) |].
  rewrite Z.rem_mod_nonneg by lia.
  pose proof (Z.div_mod T 60 ltac:(lia)). pose proof (Z.mod_pos_bound T 60 ltac:(lia)).
  pose proof (Z.div_pos T 60 HT ltac:(lia)).
  repeat split; lia.
Qed.

(** X18. [_formatTime] prints the whole minutes and the remaining whole seconds
    of a non-negative time, each padded to two digits: five characters
    below 100 minutes. *)
Theorem formatTime_shows_minutes_and_seconds (ms : Q) :
  0 <= ms ->
  exists m s : Z,
    _formatTime ms = (pad2 m ++ ":" ++ pad2 s)%string /\
    (0 <= m)%Z /\ (0 <= s < 60)%Z /\
    (60 * m + s)%Z = Qfloor (ms / 1000) /\
    inject_Z (60 * m + s) * 1000 <= ms < (inject_Z (60 * m + s) + 1) * 1000 /\
    (ms < 6000000 -> String.length (_formatTime ms) = 5%nat).
Proof.
  intros Hms.
  destruct (whole_seconds ms Hms) as (HT & Hb & _ & Hm & Hs & Hs60).
  cbv zeta in *. set (T := Qfloor (ms / 1000)) in *.
  exists (T / 60)%Z, (Z.rem T 60).
  assert (Hsum : (60 * (T / 60) + Z.rem T 60)%Z = T) by lia.
  split; [reflexivity |]. split; [exact Hm |]. split; [exact Hs60 |].
  split; [exact Hsum |]. rewrite Hsum. split; [exact Hb |].
  intros Hlt. unfold _formatTime. fold T.
  assert (HT6 : (T < 6000)%Z).
  { rewrite Zlt_Qlt. destruct Hb as [Hb0 _]. change (inject_Z 6000) with 6000. lra. }
  rewrite !length_append, !pad2_two_digits by lia. reflexivity.
Qed.

(** X19. For a non-negative time, [formatTimeMs] prints what [_formatTime]
    prints, followed by a point and the hundredths of the running second;
    minutes, seconds and hundredths give the time back to within 10 ms. *)
Theorem formatTimeMs_extends_formatTime (ms : Q) :
  0 <= ms ->
  let '(mins, secs, cs) := msParts ms in
  (0 <= mins)%Z /\ (0 <= secs < 60)%Z /\ (0 <= cs < 100)%Z /\
  0 <= ms - inject_Z (60000 * mins + 1000 * secs + 10 * cs) < 10 /\
  formatTimeMs ms = (_formatTime ms ++ "." ++ pad2 cs)%string /\
  (ms < 6000000 -> String.length (formatTimeMs ms) = 8%nat).
Proof.
  intros Hms.
  destruct (whole_seconds ms Hms) as (HT & Hb & Hmins & Hm & Hs & Hs60).
  cbv zeta in *. set (T := Qfloor (ms / 1000)) in *.
  destruct (jsRem_nonneg ms 60000 Hms eq_refl) as [Hr1 Hr1b].
  destruct (jsRem_nonneg ms 1000 Hms eq_refl) as [Hr2 Hr2b].
  change (inject_Z 60000) with 60000 in *. change (inject_Z 1000) with 1000 in *.
  fold T in Hr2. rewrite Hmins in Hr1.
  assert (Hsecs : Qfloor (jsRem ms 60000 / 1000) = Z.rem T 60).
  { rewrite Hs. apply Qfloor_unique. rewrite Hr1.
    assert (Hinj : inject_Z (T - 60 * (T / 60)) == inject_Z T - 60 * inject_Z (T / 60)).
    { unfold Z.sub. rewrite inject_Z_plus, inject_Z_opp, inject_Z_mult. reflexivity. }
    rewrite Hinj.
    set (q := inject_Z (T / 60)) in *. set (t := inject_Z T) in *.
    change ((ms - 60000 * q) / 1000) with ((ms - 60000 * q) * (1#1000)).
    destruct Hb as [Hb0 Hb1]. split; lra. }
  set (cs := Qfloor (jsRem ms 1000 / 10)).
  destruct (Qfloor_bounds (jsRem ms 1000 / 10)) as [Hc0 Hc1]. fold cs in Hc0, Hc1.
  change (jsRem ms 1000 / 10) with (jsRem ms 1000 * (1#10)) in Hc0, Hc1.
  assert (Hcs : (0 <= cs < 100)%Z).
  { split.
    - apply Qfloor_nonneg. change (jsRem ms 1000 / 10) with (jsRem ms 1000 * (1#10)). lra.
    - apply Qfloor_lt_int. change (jsRem ms 1000 / 10) with (jsRem ms 1000 * (1#10)).
      change (inject_Z 100) with 100. lra. }
  unfold formatTimeMs, msParts. cbv zeta. rewrite Hmins, Hsecs. fold cs.
  split; [exact Hm |]. split; [exact Hs60 |]. split; [exact Hcs |].
  split; [| split].
  - replace (60000 * (T / 60) + 1000 * Z.rem T 60 + 10 * cs)%Z with (1000 * T + 10 * cs)%Z
      by lia.
    rewrite inject_Z_plus, !inject_Z_mult.
    change (inject_Z 1000) with 1000. change (inject_Z 10) with 10.
    rewrite Hr2 in Hc0, Hc1. split; lra.
  - unfold _formatTime. fold T. rewrite !append_assoc. reflexivity.
  - intros Hlt.
    assert (HT6 : (T < 6000)%Z).
    { rewrite Zlt_Qlt. destruct Hb as [Hb0 _]. change (inject_Z 6000) with 6000. lra. }
    rewrite !length_append, !pad2_two_digits by lia. reflexivity.
Qed.

(** X20. [formatTimeSec] splits a non-negative whole number of seconds into
    hours, minutes below 60 and seconds below 60 that add up to it, and
    prints the hours from one hour on. *)
Theorem formatTimeSec_splits_whole_seconds (t : Z) :
  (0 <= t)%Z ->
  let '(hrs, mins, secs) := secParts t in
  (0 <= hrs)%Z /\ (0 <= mins < 60)%Z /\ (0 <= secs < 60)%Z /\
  (3600 * hrs + 60 * mins + secs)%Z = t /\
  formatTimeSec t
  = (if (t <? 3600)%Z
     then NilEmpty.string_of_int (Z.to_int mins) ++ ":" ++ pad2 secs
     else NilEmpty.string_of_int (Z.to_int hrs) ++ ":" ++ pad2 mins ++ ":" ++ pad2 secs)%string.
Proof.
  intros Ht. unfold formatTimeSec, secParts. cbv zeta.
  rewrite !Z.rem_mod_nonneg by lia.
  assert (H : (0 <= t / 3600)%Z /\ (0 <= t mod 3600 / 60 < 60)%Z /\ (0 <= t mod 60 < 60)%Z /\
              (3600 * (t / 3600) + 60 * (t mod 3600 / 60) + t mod 60)%Z = t /\
              ((0 <? t / 3600)%Z = negb (t <? 3600)%Z)).
  { destruct (0 <? t / 3600)%Z eqn:H1; destruct (t <? 3600)%Z eqn:H2; cbn [negb];
      try apply Z.ltb_lt in H1; try apply Z.ltb_ge in H1;
      try apply Z.ltb_lt in H2; try apply Z.ltb_ge in H2;
      Z.to_euclidean_division_equations; lia. }
  destruct H as (H1 & H2 & H3 & H4 & H5).
  split; [exact H1 |]. split; [exact H2 |]. split; [exact H3 |]. split; [exact H4 |].
  rewrite H5. destruct (t <? 3600)%Z; reflexivity.
Qed.

End FormatFacts.

(* ================================================================== *)
(** * The 3D scene *)
(* ================================================================== *)

Section SceneFacts.
Import Spline StationModel Scene3D.

Variable parse : string -> Result JsValue.
Variables cos sin : Q -> Q.
Variable PI : Q.

Lemma cube_le (u v : Q) : 0 <= u <= v -> u * u * u <= v * v * v.
Proof.
  intros [H0 H1].
  assert (H2 : 0 <= (v - u) * (v * v + u * v + u * u)).
  { apply Qmult_le_0_compat; [lra |].
    assert (0 <= v * v) by (apply Qmult_le_0_compat; lra).
    assert (0 <= u * v) by (apply Qmult_le_0_compat; lra).
    assert (0 <= u * u) by (apply Qmult_le_0_compat; lra). lra. }
  lra.
Qed.

Lemma cube_nonneg (u : Q) : 0 <= u -> 0 <= u * u * u.
Proof. intros H. pose proof (cube_le 0 u ltac:(lra)). lra. Qed.

Lemma cube_le_one (u : Q) : 0 <= u <= 1 -> u * u * u <= 1.
Proof. intros H. pose proof (cube_le u 1 H). lra. Qed.

Lemma ease_low (t : Q) : t < 1#2 -> easeInOutCubic t = 4 * t * t * t.
Proof.
  intros H. unfold easeInOutCubic. apply Qlt_bool_iff in H. rewrite H. reflexivity.
Qed.

Lemma ease_high (t : Q) :
  1#2 <= t -> easeInOutCubic t = 1 - ((-2 * t + 2) * (-2 * t + 2) * (-2 * t + 2)) / 2.
Proof.
  intros H. unfold easeInOutCubic. rewrite (Qlt_bool_false t (1#2) H). reflexivity.
Qed.

Lemma ease_range (t : Q) : 0 <= t <= 1 -> 0 <= easeInOutCubic t <= 1.
Proof.
  intros [H0 H1]. destruct (Qlt_le_dec t (1#2)) as [Hlt | Hge].
  - rewrite (ease_low t Hlt).
    pose proof (cube_nonneg t H0). pose proof (cube_le t (1#2) ltac:(lra)). lra.
  - rewrite (ease_high t Hge). set (u := -2 * t + 2).
    assert (Hu : 0 <= u <= 1) by (subst u; lra).
    pose proof (cube_nonneg u ltac:(lra)). pose proof (cube_le_one u Hu).
    change (u * u * u / 2) with (u * u * u * (1#2)). lra.
Qed.

Lemma ease_monotone (a b : Q) :
  0 <= a -> a <= b -> b <= 1 -> easeInOutCubic a <= easeInOutCubic b.
Proof.
  intros H0 Hab H1.
  destruct (Qlt_le_dec b (1#2)) as [Hb | Hb].
  - rewrite (ease_low a) by lra. rewrite (ease_low b Hb).
    pose proof (cube_le a b ltac:(lra)). lra.
  - rewrite (ease_high b Hb). set (v := -2 * b + 2).
    assert (Hv : 0 <= v <= 1) by (subst v; lra).
    change (v * v * v / 2) with (v * v * v * (1#2)).
    destruct (Qlt_le_dec a (1#2)) as [Ha | Ha].
    + rewrite (ease_low a Ha).
      pose proof (cube_le a (1#2) ltac:(lra)). pose proof (cube_le_one v Hv). lra.
    + rewrite (ease_high a Ha). set (u := -2 * a + 2).
      change (u * u * u / 2) with (u * u * u * (1#2)).
      pose proof (cube_le v u ltac:(subst u v; lra)). lra.
Qed.

(** X21. The easing of the flythrough maps 0, 1/2 and 1 to themselves, maps
    the interval from 0 to 1 into itself, never decreases on it, and is
    symmetric about its midpoint. *)
Theorem flythrough_easing_is_monotone :
  easeInOutCubic 0 == 0 /\
  easeInOutCubic (1#2) == 1#2 /\
  easeInOutCubic 1 == 1 /\
  (forall t, 0 <= t <= 1 -> 0 <= easeInOutCubic t <= 1) /\
  (forall a b, 0 <= a -> a <= b -> b <= 1 -> easeInOutCubic a <= easeInOutCubic b) /\
  (forall t, 0 <= t <= 1 -> easeInOutCubic t + easeInOutCubic (1 - t) == 1).
Proof.
  split; [reflexivity |]. split; [reflexivity |]. split; [reflexivity |].
  split; [exact ease_range |]. split; [exact ease_monotone |].
  intros t [H0 H1]. destruct (Qlt_le_dec t (1#2)) as [Hlt | Hge].
  - rewrite (ease_low t Hlt), (ease_high (1 - t)) by lra. field.
  - rewrite (ease_high t Hge).
    destruct (Qlt_le_dec (1 - t) (1#2)) as [Hlt' | Hge'].
    + rewrite (ease_low (1 - t) Hlt'). field.
    + assert (Ht : t == 1#2) by lra.
      rewrite (ease_high (1 - t) Hge'). rewrite Ht. reflexivity.
Qed.


(** ** The frame loop of the scene *)

Lemma hasRaf_some (s : Scene) (id : nat) :
  _rafId s = Some id -> id <> 0%nat -> hasRaf s = true.
Proof.
  intros Hr Hid. unfold hasRaf. rewrite Hr.
  destruct (id =? 0)%nat eqn:E; [apply Nat.eqb_eq in E; contradiction | reflexivity].
Qed.

Lemma play_loop (s : Scene) : sceneLoop s -> sceneLoop (play s) /\ pending (play s) = pending s.
Proof.
  intros [Hn Hl]. unfold sceneLoop, play. cbn [nextId _destroyed pending _rafId].
  destruct (_destroyed s) eqn:Hd.
  - rewrite andb_false_r. repeat split; try assumption; apply Hl.
  - destruct Hl as (id & Hp & Hr & Hid). rewrite (hasRaf_some s id Hr Hid). cbn [negb andb].
    repeat split; try assumption. exists id. repeat split; assumption.
Qed.

Lemma destroy_loop (s : Scene) : sceneLoop s -> sceneLoop (destroy s).
Proof.
  intros [Hn Hl]. unfold sceneLoop, destroy. cbn [nextId _destroyed pending _rafId].
  split; [exact Hn |].
  destruct (_destroyed s) eqn:Hd.
  - destruct Hl as [Hp Hr]. unfold hasRaf. rewrite Hr, Hp. split; reflexivity.
  - destruct Hl as (id & Hp & Hr & Hid). rewrite (hasRaf_some s id Hr Hid), Hr, Hp.
    cbn [filter]. rewrite Nat.eqb_refl. split; reflexivity.
Qed.

Lemma frame_loop (dt : Q) (s : Scene) : sceneLoop s -> sceneLoop (frame dt s).
Proof.
  intros [Hn Hl]. unfold frame.
  destruct (_destroyed s) eqn:Hd.
  - destruct Hl as [Hp Hr]. rewrite Hp. unfold sceneLoop. rewrite Hd. repeat split; assumption.
  - destruct Hl as (id & Hp & Hr & Hid). rewrite Hp.
    unfold _animate. cbn [_destroyed nextId _paused pending].
    destruct (_paused s); unfold sceneLoop; cbn [nextId _destroyed pending _rafId app];
      (split; [lia |]); exists (nextId s); repeat split; lia.
Qed.

Lemma sceneStep_loop (op : SceneOp) (s : Scene) : sceneLoop s -> sceneLoop (sceneStep s op).
Proof.
  intros Hl. destruct op as [| | | dt]; cbn [sceneStep].
  - apply play_loop, Hl.
  - exact Hl.
  - apply destroy_loop, Hl.
  - apply frame_loop, Hl.
Qed.

Lemma sceneRun_loop (ops : list SceneOp) (s : Scene) : sceneLoop s -> sceneLoop (sceneRun ops s).
Proof.
  revert s. induction ops as [| op ops IH]; intros s Hl; [exact Hl |].
  change (sceneRun (op :: ops) s) with (sceneRun ops (sceneStep s op)).
  apply IH, sceneStep_loop, Hl.
Qed.

Lemma sceneStep_destroyed (op : SceneOp) (s : Scene) :
  _destroyed s = true -> pending s = [] ->
  _destroyed (sceneStep s op) = true /\ pending (sceneStep s op) = [] /\
  rendered (sceneStep s op) = rendered s /\ cameraAt (sceneStep s op) = cameraAt s.
Proof.
  intros Hd Hp. destruct op as [| | | dt]; cbn [sceneStep].
  - unfold play. cbn [_destroyed pending rendered cameraAt]. rewrite Hd, andb_false_r.
    repeat split; assumption.
  - repeat split; assumption.
  - unfold destroy. cbn [_destroyed pending rendered cameraAt]. rewrite Hp.
    repeat split. destruct (_rafId s); [destruct (hasRaf s) |]; reflexivity.
  - unfold frame. rewrite Hp. repeat split; assumption.
Qed.

Lemma sceneRun_destroyed (ops : list SceneOp) (s : Scene) :
  _destroyed s = true -> pending s = [] ->
  _destroyed (sceneRun ops s) = true /\ pending (sceneRun ops s) = [] /\
  rendered (sceneRun ops s) = rendered s /\ cameraAt (sceneRun ops s) = cameraAt s.
Proof.
  revert s. induction ops as [| op ops IH]; intros s Hd Hp; [repeat split; assumption |].
  change (sceneRun (op :: ops) s) with (sceneRun ops (sceneStep s op)).
  destruct (sceneStep_destroyed op s Hd Hp) as (Hd' & Hp' & Hr' & Hc').
  destruct (IH _ Hd' Hp') as (H1 & H2 & H3 & H4).
  repeat split; congruence.
Qed.

Lemma construct_sceneLoop (coordinates : JsValue) (s : Scene) :
  construct parse cos sin PI coordinates = Ok s -> sceneLoop s.
Proof.
  unfold construct. destruct (sceneStations parse cos sin PI coordinates); [| discriminate].
  cbn [bind]. intros [= <-]. unfold sceneLoop. cbn.
  split; [lia |]. exists 1%nat. repeat split. lia.
Qed.

(** X22. A scene keeps exactly one animation-frame request pending until it is
    destroyed, whatever is called: [pause()] does not stop the loop and
    [play()] never starts a second one.  Once destroyed, the scene has no
    request pending, and no call or frame renders or requests anything
    again. *)
Theorem scene_loop_runs_until_destroyed (coordinates : JsValue) (s0 : Scene)
    (ops : list SceneOp) :
  construct parse cos sin PI coordinates = Ok s0 ->
  let s := sceneRun ops s0 in
  (_destroyed s = false -> exists id, pending s = [id] /\ _rafId s = Some id) /\
  (_destroyed s = true -> pending s = []) /\
  pending (play s) = pending s /\
  pending (pause s) = pending s /\
  (forall later,
     let s' := sceneRun later (destroy s) in
     _destroyed s' = true /\ pending s' = [] /\
     rendered s' = rendered s /\ cameraAt s' = cameraAt s).
Proof.
  intros Hc s.
  pose proof (sceneRun_loop ops s0 (construct_sceneLoop coordinates s0 Hc)) as Hl.
  fold s in Hl.
  split; [| split; [| split; [| split]]].
  - intros Hd. destruct Hl as [_ Hl]. rewrite Hd in Hl.
    destruct Hl as (id & Hp & Hr & _). exists id. split; assumption.
  - intros Hd. destruct Hl as [_ Hl]. rewrite Hd in Hl. apply Hl.
  - apply play_loop, Hl.
  - reflexivity.
  - intros later s'.
    pose proof (destroy_loop s Hl) as [_ Hd]. cbn [destroy _destroyed] in Hd.
    destruct Hd as [Hp _].
    destruct (sceneRun_destroyed later (destroy s) eq_refl Hp) as (H1 & H2 & H3 & H4).
    repeat split; assumption.
Qed.

(** ** The flythrough *)

Lemma animate_flythrough (dt : Q) (s : Scene) :
  let s' := _animate dt s in
  (_flythrough s = false -> _flythrough s' = false) /\
  (0 <= dt -> _flythroughElapsed s <= _flythroughElapsed s') /\
  (0 <= _flythroughElapsed s -> 0 <= dt ->
   forall e, cameraAt s' = Some e -> cameraAt s' <> cameraAt s -> 0 <= e <= 1).
Proof.
  unfold _animate. destruct (_destroyed s); [repeat split; try lra; congruence |].
  destruct (_paused s); cbn [_flythrough _flythroughElapsed cameraAt];
    [repeat split; try lra; congruence |].
  destruct (_flythrough s) eqn:Hf; cbn [andb].
  - destruct (courseCurve s).
    + split; [discriminate |]. split; [intros; lra |].
      intros He Hdt e [= <-] _. apply ease_range.
      split; [| apply Q.le_min_r].
      apply Q.min_glb; [| lra].
      change ((_flythroughElapsed s + dt) / 5) with ((_flythroughElapsed s + dt) * (1#5)).
      lra.
    + repeat split; try lra; congruence.
  - repeat split; try lra; congruence.
Qed.








(** ** The stations of a scene *)

Lemma fallback_keys :
  map sp_key (map (fallbackStation cos sin PI) (seq 0 8))
  = ["station_1"; "station_2"; "station_3"; "station_4";
     "station_5"; "station_6"; "station_7"; "station_8"]%string /\
  map sp_num (map (fallbackStation cos sin PI) (seq 0 8)) = [1; 2; 3; 4; 5; 6; 7; 8]%Z /\
  map sp_name (map (fallbackStation cos sin PI) (seq 0 8))
  = [JStr "Station 1"; JStr "Station 2"; JStr "Station 3"; JStr "Station 4";
     JStr "Station 5"; JStr "Station 6"; JStr "Station 7"; JStr "Station 8"].
Proof. repeat split. Qed.

(** X24. A scene never has an empty station list: when [buildStationPoints]
    finds no usable entry, the constructor takes eight stations on an
    oval, numbered 1 to 8; otherwise it takes what [buildStationPoints]
    returns.  What [buildStationPoints] throws, the constructor throws:
    without [coordinates] there is no scene, and no fallback. *)
Theorem scene_falls_back_to_an_oval (coordinates : JsValue) :
  let oval := map (fallbackStation cos sin PI) (seq 0 8) in
  (forall points, sceneStations parse cos sin PI coordinates = Ok points -> points <> []) /\
  (buildStationPoints parse coordinates true = Ok [] ->
   sceneStations parse cos sin PI coordinates = Ok oval) /\
  (forall p points, buildStationPoints parse coordinates true = Ok (p :: points) ->
   sceneStations parse cos sin PI coordinates = Ok (p :: points)) /\
  (forall e, buildStationPoints parse coordinates true = Throw e ->
   construct parse cos sin PI coordinates = Throw e) /\
  sceneStations parse cos sin PI (JObj []) = Ok oval /\
  construct parse cos sin PI JUndefined = Throw TypeError /\
  construct parse cos sin PI JNull = Throw TypeError /\
  map sp_key oval
  = ["station_1"; "station_2"; "station_3"; "station_4";
     "station_5"; "station_6"; "station_7"; "station_8"]%string /\
  map sp_num oval = [1; 2; 3; 4; 5; 6; 7; 8]%Z /\
  ((forall a, -1 <= cos a <= 1) -> (forall a, -1 <= sin a <= 1) -> Forall inOval oval).
Proof.
  intros oval. unfold sceneStations, construct, sceneStations.
  split; [| split; [| split; [| split; [| split; [| split; [| split; [| split; [| split]]]]]]]].
  - intros points. destruct (buildStationPoints parse coordinates true) as [pts |];
      [| discriminate].
    cbn [bind]. intros [= <-]. destruct pts; cbn; discriminate.
  - intros ->. reflexivity.
  - intros p points ->. reflexivity.
  - intros e ->. reflexivity.
  - reflexivity.
  - reflexivity.
  - reflexivity.
  - apply fallback_keys.
  - apply fallback_keys.
  - intros Hcos Hsin. subst oval. apply Forall_map, Forall_forall. intros i _.
    unfold inOval, fallbackStation. cbn [sp_x sp_y].
    eexists _, _. split; [reflexivity |]. split; [reflexivity |].
    pose proof (Hcos (QofNat i / 8 * PI * 2)).
    pose proof (Hsin (QofNat i / 8 * PI * 2)). split; lra.
Qed.

End SceneFacts.

(* ================================================================== *)
(** * The satellite map *)
(* ================================================================== *)

Section MapFacts.
Import Spline StationModel VenueMap.

Variable cos : Q -> Q.
Variable PI : Q.


(** ** The dash animation *)

Lemma dashFrame_valid (step : Q) :
  0 <= step < 6 ->
  0 <= fst (dashFrame step) < 6 /\ validDashes (snd (dashFrame step)).
Proof.
  intros [H0 H6]. unfold dashFrame. cbv zeta. cbn [fst snd].
  destruct (jsRem_nonneg (step + (15#100)) 6 ltac:(lra) eq_refl) as [_ Hrem].
  change (inject_Z 6) with (2 + 4) in Hrem.
  set (phase := Shared.jsRem (step + (15 # 100)) (2 + 4)) in *.
  change (0 <= phase < 6) in Hrem.
  split; [exact Hrem |].
  destruct Hrem as [Hp0 Hp6]. unfold validDashes.
  destruct (Qlt_le_dec phase 2) as [Hlt | Hge].
  - assert (Hd1 : Qmax 0 (2 - phase) == 2 - phase) by (apply Q.max_r; lra).
    assert (Hd2 : Qmin phase 2 == phase) by (apply Q.min_l; lra).
    assert (Hb1 : Qlt_bool 0 (Qmax 0 (2 - phase)) = true)
      by (apply Qlt_bool_iff; rewrite Hd1; lra).
    rewrite Hb1. cbn [andb].
    destruct (Qlt_bool 0 (Qmin phase 2)) eqn:Hb2.
    + left. eexists _, _. split; [reflexivity |].
      apply Qlt_bool_iff in Hb1, Hb2. rewrite Hd1, Hd2 in *. repeat split; lra.
    + right. left. eexists. split; [reflexivity |].
      assert (Hz : Qmin phase 2 <= 0).
      { destruct (Qlt_le_dec 0 (Qmin phase 2)) as [Hpos | Hle]; [| exact Hle].
        apply Qlt_bool_iff in Hpos. congruence. }
      rewrite Hd1. rewrite Hd2 in Hz. lra.
  - assert (Hd1 : Qmax 0 (2 - phase) == 0) by (apply Q.max_l; lra).
    assert (Hb1 : Qlt_bool 0 (Qmax 0 (2 - phase)) = false)
      by (apply Qlt_bool_false; rewrite Hd1; lra).
    rewrite Hb1. cbn [andb].
    right. right. eexists. split; [reflexivity |]. split; lra.
Qed.

Lemma dashFrames_valid (n : nat) (step : Q) :
  0 <= step < 6 -> Forall validDashes (dashFrames n step).
Proof.
  revert step. induction n as [| n IH]; intros step Hs; [constructor |].
  cbn [dashFrames]. destruct (dashFrame_valid step Hs) as [Hstep Hd].
  destruct (dashFrame step) as [step' dashes]. cbn [fst snd] in *.
  constructor; [exact Hd | apply IH, Hstep].
Qed.

(** X26. Every frame of the dash animation sets a dash array Mapbox can draw:
    no entry is negative, the dashes add up to the dash length 2, and the
    phase stays between 0 and the pattern length 6. *)
Theorem dash_animation_stays_valid (n : nat) :
  Forall validDashes (dashFrames n 0) /\
  (forall step, 0 <= step < 6 ->
     0 <= fst (dashFrame step) < 6 /\ validDashes (snd (dashFrame step))) /\
  (forall dashes, validDashes dashes -> Forall (fun d => 0 <= d) dashes).
Proof.
  split; [apply dashFrames_valid; lra |]. split; [exact dashFrame_valid |].
  intros dashes [(d1 & d2 & -> & H1 & H2 & _) | [(d1 & -> & H1) | (g & -> & Hg)]];
    repeat constructor; lra.
Qed.


(** ** The route line *)

Lemma pushPresent_app (props : list (string * JsValue)) (k1 k2 : list string) :
  pushPresent props (k1 ++ k2) = pushPresent props k1 ++ pushPresent props k2.
Proof. unfold pushPresent. rewrite map_app, filter_app. reflexivity. Qed.

Lemma pushPresent_In (props : list (string * JsValue)) (keys : list string) (e : JsValue) :
  In e (pushPresent props keys) <->
  exists k, In k keys /\ entryOf props k = e /\ truthy e = true.
Proof.
  unfold pushPresent. rewrite filter_In, in_map_iff. split.
  - intros [(k & He & Hk) Ht]. exists k. repeat split; assumption.
  - intros (k & Hk & He & Ht). split; [exists k; split; assumption | exact Ht].
Qed.

Lemma insertByRank_In (rank : string -> Z) (k k0 : string) (sorted : list string) :
  In k0 (insertByRank rank k sorted) <-> k0 = k \/ In k0 sorted.
Proof.
  induction sorted as [| k' rest IH]; cbn [insertByRank].
  - cbn. intuition.
  - destruct (rank k <? rank k')%Z; cbn [In]; [intuition | rewrite IH; intuition].
Qed.

Lemma sortByRank_In (rank : string -> Z) (keys : list string) (k0 : string) :
  In k0 (sortByRank rank keys) <-> In k0 keys.
Proof.
  unfold sortByRank.
  assert (H : forall acc, In k0 (fold_left (fun sorted k => insertByRank rank k sorted) keys acc)
                          <-> In k0 acc \/ In k0 keys).
  { induction keys as [| k keys IH]; intros acc; cbn [fold_left In]; [intuition |].
    rewrite IH, insertByRank_In. intuition. }
  rewrite H. cbn [In]. intuition.
Qed.

Lemma ownKeys_In (props : list (string * JsValue)) (seen : list string) (k : string) :
  In k (ownKeys props seen) <-> In k (map fst props) /\ ~ In k seen.
Proof.
  revert seen. induction props as [| [k' v] rest IH]; intros seen; cbn [ownKeys map fst In].
  - intuition.
  - destruct (existsb (fun k'' => (k' =? k'')%string) seen) eqn:Hex.
    + apply existsb_exists in Hex. destruct Hex as (k'' & Hin & Heq).
      apply String.eqb_eq in Heq. subst k''.
      rewrite IH. split.
      * intros [H1 H2]. split; [right; exact H1 | exact H2].
      * intros [[<- | H1] H2]; [contradiction | split; assumption].
    + assert (Hnot : ~ In k' seen).
      { intros Hin. apply Bool.not_true_iff_false in Hex. apply Hex.
        apply existsb_exists. exists k'. split; [exact Hin | apply String.eqb_refl]. }
      cbn [In]. rewrite IH. cbn [In]. split.
      * intros [<- | [H1 H2]]; [split; [left; reflexivity | exact Hnot] |].
        split; [right; exact H1 | intros Hs; apply H2; right; exact Hs].
      * intros [[<- | H1] H2]; [left; reflexivity |].
        destruct (String.eqb_spec k' k) as [-> | Hne]; [left; reflexivity |].
        right. split; [exact H1 |]. intros [Heq | Hs]; [contradiction | contradiction].
Qed.

Lemma propLookup_In (k : string) (props : list (string * JsValue)) (w : JsValue) :
  propLookup k props = Some w -> In k (map fst props).
Proof.
  revert w. induction props as [| [k' v] rest IH]; intros w; cbn [propLookup map fst In];
    [discriminate |].
  destruct (propLookup k rest) as [w' |].
  - intros _. right. apply (IH w'). reflexivity.
  - destruct (String.eqb_spec k k') as [-> | Hne]; [intros _; left; reflexivity | discriminate].
Qed.

Lemma entryOf_truthy_own (props : list (string * JsValue)) (k : string) :
  truthy (entryOf props k) = true -> In k (ownKeys props []).
Proof.
  unfold entryOf. destruct (propLookup k props) as [w |] eqn:Hl; [| discriminate].
  intros _. apply ownKeys_In. split; [eapply propLookup_In; exact Hl | intros []].
Qed.

(** X27. The route line has at least two stops when it is drawn.  It follows
    [ROUTE_ORDER] over the entries the mapping holds whenever that gives
    two stops or more: with a start it is a closed loop from the start
    back to the start, with a transition zone it has seven stops at
    least.  A mapping with a single known key gets that entry twice (and
    any unknown entries), by the fallback. *)
Theorem route_follows_the_race_order (props : list (string * JsValue)) :
  let known := pushPresent props ROUTE_ORDER in
  let stations := pushPresent props
                    ["station_1"; "roxzone"; "station_2"; "roxzone"; "station_3"; "roxzone";
                     "station_4"; "roxzone"; "station_5"; "roxzone"; "station_6"; "roxzone";
                     "station_7"; "roxzone"; "station_8"]%string in
  (forall route, routeStops props = Some route -> (2 <= length route)%nat) /\
  ((2 <= length known)%nat -> routeStops props = Some known) /\
  (truthy (entryOf props "start_finish") = true ->
   routeStops props
   = Some (entryOf props "start_finish" :: stations ++ [entryOf props "start_finish"])) /\
  (truthy (entryOf props "roxzone") = true ->
   routeStops props = Some known /\ (7 <= length known)%nat) /\
  (forall e, known = [e] ->
     exists rest, routeStops props = Some (e :: rest) /\ In e rest) /\
  (routeStops props = None -> known = []).
Proof.
  intros known stations.
  assert (Hknown : known
                   = (if truthy (entryOf props "start_finish")
                      then [entryOf props "start_finish"] else [])
                     ++ stations
                     ++ (if truthy (entryOf props "start_finish")
                         then [entryOf props "start_finish"] else [])).
  { subst known stations.
    change ROUTE_ORDER
      with (("start_finish"%string :: nil)
            ++ ["station_1"; "roxzone"; "station_2"; "roxzone"; "station_3"; "roxzone";
                "station_4"; "roxzone"; "station_5"; "roxzone"; "station_6"; "roxzone";
                "station_7"; "roxzone"; "station_8"]%string
            ++ ("start_finish"%string :: nil))%list.
    rewrite !pushPresent_app. unfold pushPresent at 1 3. cbn [map filter].
    reflexivity. }
  assert (Hdirect : (2 <= length known)%nat -> routeStops props = Some known).
  { intros Hlen. unfold routeStops. fold known.
    destruct (length known <? 2)%nat eqn:H2; [apply Nat.ltb_lt in H2; lia |].
    rewrite H2. reflexivity. }
  split; [| split; [exact Hdirect | split; [| split; [| split]]]].
  - intros route. unfold routeStops. fold known.
    destruct (length known <? 2)%nat eqn:H2.
    + destruct (length (known ++ _) <? 2)%nat eqn:H3; [discriminate |].
      intros [= <-]. apply Nat.ltb_ge in H3. exact H3.
    + rewrite H2. intros [= <-]. apply Nat.ltb_ge in H2. exact H2.
  - intros Hsf. rewrite Hknown in Hdirect. rewrite Hsf in Hdirect. cbn [app] in Hdirect.
    apply Hdirect. cbn [length]. rewrite length_app. cbn [length]. lia.
  - intros Hrz.
    assert (Hlen : (7 <= length known)%nat).
    { rewrite Hknown, !length_app. subst stations. unfold pushPresent.
      cbn [map filter]. rewrite Hrz.
      repeat (match goal with
              | |- context [truthy ?v] => destruct (truthy v)
              end; cbn [length]); lia. }
    split; [apply Hdirect; lia | exact Hlen].
  - intros e He. unfold routeStops. fold known. rewrite He. cbn [length Nat.ltb Nat.leb].
    set (ordered := sortByRank (fun k => indexOf k fallbackOrder 0) (ownKeys props [])).
    assert (Hin : In e (pushPresent props ordered)).
    { assert (Hk : In e known) by (rewrite He; left; reflexivity).
      apply pushPresent_In in Hk. destruct Hk as (k & _ & Hent & Ht).
      apply pushPresent_In. exists k. split; [| split; assumption].
      subst ordered. apply sortByRank_In, entryOf_truthy_own. rewrite Hent. exact Ht. }
    exists (pushPresent props ordered). split; [| exact Hin].
    cbn [app]. destruct (pushPresent props ordered) as [| e' rest]; [contradiction |].
    reflexivity.
  - unfold routeStops. subst known.
    destruct (pushPresent props ROUTE_ORDER) as [| e [| e' rest]] eqn:Hk.
    + intros _. reflexivity.
    + cbn [length Nat.ltb Nat.leb].
      set (ordered := sortByRank (fun k => indexOf k fallbackOrder 0) (ownKeys props [])).
      assert (Hin : In e (pushPresent props ordered)).
      { assert (Hke : In e (pushPresent props ROUTE_ORDER)) by (rewrite Hk; left; reflexivity).
        apply pushPresent_In in Hke. destruct Hke as (k & _ & Hent & Ht).
        apply pushPresent_In. exists k. split; [| split; assumption].
        subst ordered. apply sortByRank_In, entryOf_truthy_own. rewrite Hent. exact Ht. }
      destruct (pushPresent props ordered) as [| e'' rest']; [contradiction |]. discriminate.
    + cbn [length Nat.ltb Nat.leb]. discriminate.
Qed.

(** ** The markers *)







End MapFacts.

(* ================================================================== *)
(** * Play cycles *)
(* ================================================================== *)

Section CycleFacts.
Import Spline Tracker Notions SessionNotions.

Variable random : nat -> Q.

(** A predicate that holds on a prefix of the indices below [n]. *)
Lemma prefix_count (f : nat -> bool) (n : nat) :
  (forall i j, (i <= j < n)%nat -> f j = true -> f i = true) ->
  exists c, (c <= n)%nat /\ forall i, (i < n)%nat -> f i = (i <? c)%nat.
Proof.
  induction n as [| n IH]; intros Hpre.
  - exists 0%nat. split; [lia | intros i Hi; lia].
  - destruct IH as (c & Hc & Hf); [intros i j Hij; apply Hpre; lia |].
    destruct (f n) eqn:Hn.
    + exists (S n). split; [lia |]. intros i Hi.
      assert (Hfi : f i = true) by (apply (Hpre i n); [lia | exact Hn]).
      rewrite Hfi. symmetry. apply Nat.ltb_lt. lia.
    + exists c. split; [lia |]. intros i Hi.
      destruct (Nat.eq_dec i n) as [-> | Hne]; [| apply Hf; lia].
      rewrite Hn. symmetry. apply Nat.ltb_ge. exact Hc.
Qed.

Lemma filter_seq_nil (f : nat -> bool) (a n : nat) :
  (forall i, (a <= i < a + n)%nat -> f i = false) -> filter f (seq a n) = [].
Proof.
  revert a. induction n as [| n IH]; intros a Hf; [reflexivity |].
  cbn [seq filter]. rewrite (Hf a) by lia. apply IH. intros i Hi. apply Hf. lia.
Qed.

Lemma filter_seq_all (f : nat -> bool) (a n : nat) :
  (forall i, (a <= i < a + n)%nat -> f i = true) -> filter f (seq a n) = seq a n.
Proof.
  revert a. induction n as [| n IH]; intros a Hf; [reflexivity |].
  cbn [seq filter]. rewrite (Hf a) by lia. f_equal. apply IH. intros i Hi. apply Hf. lia.
Qed.

(** The indices from [a] on and below [c], among those below [n]. *)
Lemma filter_block (f : nat -> bool) (a c n : nat) :
  (c <= n)%nat ->
  (forall i, (i < n)%nat -> f i = (i <? c)%nat && (a <=? i)%nat) ->
  filter f (seq 0 n) = seq a (c - a).
Proof.
  intros Hc Hf.
  destruct (le_lt_dec c a) as [Hle | Hlt].
  - replace (c - a)%nat with 0%nat by lia. apply filter_seq_nil.
    intros i Hi. rewrite Hf by lia.
    destruct (i <? c)%nat eqn:H1; [| reflexivity].
    apply Nat.ltb_lt in H1. cbn [andb]. apply Nat.leb_gt. lia.
  - replace n with (a + ((c - a) + (n - c)))%nat by lia.
    rewrite !seq_app, !filter_app. cbn [Nat.add].
    rewrite (filter_seq_nil f 0 a), (filter_seq_all f a (c - a)),
            (filter_seq_nil f (a + (c - a)) (n - c)).
    + rewrite app_nil_r. reflexivity.
    + intros i Hi. rewrite Hf by lia.
      replace (i <? c)%nat with false by (symmetry; apply Nat.ltb_ge; lia). reflexivity.
    + intros i Hi. rewrite Hf by lia.
      replace (i <? c)%nat with true by (symmetry; apply Nat.ltb_lt; lia).
      cbn [andb]. apply Nat.leb_le. lia.
    + intros i Hi. rewrite Hf by lia.
      replace (a <=? i)%nat with false by (symmetry; apply Nat.leb_gt; lia).
      apply andb_false_r.
Qed.

(** With thresholds in station order, the stations a tick announces are
    the next ones in line. *)
Lemma firedNow_block (u : CourseTracker) :
  nondecreasing (stationProgresses (course u)) -> (-1 <= lastStationIndex u)%Z ->
  let n := length (stationProgresses (course u)) in
  let a := Z.to_nat (lastStationIndex u + 1) in
  exists c, (c <= n)%nat /\
    (forall i, (i < n)%nat ->
       Qle_bool (nth i (stationProgresses (course u)) 0) (progress u) = (i <? c)%nat) /\
    firedNow u = seq a (c - a).
Proof.
  intros Hmono Hlast n a.
  destruct (prefix_count
              (fun i => Qle_bool (nth i (stationProgresses (course u)) 0) (progress u)) n)
    as (c & Hc & Hf).
  { intros i j Hij Hj. apply Qle_bool_iff in Hj. apply Qle_bool_iff.
    eapply Qle_trans; [apply (Hmono i j); exact Hij | exact Hj]. }
  exists c. split; [exact Hc |]. split; [exact Hf |].
  unfold firedNow. fold n. apply filter_block; [exact Hc |].
  intros i Hi. unfold crossedNow. rewrite (Hf i Hi). f_equal.
  subst a. destruct (lastStationIndex u <? Z.of_nat i)%Z eqn:H1;
    destruct (Z.to_nat (lastStationIndex u + 1) <=? i)%nat eqn:H2; try reflexivity.
  - apply Z.ltb_lt in H1. apply Nat.leb_gt in H2. lia.
  - apply Z.ltb_ge in H1. apply Nat.leb_le in H2. lia.
Qed.

Lemma last_of_block (a k : nat) (d : Z) :
  last (map Z.of_nat (seq a k)) d
  = if (k =? 0)%nat then d else (Z.of_nat (a + k) - 1)%Z.
Proof.
  destruct k as [| k]; [reflexivity |]. cbn [Nat.eqb].
  replace (S k) with (k + 1)%nat by lia.
  rewrite seq_app, map_app. cbn [seq map]. rewrite last_last. lia.
Qed.

Lemma cycle_same (t t' : CourseTracker) :
  course t' = course t -> lastStationIndex t' = lastStationIndex t ->
  events (host t') = events (host t) ->
  cycleInv t -> cycleInv t'.
Proof.
  unfold cycleInv, announcedInOrder. intros -> -> ->. exact (fun H => H).
Qed.

Lemma tick_cycle (now : Q) (t : CourseTracker) :
  cycleInv t -> cycleInv (_tick random now t).
Proof.
  intros Hc. destruct (isPlaying t) eqn:Hp; [| rewrite tick_idle; assumption].
  destruct Hc as (Hmono & Hle & [Hlast Hcross] & Hin & Hdone).
  destruct (tick_clock random now t Hp) as (Hco & _).
  destruct (tick_events random now t Hp) as (Hev & Hl'). cbv zeta in *.
  set (u := advance now t) in *.
  destruct (firedNow_block u Hmono Hlast) as (c & Hcn & Hf & Hfired).
  cbv zeta in Hfired. change (lastStationIndex u) with (lastStationIndex t) in Hfired.
  change (course u) with (course t) in Hcn, Hf.
  set (n := length (stationProgresses (course t))) in *.
  set (a := Z.to_nat (lastStationIndex t + 1)) in *.
  rewrite Hfired in Hev, Hl'. rewrite last_of_block in Hl'.
  unfold cycleInv, announcedInOrder. rewrite Hco, Hev, Hl'. fold n.
  split; [exact Hmono |]. split; [exact Hle |].
  assert (Hcr : crossings (events (host t) ++ map (stationEvent (course t)) (seq a (c - a))
                           ++ (if Qle_bool 1 (progress u) then [Complete] else []))
                = seq 0 a ++ seq a (c - a)).
  { rewrite !crossings_app, crossings_stationEvents, Hcross.
    destruct (Qle_bool 1 (progress u)); cbn [crossings]; rewrite app_nil_r; reflexivity. }
  rewrite Hcr, <- seq_app.
  split; [| split].
  - destruct (c - a =? 0)%nat eqn:Hk.
    + apply Nat.eqb_eq in Hk. rewrite Hk, Nat.add_0_r. split; [exact Hlast | reflexivity].
    + apply Nat.eqb_neq in Hk. split; [lia |]. f_equal. lia.
  - destruct (c - a =? 0)%nat; [exact Hin | lia].
  - rewrite !completions_app, completions_stationEvents. intros Hcomp.
    destruct (Qle_bool 1 (progress u)) eqn:Hfull.
    + assert (Hall : c = n).
      { destruct (Nat.eq_dec c n) as [E | E]; [exact E |].
        assert (Hcn' : (c < n)%nat) by lia.
        pose proof (Hf c Hcn') as Hfc. rewrite Nat.ltb_irrefl in Hfc.
        apply Qle_bool_iff in Hfull. specialize (Hle c Hcn').
        assert (Hq : nth c (stationProgresses (course t)) 0 <= progress u)
          by (eapply Qle_trans; [exact Hle | exact Hfull]).
        apply Qle_bool_iff in Hq. congruence. }
      destruct (c - a =? 0)%nat eqn:Hk.
      * apply Nat.eqb_eq in Hk. subst a. lia.
      * apply Nat.eqb_neq in Hk. subst a. lia.
    + cbn [completions Nat.add] in Hcomp. rewrite ?Nat.add_0_r in Hcomp.
      specialize (Hdone Hcomp).
      destruct (c - a =? 0)%nat eqn:Hk; [exact Hdone |].
      apply Nat.eqb_neq in Hk. subst a. lia.
Qed.

Lemma step_cycle (op : Op) (t : CourseTracker) :
  restarts op t = false -> cycleInv t -> cycleInv (step random t op).
Proof.
  intros Hr Hc. destruct op as [now now' | | | target | m | ss label | | | now];
    cbn [step restarts] in *; try discriminate.
  - unfold play. destruct (isPlaying t) eqn:Hp; [exact Hc |].
    cbn [negb andb] in Hr. rewrite Hr.
    apply tick_cycle. eapply cycle_same; [| | | exact Hc]; reflexivity.
  - eapply cycle_same; [| | | exact Hc]; try reflexivity. apply pause_events.
  - eapply cycle_same; [| | | exact Hc]; reflexivity.
  - eapply cycle_same; [| | | exact Hc]; reflexivity.
  - unfold setGhostSplits. destruct (buildTimeline _).
    eapply cycle_same; [| | | exact Hc]; reflexivity.
  - eapply cycle_same; [| | | exact Hc]; reflexivity.
  - eapply cycle_same; [| | | exact Hc]; try reflexivity. apply pause_events.
  - unfold frame. destruct (rafQueue (host t)) as [| [id cb] rest]; [exact Hc |].
    destruct cb.
    + eapply cycle_same; [| | | exact Hc]; reflexivity.
    + apply tick_cycle. eapply cycle_same; [| | | exact Hc]; reflexivity.
Qed.

Lemma run_cycle (ops : list Op) (t : CourseTracker) :
  sameCycle random ops t = true -> cycleInv t -> cycleInv (run random ops t).
Proof.
  revert t. induction ops as [| op ops IH]; intros t Hs Hc; [exact Hc |].
  change (run random (op :: ops) t) with (run random ops (step random t op)).
  cbn [sameCycle] in Hs. apply andb_prop in Hs. destruct Hs as [Hr Hs].
  apply negb_true_iff in Hr.
  apply IH; [exact Hs | apply step_cycle; assumption].
Qed.

(** ** Completion *)

Lemma once_same (t t' : CourseTracker) :
  progress t' = progress t -> events (host t') = events (host t) ->
  (isPlaying t' = false \/ isPlaying t' = isPlaying t) ->
  completesOnce t -> completesOnce t'.
Proof.
  unfold completesOnce. intros -> -> Hp [Hle Hone]. split; [exact Hle |].
  intros H1. destruct (Hone H1) as [Hpr Hi]. split; [exact Hpr |].
  destruct Hp as [Hp | Hp]; congruence.
Qed.

Lemma tick_once (now : Q) (t : CourseTracker) :
  completions (events (host t)) = 0%nat -> completesOnce (_tick random now t).
Proof.
  intros H0. destruct (isPlaying t) eqn:Hp.
  - destruct (tick_clock random now t Hp) as (_ & _ & _ & _ & Hpr & Hi).
    destruct (tick_events random now t Hp) as (Hev & _). cbv zeta in *.
    unfold completesOnce. rewrite Hev, !completions_app, completions_stationEvents, H0.
    rewrite Hi, Hpr.
    destruct (Qle_bool 1 (progress (advance now t))) eqn:Hfull; cbn [completions Nat.add].
    + split; [lia |]. intros _. split; [apply Qle_bool_iff; exact Hfull | reflexivity].
    + split; [lia |]. intros; lia.
  - rewrite tick_idle by exact Hp. unfold completesOnce. rewrite H0. split; [lia |].
    intros; lia.
Qed.

Lemma step_once (op : Op) (t : CourseTracker) :
  restarts op t = false -> neverSeeks [op] = true ->
  completesOnce t -> completesOnce (step random t op).
Proof.
  intros Hr Hn Hc. destruct op as [now now' | | | target | m | ss label | | | now];
    cbn [step restarts neverSeeks forallb] in *; try discriminate.
  - unfold play. destruct (isPlaying t) eqn:Hp; [exact Hc |].
    cbn [negb andb] in Hr. rewrite Hr. apply tick_once.
    cbn [start host]. destruct Hc as [Hle Hone].
    destruct (completions (events (host t))) as [| [| k]] eqn:Hk; [reflexivity | | lia].
    destruct (Hone eq_refl) as [Hpr _]. apply Qle_bool_iff in Hpr. congruence.
  - eapply once_same; [| | | exact Hc]; [reflexivity | apply pause_events | left; reflexivity].
  - eapply once_same; [| | | exact Hc]; [reflexivity | reflexivity | right; reflexivity].
  - unfold setGhostSplits. destruct (buildTimeline _).
    eapply once_same; [| | | exact Hc]; [reflexivity | reflexivity | right; reflexivity].
  - eapply once_same; [| | | exact Hc]; [reflexivity | reflexivity | right; reflexivity].
  - eapply once_same; [| | | exact Hc]; [reflexivity | apply pause_events | left; reflexivity].
  - unfold frame. destruct (rafQueue (host t)) as [| [id cb] rest]; [exact Hc |].
    destruct cb.
    + eapply once_same; [| | | exact Hc]; [reflexivity | reflexivity | right; reflexivity].
    + destruct (isPlaying t) eqn:Hp.
      * apply tick_once. cbn [withHost host events].
        destruct Hc as [Hle Hone].
        destruct (completions (events (host t))) as [| [| k]] eqn:Hk; [reflexivity | | lia].
        destruct (Hone eq_refl) as [_ Hi]. congruence.
      * rewrite tick_idle by exact Hp.
        eapply once_same; [| | | exact Hc]; [reflexivity | reflexivity | right; reflexivity].
Qed.

Lemma run_once (ops : list Op) (t : CourseTracker) :
  sameCycle random ops t = true -> neverSeeks ops = true ->
  completesOnce t -> completesOnce (run random ops t).
Proof.
  revert t. induction ops as [| op ops IH]; intros t Hs Hn Hc; [exact Hc |].
  change (run random (op :: ops) t) with (run random ops (step random t op)).
  cbn [sameCycle] in Hs. apply andb_prop in Hs. destruct Hs as [Hr Hs].
  apply negb_true_iff in Hr.
  cbn [neverSeeks forallb] in Hn. apply andb_prop in Hn. destruct Hn as [Hop Hn].
  apply IH; [exact Hs | exact Hn |].
  apply step_once; [exact Hr | cbn [neverSeeks forallb]; rewrite Hop; reflexivity | exact Hc].
Qed.

Section Constructed.

Variable sqrt : Q -> Q.
Hypothesis sqrt_nonneg : forall v, 0 <= sqrt v.
Hypothesis sqrt_pos : forall v, 0 < v -> 0 < sqrt v.

Lemma construct_cycle (stations : list Station) (ss gs : list Split)
    (label : option string) :
  cycleInv (construct sqrt stations ss gs label).
Proof.
  unfold cycleInv.
  split; [apply construct_nondecreasing; assumption |].
  split.
  - rewrite construct_stationProgresses. intros i Hi.
    unfold stationProgressMap in Hi. rewrite length_map, length_seq in Hi.
    apply stationProgressMap_range; try assumption; lia.
  - unfold announcedInOrder, construct. destruct (buildTimeline ss), (buildTimeline gs).
    cbn [lastStationIndex host events course stationProgresses snd requestAnimationFrame
         crossings completions].
    repeat split; lia.
Qed.

(** X29. Within a play cycle (a session in which no [restart()] runs, seeks
    included), the stations announced by [onStationReached] so far are
    exactly the stations 0 to [lastStationIndex], each once, in station
    order: no station is skipped and none is announced twice. *)
Theorem stations_are_announced_without_gaps (stations : list Station)
    (ss gs : list Split) (label : option string) (ops : list Op) :
  let t0 := construct sqrt stations ss gs label in
  sameCycle random ops t0 = true ->
  let t := run random ops t0 in
  crossings (events (host t)) = seq 0 (Z.to_nat (lastStationIndex t + 1)) /\
  length (crossings (events (host t))) = Z.to_nat (lastStationIndex t + 1) /\
  (forall i, (Z.of_nat i <= lastStationIndex t)%Z <-> In i (crossings (events (host t)))) /\
  NoDup (crossings (events (host t))).
Proof.
  intros t0 Hs t.
  pose proof (run_cycle ops t0 Hs (construct_cycle stations ss gs label))
    as (_ & _ & [Hlast Hcross] & _ & _).
  fold t in Hlast, Hcross. rewrite Hcross.
  split; [reflexivity |]. split; [apply length_seq |]. split; [| apply seq_NoDup].
  intros i. rewrite in_seq. lia.
Qed.

(** X30. Within a play cycle, once [onComplete] has been called every
    station has been announced, in order, and [lastStationIndex] is the
    index of the last station; without [seekTo], [onComplete] is called at
    most once in the cycle, and after it the progress is at least 1 and the
    playback has stopped. *)
Theorem completion_follows_all_stations (stations : list Station)
    (ss gs : list Split) (label : option string) (ops : list Op) :
  let t0 := construct sqrt stations ss gs label in
  sameCycle random ops t0 = true ->
  let t := run random ops t0 in
  ((1 <= completions (events (host t)))%nat ->
   lastStationIndex t = (Z.of_nat (length stations) - 1)%Z /\
   crossings (events (host t)) = seq 0 (length stations)) /\
  (neverSeeks ops = true ->
   (completions (events (host t)) <= 1)%nat /\
   (completions (events (host t)) = 1%nat -> 1 <= progress t /\ isPlaying t = false)).
Proof.
  intros t0 Hs t.
  pose proof (run_cycle ops t0 Hs (construct_cycle stations ss gs label))
    as (_ & _ & [Hlast Hcross] & _ & Hdone).
  fold t in Hlast, Hcross, Hdone.
  assert (Hn : length (stationProgresses (course t)) = length stations).
  { subst t. rewrite run_course. subst t0. rewrite construct_thresholds.
    unfold construct. destruct (buildTimeline ss), (buildTimeline gs). reflexivity. }
  rewrite Hn in Hdone.
  split.
  - intros Hc. specialize (Hdone Hc). split; [exact Hdone |].
    rewrite Hcross, Hdone. f_equal. lia.
  - intros Hnever. apply run_once; [exact Hs | exact Hnever |].
    unfold completesOnce, t0, construct. destruct (buildTimeline ss), (buildTimeline gs).
    cbn. split; [lia | intros; lia].
Qed.

End Constructed.

End CycleFacts.

(* ================================================================== *)
(** * More worked examples *)
(* ================================================================== *)

Section MoreWorked.
Import Spline StationModel Tracker Notions SessionNotions Canvas Shared Examples MoreExamples.

(** On the small venue the route is the full loop: start, the two
    stations with the transition zone after each, and the start again. *)
Example small_venue_route :
  VenueMap.routeStops smallVenue
  = Some [entry 50 90 "Start"; entry 20 30 "SkiErg"; entry 50 50 "Roxzone";
          entry 70 30 "Sled Push"; entry 50 50 "Roxzone"; entry 50 50 "Roxzone";
          entry 50 50 "Roxzone"; entry 50 50 "Roxzone"; entry 50 50 "Roxzone";
          entry 50 50 "Roxzone"; entry 50 90 "Start"].
Proof. vm_compute. reflexivity. Qed.

(** A venue with a single station gets a route from the station to
    itself. *)
Example single_station_route :
  VenueMap.routeStops [("station_3"%string, entry 20 30 "Sled Pull")]
  = Some [entry 20 30 "Sled Pull"; entry 20 30 "Sled Pull"].
Proof. vm_compute. reflexivity. Qed.

(** A [null] entry: the route skips it, the markers throw. *)
Example null_entry_breaks_the_markers :
  VenueMap._addMarkers venueWithNull = Throw TypeError /\
  VenueMap.routeStops venueWithNull
  = Some [entry 20 30 "SkiErg"; entry 20 30 "SkiErg"].
Proof. split; vm_compute; reflexivity. Qed.

(** 83.456 s reads 01:23 on the tracker and 01:23.45 in the tables; 3725 s
    read 1:02:05. *)
Example times_as_printed :
  _formatTime 83456 = "01:23"%string /\
  formatTimeMs 83456 = "01:23.45"%string /\
  formatTimeSec 3725 = "1:02:05"%string /\
  formatTimeSec 125 = "2:05"%string.
Proof. repeat split; vm_compute; reflexivity. Qed.

(** X1 at a concrete input. *)
Lemma path_passes_through_every_station_witness :
  let points := [mkPoint 0 0; mkPoint 100 0; mkPoint 100 100] in
  (2 <= length points)%nat /\ (1 <= 30)%nat /\ (1 < length points)%nat /\
  pt_eq (getPositionAtProgress (generateSplinePath points 30)
           (QofNat 1 / QofNat (length points - 1)))
        (at_ points (Z.of_nat 1)).
Proof.
  cbv zeta.
  assert (H2 : (2 <= length [mkPoint 0 0; mkPoint 100 0; mkPoint 100 100])%nat)
    by (apply Nat.leb_le; reflexivity).
  assert (H1 : (1 <= 30)%nat) by (apply Nat.leb_le; reflexivity).
  assert (Hk : (1 < length [mkPoint 0 0; mkPoint 100 0; mkPoint 100 100])%nat)
    by (apply Nat.ltb_lt; reflexivity).
  split; [exact H2 |]. split; [exact H1 |]. split; [exact Hk |].
  exact (proj2 (proj2 (path_passes_through_every_station _ 30 1 H2 H1 Hk))).
Defined.

(** X2 at a concrete input. *)
Lemma two_station_path_is_straight_witness :
  (1 <= 30)%nat /\ 0 <= 1#2 <= 1 /\
  px (getPositionAtProgress (generateSplinePath [mkPoint 0 0; mkPoint 100 50] 30) (1#2))
  == 0 + (100 - 0) * (1#2).
Proof.
  assert (H1 : (1 <= 30)%nat) by (apply Nat.leb_le; reflexivity).
  assert (Hp : 0 <= 1#2 <= 1) by (split; apply Qle_bool_iff; reflexivity).
  split; [exact H1 |]. split; [exact Hp |].
  exact (proj1 (two_station_path_is_straight (mkPoint 0 0) (mkPoint 100 50) 30 (1#2) H1 Hp)).
Defined.


(** X12 at a concrete input. *)
Lemma arc_length_table_is_normalised_witness :
  let path := [mkPoint 0 0; mkPoint 3 4; mkPoint 3 0] in
  (2 <= length path)%nat /\
  (exists q, In q path /\ ~ pt_eq q (hd q path)) /\
  length (computeArcLengths sqrtQ path) = length path.
Proof.
  cbv zeta.
  assert (H2 : (2 <= length [mkPoint 0 0; mkPoint 3 4; mkPoint 3 0])%nat)
    by (apply Nat.leb_le; reflexivity).
  assert (Hd : exists q, In q [mkPoint 0 0; mkPoint 3 4; mkPoint 3 0] /\
                         ~ pt_eq q (hd q [mkPoint 0 0; mkPoint 3 4; mkPoint 3 0])).
  { exists (mkPoint 3 4). split; [right; left; reflexivity |].
    intros [Hx _]. discriminate Hx. }
  split; [exact H2 |]. split; [exact Hd |].
  exact (proj1 (arc_length_table_is_normalised sqrtQ sqrtQ_nonneg sqrtQ_pos _ H2 Hd)).
Defined.


Lemma half_is_a_random_number : forall k, 0 <= half k < 1.
Proof. intros k. unfold half. split; [apply Qle_bool_iff | ]; reflexivity. Qed.

(** X7 at a concrete input. *)
Lemma trail_particles_are_drawable_witness :
  (forall k, 0 <= half k < 1) /\
  Forall (drawable 3 5) (particles (run half startedSession freshTracker)).
Proof.
  split; [exact half_is_a_random_number |].
  exact (proj1 (trail_particles_are_drawable half half_is_a_random_number sqrtQ twoStations
                  (oneSplit 100000) [] None startedSession 300 200)).
Defined.

(** X9 at a concrete input. *)
Lemma idle_tracker_ignores_frames_witness :
  isPlaying freshTracker = false /\
  samePlayback freshTracker (run half (framesOnly [1000; 1016]) freshTracker).
Proof.
  split; [reflexivity |].
  exact (proj1 (idle_tracker_ignores_frames half [1000; 1016] freshTracker eq_refl)).
Defined.

(** X11 at a concrete input. *)
Lemma play_resumes_or_starts_over_witness :
  isPlaying freshTracker = false /\ ~ 1000 == 0 /\
  lastTimestamp (play half 1000 1016 freshTracker) = Some 1016.
Proof.
  assert (Hn : ~ 1000 == 0) by (intros H; discriminate H).
  split; [reflexivity |]. split; [exact Hn |].
  exact (proj2 (proj2 (play_resumes_or_starts_over half 1000 1016 freshTracker eq_refl Hn))).
Defined.

(** X15 at a concrete input. *)
Lemma highlight_ends_behind_the_athlete_witness :
  (2 <= length twoStations)%nat /\
  (progress (run half [OpSeekTo 0] freshTracker) <= 0 ->
   highlighted (run half [OpSeekTo 0] freshTracker) = []).
Proof.
  assert (H2 : (2 <= length twoStations)%nat) by (apply Nat.leb_le; reflexivity).
  split; [exact H2 |].
  exact (proj1 (highlight_ends_behind_the_athlete half sqrtQ twoStations (oneSplit 100000) []
                  None [OpSeekTo 0] H2)).
Defined.

(** X17 at a concrete input. *)
Lemma progress_bar_stays_on_its_track_witness :
  32 <= 332 /\
  filledW (_drawProgressBar 332 200 (run half startedSession freshTracker))
  <= barW (_drawProgressBar 332 200 (run half startedSession freshTracker)).
Proof.
  assert (HW : 32 <= 332) by (apply Qle_bool_iff; reflexivity).
  split; [exact HW |].
  exact (proj1 (progress_bar_stays_on_its_track half sqrtQ sqrtQ_nonneg sqrtQ_pos twoStations
                  (oneSplit 100000) [] None startedSession 332 200 HW)).
Defined.

(** X18 at a concrete input. *)
Lemma formatTime_shows_minutes_and_seconds_witness :
  0 <= 83456 /\
  exists m s : Z,
    _formatTime 83456 = (pad2 m ++ ":" ++ pad2 s)%string /\
    (0 <= m)%Z /\ (0 <= s < 60)%Z /\
    (60 * m + s)%Z = Qfloor (83456 / 1000) /\
    inject_Z (60 * m + s) * 1000 <= 83456 < (inject_Z (60 * m + s) + 1) * 1000 /\
    (83456 < 6000000 -> String.length (_formatTime 83456) = 5%nat).
Proof.
  assert (H0 : 0 <= 83456) by (apply Qle_bool_iff; reflexivity).
  split; [exact H0 |].
  exact (formatTime_shows_minutes_and_seconds 83456 H0).
Defined.

(** X19 at a concrete input. *)
Lemma formatTimeMs_extends_formatTime_witness :
  0 <= 83456 /\
  let '(mins, secs, cs) := msParts 83456 in
  (0 <= mins)%Z /\ (0 <= secs < 60)%Z /\ (0 <= cs < 100)%Z /\
  0 <= 83456 - inject_Z (60000 * mins + 1000 * secs + 10 * cs) < 10 /\
  formatTimeMs 83456 = (_formatTime 83456 ++ "." ++ pad2 cs)%string /\
  (83456 < 6000000 -> String.length (formatTimeMs 83456) = 8%nat).
Proof.
  assert (H0 : 0 <= 83456) by (apply Qle_bool_iff; reflexivity).
  split; [exact H0 |].
  exact (formatTimeMs_extends_formatTime 83456 H0).
Defined.

(** X20 at a concrete input. *)
Lemma formatTimeSec_splits_whole_seconds_witness :
  (0 <= 3725)%Z /\
  let '(hrs, mins, secs) := secParts 3725 in
  (3600 * hrs + 60 * mins + secs)%Z = 3725%Z.
Proof.
  assert (H0 : (0 <= 3725)%Z) by (apply Z.leb_le; reflexivity).
  split; [exact H0 |].
  exact (proj1 (proj2 (proj2 (proj2 (formatTimeSec_splits_whole_seconds 3725 H0))))).
Defined.

Lemma oval_scene_is_constructed :
  Scene3D.construct JSON_parse cosOfZero sinOfZero 3 (JObj []) = Ok ovalScene.
Proof. reflexivity. Qed.

(** X22 at a concrete input. *)
Lemma scene_loop_runs_until_destroyed_witness :
  Scene3D.construct JSON_parse cosOfZero sinOfZero 3 (JObj []) = Ok ovalScene /\
  Scene3D.pending
    (Scene3D.play (Scene3D.sceneRun [Scene3D.ScPause; Scene3D.ScFrame 1] ovalScene))
  = Scene3D.pending (Scene3D.sceneRun [Scene3D.ScPause; Scene3D.ScFrame 1] ovalScene).
Proof.
  split; [exact oval_scene_is_constructed |].
  exact (proj1 (proj2 (proj2
           (scene_loop_runs_until_destroyed JSON_parse cosOfZero sinOfZero 3 (JObj [])
              ovalScene [Scene3D.ScPause; Scene3D.ScFrame 1] oval_scene_is_constructed)))).
Defined.



(** A one-second course played to its end: [play()], the pending draw
    frame, then a frame 200 ms later at speed 10. *)
Lemma short_course_completes :
  sameCycle half playedToTheEnd (construct sqrtQ twoStations (oneSplit 1000) [] None) = true /\
  (1 <= completions (events (host (run half playedToTheEnd
          (construct sqrtQ twoStations (oneSplit 1000) [] None)))))%nat.
Proof. split; [| apply Nat.leb_le]; vm_compute; reflexivity. Qed.

(** X29 at a concrete input. *)
Lemma stations_are_announced_without_gaps_witness :
  let t0 := construct sqrtQ twoStations (oneSplit 1000) [] None in
  sameCycle half playedToTheEnd t0 = true /\
  NoDup (crossings (events (host (run half playedToTheEnd t0)))).
Proof.
  cbv zeta. split; [exact (proj1 short_course_completes) |].
  exact (proj2 (proj2 (proj2
           (stations_are_announced_without_gaps half sqrtQ sqrtQ_nonneg sqrtQ_pos
              twoStations (oneSplit 1000) [] None playedToTheEnd
              (proj1 short_course_completes))))).
Defined.

(** X30 at a concrete input. *)
Lemma completion_follows_all_stations_witness :
  let t0 := construct sqrtQ twoStations (oneSplit 1000) [] None in
  sameCycle half playedToTheEnd t0 = true /\
  crossings (events (host (run half playedToTheEnd t0))) = seq 0 (length twoStations).
Proof.
  cbv zeta. split; [exact (proj1 short_course_completes) |].
  exact (proj2 (proj1
           (completion_follows_all_stations half sqrtQ sqrtQ_nonneg sqrtQ_pos
              twoStations (oneSplit 1000) [] None playedToTheEnd
              (proj1 short_course_completes))
           (proj2 short_course_completes))).
Defined.


End MoreWorked.

